(** * Process scheduling simulator (FCFS, SJF, RR): model and properties

    Shallow embedding of [src/process-scheduling-algorithms/main.cc]; the
    page replacement program, [src/page-replacement-algorithms/main.cc],
    follows it, with its own conventions.

    - [int] values are modelled in [Z].  Signed overflow is undefined in
      C++.  Each engine is given on mathematical integers ([FCFS_Start],
      [SJF_Start], [RR_Start]) and with the range of [int]
      ([FCFS_Start_int], [SJF_Start_int], [RR_Start_int]): the same turns,
      undefined at the first one that computes an [int] outside
      [INT_MIN .. INT_MAX].  A run of the latter is a run of the source in
      which no [int] operation overflows.
    - [float] values are IEEE-754 binary32 numbers ([spec_float] with
      precision 24), rounded to nearest even as the C++ default.
    - [std::vector<Process>] is a [list Process] read with [!!] and written
      with [<[i:=p]>]; [std::queue<std::size_t>] is a [list nat] whose head
      is the front.
    - A [while] loop is run with fuel; reading the front of an empty queue is
      undefined behaviour and reported as such. *)

From Stdlib Require Import ZArith Lia Bool String Ascii QArith SpecFloat.
From Stdlib Require Decimal DecimalFacts DecimalPos DecimalString.
From stdpp Require Import base list sorting gmap.

(* stdpp's strings stop [simpl] from unfolding [String.append]; the proofs
   below compute on strings. *)
#[local] Arguments String.append !s1 s2.

Local Open Scope Z_scope.

(** ** binary32 arithmetic *)

Module Float32.
Definition prec : Z := 24.
Definition emax : Z := 128.

Definition float : Type := spec_float.

(** [float x{}] *)
Definition zero : float := S754_zero false.

(** [static_cast<float>(n)] for an integer [n] *)
Definition of_Z (n : Z) : float := binary_normalize prec emax n 0 false.

Definition add (x y : float) : float := SFadd prec emax x y.
Definition div (x y : float) : float := SFdiv prec emax x y.

(** The rational number a finite float stands for. *)
Definition to_Q (x : float) : option Q :=
  match x with
  | S754_zero _ => Some (0 # 1)%Q
  | S754_finite s m e =>
      let v := if s then Z.neg m else Z.pos m in
      Some (if 0 <=? e then inject_Z (v * 2 ^ e)
            else Qmake v (Z.to_pos (2 ^ (- e))))
  | _ => None
  end.

Definition is_Q (x : float) (q : Q) : Prop :=
  match to_Q x with
  | Some v => Qeq v q
  | None => False
  end.
End Float32.

(** ** Loops with fuel *)

Inductive outcome (A : Type) : Type :=
| Returned (a : A)
| OutOfFuel
| Undefined.
Arguments Returned {A} a.
Arguments OutOfFuel {A}.
Arguments Undefined {A}.

(** [while (cond) body]: [body] yields [None] where the source has undefined
    behaviour. *)
Fixpoint while_loop {S : Type} (cond : S -> bool) (body : S -> option S)
    (fuel : nat) (s : S) {struct fuel} : outcome S :=
  if cond s then
    match fuel with
    | O => OutOfFuel
    | Datatypes.S fuel' =>
        match body s with
        | Some s' => while_loop cond body fuel' s'
        | None => Undefined
        end
    end
  else Returned s.

(** [std::numeric_limits<int>::max()] and [min()] *)
Definition INT_MAX : Z := 2147483647.
Definition INT_MIN : Z := -2147483648.

Module ps.

(** [struct Process] ([at] is reserved in Rocq, the field is [p_at]). *)
Record Process : Type := Build_Process {
  p_at : Z;
  bt : Z;
  st : Z;
  ct : Z;
  tt : Z;
  rt : Z;
  wt : Z;
  rbt : Z;
  queued : bool;
  finished : bool
}.

(** [struct ProcessAverageMetrics] *)
Record ProcessAverageMetrics : Type := Build_Metrics {
  m_tt : Float32.float;
  m_rt : Float32.float;
  m_wt : Float32.float
}.

Definition set_st (v : Z) (p : Process) : Process :=
  Build_Process (p_at p) (bt p) v (ct p) (tt p) (rt p) (wt p) (rbt p)
    (queued p) (finished p).
Definition set_ct (v : Z) (p : Process) : Process :=
  Build_Process (p_at p) (bt p) (st p) v (tt p) (rt p) (wt p) (rbt p)
    (queued p) (finished p).
Definition set_tt (v : Z) (p : Process) : Process :=
  Build_Process (p_at p) (bt p) (st p) (ct p) v (rt p) (wt p) (rbt p)
    (queued p) (finished p).
Definition set_rt (v : Z) (p : Process) : Process :=
  Build_Process (p_at p) (bt p) (st p) (ct p) (tt p) v (wt p) (rbt p)
    (queued p) (finished p).
Definition set_wt (v : Z) (p : Process) : Process :=
  Build_Process (p_at p) (bt p) (st p) (ct p) (tt p) (rt p) v (rbt p)
    (queued p) (finished p).
Definition set_rbt (v : Z) (p : Process) : Process :=
  Build_Process (p_at p) (bt p) (st p) (ct p) (tt p) (rt p) (wt p) v
    (queued p) (finished p).
Definition set_queued (v : bool) (p : Process) : Process :=
  Build_Process (p_at p) (bt p) (st p) (ct p) (tt p) (rt p) (wt p) (rbt p)
    v (finished p).
Definition set_finished (v : bool) (p : Process) : Process :=
  Build_Process (p_at p) (bt p) (st p) (ct p) (tt p) (rt p) (wt p) (rbt p)
    (queued p) v.

(** [{.at = at, .bt = bt, .rbt = bt}]: the other members are
    value-initialised. *)
Definition new_Process (a b : Z) : Process :=
  Build_Process a b 0 0 0 0 0 b false false.

(** [ProcessAverageMetrics metrics{}] *)
Definition metrics_zero : ProcessAverageMetrics :=
  Build_Metrics Float32.zero Float32.zero Float32.zero.

(** [metrics.tt += static_cast<float>(p.tt)] and the two lines after it *)
Definition metrics_add (m : ProcessAverageMetrics) (p : Process)
    : ProcessAverageMetrics :=
  Build_Metrics (Float32.add (m_tt m) (Float32.of_Z (tt p)))
                (Float32.add (m_rt m) (Float32.of_Z (rt p)))
                (Float32.add (m_wt m) (Float32.of_Z (wt p))).

(** [metrics.tt /= static_cast<float>(processes_count_)] and the two lines
    after it *)
Definition metrics_div (m : ProcessAverageMetrics) (processes_count_ : nat)
    : ProcessAverageMetrics :=
  let n := Float32.of_Z (Z.of_nat processes_count_) in
  Build_Metrics (Float32.div (m_tt m) n) (Float32.div (m_rt m) n)
                (Float32.div (m_wt m) n).

(** [tt], [rt] and [wt] as the three engines derive them from [st], [ct]. *)
Definition derive (p : Process) : Process :=
  let p := set_tt (ct p - p_at p) p in
  let p := set_rt (st p - p_at p) p in
  set_wt (tt p - bt p) p.

(** *** [Scheduler::SortArrivalTimeAsceding]

    The source calls [std::sort] with the comparer [lhs.at < rhs.at].  The
    C++ standard promises a permutation of the range in which no element
    compares less than an earlier one, and leaves the relative order of
    elements that compare equivalent open.  The sort is a parameter of the
    engines that use it, with that contract; [libstdcxx] below is the
    [std::sort] of GCC's library, which the engines are run with. *)

Definition at_le (p q : Process) : Prop := p_at p <= p_at q.

Record ArrivalSort : Type := Build_ArrivalSort {
  std_sort : list Process -> list Process;
  std_sort_perm : forall l, std_sort l ≡ₚ l;
  std_sort_sorted : forall l, StronglySorted at_le (std_sort l)
}.

(** A sort within the contract: insertion of each element, from the last to
    the first, in front of the first element that is not smaller. *)
Fixpoint insert_by (before : Process -> Process -> bool) (x : Process)
    (l : list Process) : list Process :=
  match l with
  | [] => [x]
  | y :: l' => if before x y then x :: l else y :: insert_by before x l'
  end.

Definition insertion_sort (before : Process -> Process -> bool)
    (l : list Process) : list Process :=
  foldr (insert_by before) [] l.

Definition insert_before_ties (x y : Process) : bool := p_at x <=? p_at y.

(** *** [std::sort] as libstdc++ implements it (GCC 12, [bits/stl_algo.h]
    and [bits/stl_heap.h])

    The introsort loop and the heap sort it falls back on work on the vector
    through iterators, here indexes; the final insertion sort is given on
    the list of the elements.  The helpers named [__unguarded_...] walk the
    vector without testing for its ends: [std::sort] calls them where an
    element that stops the walk is there.  The walks are given here with
    their ends: a comparison that would read outside the vector is taken as
    false, and the walk of [__unguarded_linear_insert] stops at the front. *)
Module libstdcxx.

(** The comparer of [SortArrivalTimeAsceding]. *)
Definition comparer (lhs rhs : Process) : bool := p_at lhs <? p_at rhs.

Definition comp (v : list Process) (a b : nat) : bool :=
  match v !! a, v !! b with
  | Some x, Some y => comparer x y
  | _, _ => false
  end.

Definition iter_swap (a b : nat) (v : list Process) : list Process :=
  match v !! a, v !! b with
  | Some x, Some y => <[b := x]> (<[a := y]> v)
  | _, _ => v
  end.

(** The element at [first + from] is moved to [first + to]. *)
Definition move (from to : nat) (v : list Process) : list Process :=
  match v !! from with
  | Some x => <[to := x]> v
  | None => v
  end.

Definition S_threshold : nat := 16.

(** [__unguarded_linear_insert]: [before] holds the elements on the left of
    [__last], the nearest first; the result is in the same order, with
    [val] put in. *)
Fixpoint unguarded_linear_insert (val : Process) (before : list Process)
    : list Process :=
  match before with
  | [] => [val]
  | next :: before' =>
      if comparer val next then next :: unguarded_linear_insert val before'
      else val :: before
  end.

(** One turn of the loop of [__insertion_sort]: [sorted] is the range
    [__first .. __i) and [val] is [*__i]. *)
Definition insertion_sort_turn (sorted : list Process) (val : Process)
    : list Process :=
  match sorted with
  | [] => [val]
  | first :: _ =>
      if comparer val first then val :: sorted
      else reverse (unguarded_linear_insert val (reverse sorted))
  end.

Definition insertion_sort (range : list Process) : list Process :=
  match range with
  | [] => []
  | first :: rest => foldl insertion_sort_turn [first] rest
  end.

(** [__unguarded_insertion_sort (first, last)], [sorted] being the elements
    before [first]. *)
Definition unguarded_insertion_sort (sorted range : list Process)
    : list Process :=
  foldl (fun sorted val =>
           reverse (unguarded_linear_insert val (reverse sorted)))
    sorted range.

Definition final_insertion_sort (v : list Process) : list Process :=
  if (S_threshold <? length v)%nat then
    unguarded_insertion_sort (insertion_sort (take S_threshold v))
      (drop S_threshold v)
  else insertion_sort v.

Definition move_median_to_first (result a b c : nat) (v : list Process)
    : list Process :=
  if comp v a b then
    if comp v b c then iter_swap result b v
    else if comp v a c then iter_swap result c v
    else iter_swap result a v
  else if comp v a c then iter_swap result a v
  else if comp v b c then iter_swap result c v
  else iter_swap result b v.

(** [while (__comp(__first, __pivot)) ++__first;] *)
Fixpoint forward (v : list Process) (pivot : nat) (fuel first : nat) : nat :=
  match fuel with
  | O => first
  | S fuel =>
      if comp v first pivot then forward v pivot fuel (S first) else first
  end.

(** [while (__comp(__pivot, __last)) --__last;] *)
Fixpoint backward (v : list Process) (pivot : nat) (last : nat) : nat :=
  match last with
  | O => O
  | S last' =>
      if comp v pivot last then backward v pivot last' else last
  end.

Fixpoint unguarded_partition (fuel first last pivot : nat)
    (v : list Process) : nat * list Process :=
  match fuel with
  | O => (first, v)
  | S fuel =>
      let first := forward v pivot (length v) first in
      let last := backward v pivot (last - 1) in
      if negb (first <? last)%nat then (first, v)
      else unguarded_partition fuel (S first) last pivot
             (iter_swap first last v)
  end.

Definition unguarded_partition_pivot (first last : nat) (v : list Process)
    : nat * list Process :=
  let mid := (first + (last - first) / 2)%nat in
  let v := move_median_to_first first (first + 1) mid (last - 1) v in
  unguarded_partition (length v) (first + 1) last first v.

(** [__push_heap]; [comp_val] is [__comp(__first + __parent, __value)]. *)
Fixpoint push_heap (fuel first holeIndex topIndex : nat) (value : Process)
    (v : list Process) : list Process :=
  let parent := ((holeIndex - 1) / 2)%nat in
  match fuel with
  | O => <[(first + holeIndex)%nat := value]> v
  | S fuel =>
      if (topIndex <? holeIndex)%nat &&
         match v !! (first + parent)%nat with
         | Some x => comparer x value
         | None => false
         end
      then push_heap fuel first parent topIndex value
             (move (first + parent) (first + holeIndex) v)
      else <[(first + holeIndex)%nat := value]> v
  end.

(** The [while] loop of [__adjust_heap]; yields [__holeIndex],
    [__secondChild] and the vector. *)
Fixpoint adjust_heap_loop (fuel first holeIndex secondChild len : nat)
    (v : list Process) : nat * nat * list Process :=
  match fuel with
  | O => (holeIndex, secondChild, v)
  | S fuel =>
      if (secondChild <? (len - 1) / 2)%nat then
        let secondChild := (2 * (secondChild + 1))%nat in
        let secondChild :=
          if comp v (first + secondChild) (first + (secondChild - 1))
          then (secondChild - 1)%nat else secondChild in
        adjust_heap_loop fuel first secondChild secondChild len
          (move (first + secondChild) (first + holeIndex) v)
      else (holeIndex, secondChild, v)
  end.

Definition adjust_heap (first holeIndex len : nat) (value : Process)
    (v : list Process) : list Process :=
  let topIndex := holeIndex in
  let '(holeIndex, secondChild, v) :=
    adjust_heap_loop len first holeIndex holeIndex len v in
  let '(holeIndex, v) :=
    if Nat.even len && (secondChild =? (len - 2) / 2)%nat then
      let secondChild := (2 * (secondChild + 1))%nat in
      ((secondChild - 1)%nat,
       move (first + (secondChild - 1)) (first + holeIndex) v)
    else (holeIndex, v) in
  push_heap len first holeIndex topIndex value v.

Definition pop_heap (first last result : nat) (v : list Process)
    : list Process :=
  match v !! result with
  | Some value =>
      adjust_heap first 0 (last - first) value (move first result v)
  | None => v
  end.

(** The loop of [__make_heap], from [__parent] down to 0. *)
Fixpoint make_heap_loop (first len parent : nat) (v : list Process)
    : list Process :=
  let v :=
    match v !! (first + parent)%nat with
    | Some value => adjust_heap first parent len value v
    | None => v
    end in
  match parent with
  | O => v
  | S parent => make_heap_loop first len parent v
  end.

Definition make_heap (first last : nat) (v : list Process) : list Process :=
  if (last - first <? 2)%nat then v
  else make_heap_loop first (last - first) ((last - first - 2) / 2) v.

(** [__sort_heap]: [len] is [__last - __first]. *)
Fixpoint sort_heap (first len : nat) (v : list Process) : list Process :=
  match len with
  | O => v
  | S len' =>
      if (1 <? len)%nat then
        sort_heap first len' (pop_heap first (first + len') (first + len') v)
      else v
  end.

(** [__partial_sort (first, last, last)]: the loop of [__heap_select] runs
    over the empty range [__middle .. __last). *)
Definition partial_sort (first last : nat) (v : list Process)
    : list Process :=
  sort_heap first (last - first) (make_heap first last v).

(** [__introsort_loop]: the turn of the [while] loop after [__last = __cut]
    is the second call. *)
Fixpoint introsort_loop (depth_limit first last : nat) (v : list Process)
    : list Process :=
  if (S_threshold <? last - first)%nat then
    match depth_limit with
    | O => partial_sort first last v
    | S depth_limit =>
        let '(cut, v) := unguarded_partition_pivot first last v in
        let v := introsort_loop depth_limit cut last v in
        introsort_loop depth_limit first cut v
    end
  else v.

(** [std::__sort]; [std::__lg] is the binary logarithm, rounded down. *)
Definition sort (v : list Process) : list Process :=
  match v with
  | [] => []
  | _ :: _ =>
      final_insertion_sort
        (introsort_loop (Nat.log2 (length v) * 2) 0 (length v) v)
  end.

End libstdcxx.

(** *** [FCFSScheduler::Start] *)

Record loop_state : Type := Build_state {
  processes_ : list Process;
  time_passed : Z;
  ready_indexes_queue : list nat;
  finished_count : nat;
  metrics : ProcessAverageMetrics
}.

(** The result of [Start]: the averages, and the engine's process vector as
    the run leaves it. *)
Record run_result : Type := Build_result {
  averages : ProcessAverageMetrics;
  final_processes : list Process
}.

(** Body of the [for] loop, at index [i], on mathematical integers;
    [FCFS_body_int] below is the body with the range of [int]. *)
Definition FCFS_body (acc : list Process * ProcessAverageMetrics) (i : nat)
    : list Process * ProcessAverageMetrics :=
  let '(procs, m) := acc in
  match procs !! i with
  | None => acc
  | Some process =>
      let prev_ct :=
        match procs !! (i - 1)%nat with Some q => ct q | None => 0 end in
      let process :=
        set_st (if (i =? 0)%nat then p_at process
                else Z.max (p_at process) prev_ct) process in
      let process := set_ct (st process + bt process) process in
      let process := derive process in
      (<[i := process]> procs, metrics_add m process)
  end.

Definition FCFS_Start (S : ArrivalSort) (processes : list Process)
    : run_result :=
  let processes_count_ := length processes in
  let sorted := std_sort S processes in
  let '(procs, m) :=
    foldl FCFS_body (sorted, metrics_zero) (seq 0 processes_count_) in
  Build_result (metrics_div m processes_count_) procs.

(** *** [SJFScheduler::Start] *)

(** One turn of the inner [for] loop.  [pProcess] is kept as the index of the
    process pointed to together with that process (the vector is not written
    during the scan). *)
Definition SJF_visit (time : Z) (acc : Z * option (nat * Process))
    (i : nat) (process : Process) : Z * option (nat * Process) :=
  let '(bt_threshold, pProcess) := acc in
  if finished process || (time <? p_at process) then acc
  else
    let found := bt process <? bt_threshold in
    let found :=
      match pProcess with
      | Some (_, chosen) =>
          if bt process =? bt_threshold then p_at process <? p_at chosen
          else found
      | None => found
      end in
    if found then (bt process, Some (i, process)) else acc.

Fixpoint SJF_scan (time : Z) (i : nat) (l : list Process)
    (acc : Z * option (nat * Process)) : Z * option (nat * Process) :=
  match l with
  | [] => acc
  | process :: l' => SJF_scan time (S i) l' (SJF_visit time acc i process)
  end.

(** The process the scan settles on at clock [time], if any. *)
Definition SJF_select (procs : list Process) (time : Z)
    : option (nat * Process) :=
  snd (SJF_scan time 0 procs (INT_MAX, None)).

(** Body of the [while] loop, on mathematical integers; [SJF_body_int]
    below is the body with the range of [int]. *)
Definition SJF_body (s : loop_state) : loop_state :=
  match SJF_select (processes_ s) (time_passed s) with
  | None =>
      Build_state (processes_ s) (time_passed s + 1) (ready_indexes_queue s)
        (finished_count s) (metrics s)
  | Some (i, p) =>
      let p := set_st (time_passed s) p in
      let p := set_ct (st p + bt p) p in
      let p := derive p in
      let m := metrics_add (metrics s) p in
      let p := set_finished true p in
      Build_state (<[i := p]> (processes_ s)) (ct p) (ready_indexes_queue s)
        (S (finished_count s)) m
  end.

Definition unfinished_remain (processes_count_ : nat) (s : loop_state)
    : bool :=
  (finished_count s <? processes_count_)%nat.

Definition finish (processes_count_ : nat) (s : loop_state) : run_result :=
  Build_result (metrics_div (metrics s) processes_count_) (processes_ s).

Definition map_outcome {A B : Type} (f : A -> B) (o : outcome A)
    : outcome B :=
  match o with
  | Returned a => Returned (f a)
  | OutOfFuel => OutOfFuel
  | Undefined => Undefined
  end.

Definition SJF_init (processes : list Process) : loop_state :=
  Build_state processes 0 [] 0 metrics_zero.

Definition SJF_Start (fuel : nat) (processes : list Process)
    : outcome run_result :=
  let processes_count_ := length processes in
  map_outcome (finish processes_count_)
    (while_loop (unfinished_remain processes_count_)
       (fun s => Some (SJF_body s)) fuel (SJF_init processes)).

(** *** [RRScheduler::Start] *)

Section RR.
Variable quantum_ : Z.

(** Lines 177-201: first-dispatch bookkeeping and the time slice of
    [curr], on mathematical integers; [RR_body_int] below is the body of
    the loop with the range of [int]. *)
Definition RR_dispatch (s : loop_state) (curr_index : nat) (curr : Process)
    (queue : list nat) : loop_state :=
  let '(curr, time) :=
    if rbt curr =? bt curr then
      let curr := set_st (Z.max (time_passed s) (p_at curr)) curr in
      (curr, st curr)
    else (curr, time_passed s) in
  if 0 <? rbt curr - quantum_ then
    let curr := set_rbt (rbt curr - quantum_) curr in
    Build_state (<[curr_index := curr]> (processes_ s)) (time + quantum_)
      queue (finished_count s) (metrics s)
  else
    let time := time + rbt curr in
    let curr := set_ct time curr in
    let curr := derive curr in
    let m := metrics_add (metrics s) curr in
    let curr := set_rbt 0 curr in
    let curr := set_finished true curr in
    Build_state (<[curr_index := curr]> (processes_ s)) time queue
      (S (finished_count s)) m.

(** Lines 203-214: the arrival sweep over [processes_.begin() + 1 ..],
    [next_index] counting from [i]. *)
Fixpoint RR_sweep (time : Z) (next_index : nat) (l : list Process)
    (queue : list nat) : list Process * list nat :=
  match l with
  | [] => ([], queue)
  | it :: l' =>
      if queued it || finished it then
        let '(l'', queue) := RR_sweep time (S next_index) l' queue in
        (it :: l'', queue)
      else if p_at it <=? time then
        let '(l'', queue) :=
          RR_sweep time (S next_index) l' (queue ++ [next_index]) in
        (set_queued true it :: l'', queue)
      else
        let '(l'', queue) := RR_sweep time (S next_index) l' queue in
        (it :: l'', queue)
  end.

(** Lines 220-234: the scan entered when the queue is empty. *)
Fixpoint RR_recover (next_index : nat) (l : list Process)
    (queue : list nat) : list Process * list nat :=
  match l with
  | [] => ([], queue)
  | it :: l' =>
      if finished it then
        let '(l'', queue) := RR_recover (S next_index) l' queue in
        (it :: l'', queue)
      else (set_queued true it :: l', queue ++ [next_index])
  end.

(** [processes_.begin() + 1] on an empty vector is not defined; the loop
    body only runs when the vector has an element. *)
Definition from_second (f : list Process -> list nat ->
                            list Process * list nat)
    (procs : list Process) (queue : list nat)
    : option (list Process * list nat) :=
  match procs with
  | [] => None
  | first :: rest =>
      let '(rest, queue) := f rest queue in Some (first :: rest, queue)
  end.

Definition RR_after_sweep (s : loop_state) : option loop_state :=
  '(procs, queue) ←
    from_second (RR_sweep (time_passed s) 1) (processes_ s)
      (ready_indexes_queue s);
  Some (Build_state procs (time_passed s) queue (finished_count s)
          (metrics s)).

Definition RR_requeue (curr_index : nat) (s : loop_state)
    : option loop_state :=
  curr ← processes_ s !! curr_index;
  Some (if negb (finished curr) then
          Build_state (processes_ s) (time_passed s)
            (ready_indexes_queue s ++ [curr_index]) (finished_count s)
            (metrics s)
        else s).

Definition RR_after_recover (s : loop_state) : option loop_state :=
  match ready_indexes_queue s with
  | [] =>
      '(procs, queue) ← from_second (RR_recover 1) (processes_ s) [];
      Some (Build_state procs (time_passed s) queue (finished_count s)
              (metrics s))
  | _ :: _ => Some s
  end.

(** Body of the [while] loop. *)
Definition RR_body (s : loop_state) : option loop_state :=
  match ready_indexes_queue s with
  | [] => None
  | curr_index :: queue =>
      curr ← processes_ s !! curr_index;
      s ← RR_after_sweep (RR_dispatch s curr_index curr queue);
      s ← RR_requeue curr_index s;
      RR_after_recover s
  end.

Definition RR_init (sorted : list Process) : loop_state :=
  Build_state sorted 0 [0%nat] 0 metrics_zero.

Definition RR_Start (S : ArrivalSort) (fuel : nat)
    (processes : list Process) : outcome run_result :=
  let processes_count_ := length processes in
  map_outcome (finish processes_count_)
    (while_loop (unfinished_remain processes_count_) RR_body fuel
       (RR_init (std_sort S processes))).
End RR.

(** *** The range of [int]

    The definitions above compute the times of a run on mathematical
    integers.  The source computes them in [int], where a result outside
    [INT_MIN .. INT_MAX] is undefined behaviour.  Every [int] result of a
    turn of the three loops is stored, in the clock or in a member of the
    process the turn works on, except the test [curr.rbt - quantum_ > 0] of
    the RR loop.  The engines below take the same turns and stop with
    undefined behaviour at the first turn one of whose [int] results is out
    of range. *)
Definition in_int (z : Z) : bool := (INT_MIN <=? z) && (z <=? INT_MAX).

(** Every [int] member of a process is within range. *)
Definition int_process (p : Process) : bool :=
  in_int (p_at p) && in_int (bt p) && in_int (st p) && in_int (ct p) &&
  in_int (tt p) && in_int (rt p) && in_int (wt p) && in_int (rbt p).

(** After a turn that wrote the process at index [written] (if any): the
    clock and that process are within range. *)
Definition int_turn (written : option nat) (s : loop_state) : bool :=
  in_int (time_passed s) &&
  match written with
  | Some i =>
      match processes_ s !! i with
      | Some p => int_process p
      | None => true
      end
  | None => true
  end.

(** [FCFSScheduler::Start], lines 64-81, with the range of [int]. *)
Definition FCFS_body_int
    (acc : option (list Process * ProcessAverageMetrics)) (i : nat)
    : option (list Process * ProcessAverageMetrics) :=
  acc ← acc;
  let acc := FCFS_body acc i in
  match acc.1 !! i with
  | Some process => if int_process process then Some acc else None
  | None => Some acc
  end.

Definition FCFS_Start_int (S : ArrivalSort) (processes : list Process)
    : outcome run_result :=
  let processes_count_ := length processes in
  let sorted := std_sort S processes in
  match foldl FCFS_body_int (Some (sorted, metrics_zero))
          (seq 0 processes_count_) with
  | Some (procs, m) =>
      Returned (Build_result (metrics_div m processes_count_) procs)
  | None => Undefined
  end.

(** [SJFScheduler::Start], lines 100-143, with the range of [int]. *)
Definition SJF_body_int (s : loop_state) : option loop_state :=
  let written := fst <$> SJF_select (processes_ s) (time_passed s) in
  let s := SJF_body s in
  if int_turn written s then Some s else None.

Definition SJF_Start_int (fuel : nat) (processes : list Process)
    : outcome run_result :=
  let processes_count_ := length processes in
  map_outcome (finish processes_count_)
    (while_loop (unfinished_remain processes_count_) SJF_body_int fuel
       (SJF_init processes)).

(** [RRScheduler::Start], lines 172-235, with the range of [int]. *)
Definition RR_body_int (quantum_ : Z) (s : loop_state)
    : option loop_state :=
  match ready_indexes_queue s with
  | [] => None
  | curr_index :: _ =>
      curr ← processes_ s !! curr_index;
      if in_int (rbt curr - quantum_) then
        s ← RR_body quantum_ s;
        if int_turn (Some curr_index) s then Some s else None
      else None
  end.

Definition RR_Start_int (quantum_ : Z) (S : ArrivalSort) (fuel : nat)
    (processes : list Process) : outcome run_result :=
  let processes_count_ := length processes in
  map_outcome (finish processes_count_)
    (while_loop (unfinished_remain processes_count_) (RR_body_int quantum_)
       fuel (RR_init (std_sort S processes))).

End ps.

(** ** [ParseFile]

    The file is its contents, or nothing when the stream cannot be opened.
    [std::getline] and [operator>>] belong to the C++ library; they are
    modelled after the standard (C++11 and later, the README asks for C++17):
    - [std::getline(stream, piece, delim)] succeeds as long as it extracts a
      character, the delimiter included, so a delimiter at the very end opens
      no further piece;
    - [stream >> n] for an [int] skips white space, and fails without writing
      [n] when nothing is left; otherwise it reads an optional sign and the
      decimal digits that follow, and writes [n] in every case: the number
      read, [0] with the fail bit when there is no digit, the nearest bound
      with the fail bit when the number is out of range. *)

(** The pieces [while (std::getline(stream, piece, delim))] goes through. *)
Fixpoint getline_pieces (delim : ascii) (s : string) (piece : string)
    (extracted : bool) : list string :=
  match s with
  | EmptyString => if extracted then [piece] else []
  | String c s' =>
      if Ascii.eqb c delim then
        piece :: getline_pieces delim s' EmptyString false
      else
        getline_pieces delim s' (piece ++ String c EmptyString)%string true
  end.

Definition getlines (delim : ascii) (s : string) : list string :=
  getline_pieces delim s EmptyString false.

Definition isspace (c : ascii) : bool :=
  let n := nat_of_ascii c in
  ((n =? 32) || ((9 <=? n) && (n <=? 13)))%nat.

Definition isdigit (c : ascii) : bool :=
  let n := nat_of_ascii c in
  ((48 <=? n) && (n <=? 57))%nat.

Definition digit_value (c : ascii) : Z := Z.of_nat (nat_of_ascii c) - 48.

Fixpoint skip_ws (s : string) : string :=
  match s with
  | EmptyString => EmptyString
  | String c s' => if isspace c then skip_ws s' else s
  end.

(** The value of the leading digits, and whether there is any. *)
Fixpoint leading_digits (s : string) (value : Z) (seen : bool) : Z * bool :=
  match s with
  | EmptyString => (value, seen)
  | String c s' =>
      if isdigit c then leading_digits s' (10 * value + digit_value c) true
      else (value, seen)
  end.

Inductive extraction : Type :=
| Written (value : Z) (fail : bool)
| NotWritten.

Definition extract_int (token : string) : extraction :=
  match skip_ws token with
  | EmptyString => NotWritten
  | String c s' =>
      let '(negative, digits) :=
        if Ascii.eqb c "-" then (true, s')
        else if Ascii.eqb c "+" then (false, s')
        else (false, String c s') in
      let '(value, seen) := leading_digits digits 0 false in
      if seen then
        let value := if negative then - value else value in
        if value <? INT_MIN then Written INT_MIN true
        else if INT_MAX <? value then Written INT_MAX true
        else Written value false
      else Written 0 true
  end.

(** The locals of [ParseFile] that live across lines, and what was written
    to [std::cerr]. *)
Record parse_state : Type := Build_parse_state {
  var_at : Z;
  var_bt : Z;
  result : list ps.Process;
  cerr : list string
}.

Definition bad_format (line : string) : string :=
  ("Bad formatted input: " ++ line)%string.

(** Body of the inner [while], for one token. *)
Definition parse_token (line : string) (acc : parse_state * nat)
    (token : string) : parse_state * nat :=
  let '(s, token_index) := acc in
  let '(a, b, fail) :=
    if (token_index =? 0)%nat then
      match extract_int token with
      | Written v f => (v, var_bt s, f)
      | NotWritten => (var_at s, var_bt s, true)
      end
    else if (token_index =? 1)%nat then
      match extract_int token with
      | Written v f => (var_at s, v, f)
      | NotWritten => (var_at s, var_bt s, true)
      end
    else (var_at s, var_bt s, false) in
  let cerr :=
    if (1 <? token_index)%nat || fail then cerr s ++ [bad_format line]
    else cerr s in
  (Build_parse_state a b (result s) cerr, S token_index).

(** Body of the outer [while], for one line. *)
Definition parse_line (s : parse_state) (line : string) : parse_state :=
  let '(s, _) := foldl (parse_token line) (s, 0%nat) (getlines " " line) in
  Build_parse_state (var_at s) (var_bt s)
    (result s ++ [ps.new_Process (var_at s) (var_bt s)]) (cerr s).

Definition parse_init : parse_state := Build_parse_state 0 0 [] [].

Definition newline : ascii := ascii_of_nat 10.

(** The processes returned, and the lines written to [std::cerr]. *)
Definition ParseFile (file : option string) : list ps.Process * list string :=
  match file with
  | None => ([], [])
  | Some contents =>
      let s := foldl parse_line parse_init (getlines newline contents) in
      (result s, cerr s)
  end.

(** ** [main] of the scheduling program

    What [main] writes and returns, given the command line and the state of
    the file named on it.  The library parts are parameters: the file name
    of a path ([std::filesystem::path::filename]) and the text of a [float]
    under [std::fixed], [std::setprecision(1)] and the decimal comma of
    [NumericSeparator].  [std::cin.get()] only waits and is left out; what is
    written before a loop that does not return is not kept. *)

Inductive file_status : Type :=
| Missing
| Unreadable
| Readable (contents : string).

Record program_output : Type := Build_output {
  stdout : list string;
  stderr : list string;
  exit_status : Z
}.

Definition EXIT_SUCCESS : Z := 0.
Definition EXIT_FAILURE : Z := 1.

Definition bind_outcome {A B : Type} (o : outcome A) (f : A -> outcome B)
    : outcome B :=
  match o with
  | Returned a => f a
  | OutOfFuel => OutOfFuel
  | Undefined => Undefined
  end.

Section Main.
Variable path_filename : string -> string.
Variable fixed1 : Float32.float -> string.
Variable S : ps.ArrivalSort.
Variable file_system : string -> file_status.

(** [name << " " << metrics.tt << " " << metrics.rt << " " << metrics.wt] *)
Definition metrics_line (name : string) (m : ps.ProcessAverageMetrics)
    : string :=
  (name ++ " " ++ fixed1 (ps.m_tt m) ++ " " ++ fixed1 (ps.m_rt m) ++ " " ++
   fixed1 (ps.m_wt m))%string.

(** The stream [ParseFile] opens on a file that exists. *)
Definition open_file (status : file_status) : option string :=
  match status with
  | Readable contents => Some contents
  | _ => None
  end.

Definition main (fuel : nat) (argv : list string) : outcome program_output :=
  match argv with
  | [] => Undefined
  | [program] =>
      Returned
        (Build_output
           [("Usage: " ++ path_filename program ++ " [processes file]")%string]
           [] EXIT_SUCCESS)
  | _ :: filepath :: _ =>
      match file_system filepath with
      | Missing =>
          Returned
            (Build_output [] [("File not found: " ++ filepath)%string]
               EXIT_FAILURE)
      | status =>
          let '(processes, errors) := ParseFile (open_file status) in
          match processes with
          | [] =>
              Returned
                (Build_output ["No process to schedule."%string] errors
                   EXIT_SUCCESS)
          | _ :: _ =>
              let fcfs := ps.FCFS_Start S processes in
              bind_outcome (ps.SJF_Start fuel processes) (fun sjf =>
              bind_outcome (ps.RR_Start 2 S fuel processes) (fun rr =>
              Returned
                (Build_output
                   [metrics_line "FCFS" (ps.averages fcfs);
                    metrics_line "SJF" (ps.averages sjf);
                    metrics_line "RR" (ps.averages rr)]
                   errors 0)))
          end
      end
  end.
End Main.

(** * The page replacement program

    Shallow embedding of [src/page-replacement-algorithms/main.cc].

    - [page] and [page_fault] are [unsigned int]: numbers in [N], and
      [faults++] wraps at 2^32.
    - [page_distance] is [std::size_t], in [N]; [frame_capacity], which is
      only compared with the size of the frame, is a [nat].
    - [std::deque<page>] and [std::vector<page>] are lists; the front of the
      deque is the head.  [pop_front] on an empty deque, and reading through
      the iterator [end()], are undefined behaviour: [None].
    - [std::unordered_map] is a [gmap]; the order in which it is gone through
      is left open by the C++ standard, and is a parameter. *)

Module page_replacement.

Definition page : Type := N.
Definition page_fault : Type := N.
Definition page_distance : Type := N.
Definition frame_capacity : Type := nat.

(** [faults++] on an [unsigned int] *)
Definition incr (faults : page_fault) : page_fault :=
  ((faults + 1) mod 2 ^ 32)%N.

(** [std::numeric_limits<page_distance>::max()] *)
Definition SIZE_MAX : page_distance := (2 ^ 64 - 1)%N.

(** [std::find(first, last, x)], as the distance from [first] to the
    iterator returned; [None] for [last]. *)
Fixpoint find (x : page) (l : list page) : option nat :=
  match l with
  | [] => None
  | y :: l' => if (y =? x)%N then Some 0%nat else S <$> find x l'
  end.

(** [frame.pop_front()] *)
Definition pop_front (frame : list page) : option (list page) :=
  match frame with
  | [] => None
  | _ :: frame' => Some frame'
  end.

(** [for (reference : references) body]: the body is given the references
    from the current one on, and the fault count and the frame. *)
Fixpoint for_each_reference
    (body : page -> list page -> page_fault * list page ->
            option (page_fault * list page))
    (references : list page) (state : page_fault * list page)
    : option (page_fault * list page) :=
  match references with
  | [] => Some state
  | reference :: rest =>
      state ← body reference rest state;
      for_each_reference body rest state
  end.

(** Lines 68-73 and 136-141: the page is not in the frame. *)
Definition load (capacity : frame_capacity) (reference : page)
    (state : page_fault * list page) : option (page_fault * list page) :=
  let '(faults, frame) := state in
  frame ←
    (if (capacity <=? length frame)%nat then pop_front frame else Some frame);
  Some (incr faults, frame ++ [reference]).

(** *** [fifo] *)

Definition fifo_body (capacity : frame_capacity) (reference : page)
    (rest : list page) (state : page_fault * list page)
    : option (page_fault * list page) :=
  match find reference state.2 with
  | Some _ => Some state
  | None => load capacity reference state
  end.

Definition fifo_run (capacity : frame_capacity) (references : list page)
    : option (page_fault * list page) :=
  for_each_reference (fifo_body capacity) references (0%N, []).

Definition fifo (capacity : frame_capacity) (references : list page)
    : option page_fault :=
  fst <$> fifo_run capacity references.

(** *** [lru] *)

Definition lru_body (capacity : frame_capacity) (reference : page)
    (rest : list page) (state : page_fault * list page)
    : option (page_fault * list page) :=
  match find reference state.2 with
  | Some page_it => Some (state.1, delete page_it state.2 ++ [reference])
  | None => load capacity reference state
  end.

Definition lru_run (capacity : frame_capacity) (references : list page)
    : option (page_fault * list page) :=
  for_each_reference (lru_body capacity) references (0%N, []).

Definition lru (capacity : frame_capacity) (references : list page)
    : option page_fault :=
  fst <$> lru_run capacity references.

(** *** [otm] *)

(** The order in which a [std::unordered_map] is gone through: some order of
    its entries. *)
Record MapOrder : Type := Build_MapOrder {
  iteration : gmap page page_distance -> list (page * page_distance);
  iteration_perm : forall m, iteration m ≡ₚ map_to_list m
}.

(** [kPageDistanceComparer] *)
Definition kPageDistanceComparer (lhs rhs : page * page_distance) : bool :=
  (lhs.2 <? rhs.2)%N.

(** [std::max_element(first, last, comp)]: the first element that none of
    the later ones is greater than; [None] for [last], on an empty range. *)
Definition max_element (comp : page * page_distance ->
                               page * page_distance -> bool)
    (l : list (page * page_distance)) : option (page * page_distance) :=
  match l with
  | [] => None
  | first :: l' =>
      Some (foldl (fun largest it => if comp largest it then it else largest)
              first l')
  end.

(** Lines 99-106: the distance from the current reference to the next
    reference to [page], the current reference being the head of
    [upcoming]. *)
Definition next_use (upcoming : list page) (page : page) : page_distance :=
  match find page upcoming with
  | Some end_index => N.of_nat end_index
  | None => SIZE_MAX
  end.

Definition otm_body (O : MapOrder) (capacity : frame_capacity)
    (reference : page) (rest : list page) (state : page_fault * list page)
    : option (page_fault * list page) :=
  let '(faults, frame) := state in
  match find reference frame with
  | Some _ => Some state
  | None =>
      if (length frame <? capacity)%nat then
        Some (incr faults, frame ++ [reference])
      else
        let page_distances : gmap page page_distance :=
          foldl (fun m page => <[page := next_use (reference :: rest) page]> m)
            ∅ frame in
        victim ←
          max_element kPageDistanceComparer (iteration O page_distances);
        page_index ← find victim.1 frame;
        Some (incr faults, <[page_index := reference]> frame)
  end.

Definition otm_run (O : MapOrder) (capacity : frame_capacity)
    (references : list page) : option (page_fault * list page) :=
  for_each_reference (otm_body O capacity) references (0%N, []).

Definition otm (O : MapOrder) (capacity : frame_capacity)
    (references : list page) : option page_fault :=
  fst <$> otm_run O capacity references.

(** *** [parse_input]

    [iss >> tmp_token] belongs to the C++ library: [read_unsigned] gives the
    number read from a line, or nothing when the extraction fails. *)

(** The double quote. *)
Definition quote : string := String (ascii_of_nat 34) EmptyString.

(** [std::to_string] of a [std::size_t] *)
Definition to_string (n : nat) : string :=
  DecimalString.NilZero.string_of_uint (Nat.to_uint n).

Record input_state : Type := Build_input_state {
  frame_capacity_ : frame_capacity;
  page_references : list page;
  line_count : nat;
  input_cerr : list string
}.

(** What is written to [std::cerr] for a line that is not read as a
    number. *)
Definition not_a_number (line_count : nat) (line : string) : string :=
  ("[LINE " ++ to_string line_count ++ "] " ++ quote ++ line ++ quote ++
   " can't be interpreted as a valid number." ++
   String newline EmptyString)%string.

Section ParseInput.
Variable read_unsigned : string -> option N.

(** Body of the [while] loop, for one line. *)
Definition parse_input_line (s : input_state) (line : string) : input_state :=
  match read_unsigned line with
  | None =>
      Build_input_state (frame_capacity_ s) (page_references s) (line_count s)
        (input_cerr s ++ [not_a_number (line_count s) line])
  | Some tmp_token =>
      if (line_count s =? 0)%nat then
        Build_input_state (N.to_nat tmp_token) (page_references s)
          (S (line_count s)) (input_cerr s)
      else
        Build_input_state (frame_capacity_ s)
          (page_references s ++ [tmp_token]) (S (line_count s)) (input_cerr s)
  end.

(** The [virtual_memory] returned, if any, and what is written to
    [std::cerr]. *)
Definition parse_input (filepath : string) (status : file_status)
    : option (frame_capacity * list page) * list string :=
  match status with
  | Missing =>
      (None, [("[FILE NOT FOUND] " ++ quote ++ filepath ++ quote)%string])
  | Unreadable =>
      (None, [("[UNABLE TO READ] " ++ quote ++ filepath ++ quote)%string])
  | Readable contents =>
      let s :=
        foldl parse_input_line (Build_input_state 0%nat [] 0%nat [])
          (getlines newline contents) in
      (Some (frame_capacity_ s, page_references s), input_cerr s)
  end.
End ParseInput.

(** *** [main]

    The outcome of the program for a command line: nothing when its
    behaviour is undefined.  [std::cin.get()] only waits and is left out. *)

(** [operator<<] of an [unsigned int] *)
Definition show (n : page_fault) : string :=
  DecimalString.NilZero.string_of_uint (N.to_uint n).

Section Main.
Variable read_unsigned : string -> option N.
Variable O : MapOrder.
Variable file_system : string -> file_status.

Definition main (argv : list string) : option program_output :=
  match argv with
  | [] => None
  | [program] =>
      Some
        (Build_output [] [("Usage: " ++ program ++ " <file>")%string]
           EXIT_FAILURE)
  | _ :: filepath :: _ =>
      match parse_input read_unsigned filepath (file_system filepath) with
      | (None, errors) =>
          Some
            (Build_output []
               (errors ++
                  [("Parsing failed!" ++ String newline EmptyString)%string])
               EXIT_FAILURE)
      | (Some (frame_capacity, page_references), errors) =>
          fifo_faults ← fifo frame_capacity page_references;
          otm_faults ← otm O frame_capacity page_references;
          lru_faults ← lru frame_capacity page_references;
          Some
            (Build_output
               [("FIFO " ++ show fifo_faults)%string;
                ("OTM " ++ show otm_faults)%string;
                ("LRU " ++ show lru_faults)%string]
               errors EXIT_SUCCESS)
      end
  end.
End Main.

End page_replacement.

(** * Vocabulary of the properties *)

Import ps.

(** The input of the README, as [ParseFile] builds it. *)
Definition readme_input : list Process :=
  [new_Process 0 20; new_Process 0 10; new_Process 4 6; new_Process 4 8].

(** [st] and [ct] of every process, in the order of the engine's vector. *)
Definition schedule (r : run_result) : list (Z * Z) :=
  map (fun p => (st p, ct p)) (final_processes r).

(** A process that may be dispatched at clock [time]. *)
Definition eligible (time : Z) (p : Process) : Prop :=
  finished p = false /\ p_at p <= time.

(** [q] is preferred to [p]: shorter burst, or the same burst and an arrival
    that is not later. *)
Definition preferred (q p : Process) : Prop :=
  bt q < bt p \/ (bt q = bt p /\ p_at q <= p_at p).

(** What the scan knows after the processes of [pre]. *)
Definition scan_ok (time : Z) (pre : list Process)
    (acc : Z * option (nat * Process)) : Prop :=
  match acc.2 with
  | None =>
      acc.1 = INT_MAX /\
      forall p, p ∈ pre -> eligible time p -> INT_MAX <= bt p
  | Some (j, q) =>
      pre !! j = Some q /\ eligible time q /\ acc.1 = bt q /\
      forall p, p ∈ pre -> eligible time p -> preferred q p
  end.

(** The float sum the engines accumulate for one metric, in vector order. *)
Definition float_sum (f : Process -> Z) (l : list Process) : Float32.float :=
  foldl (fun acc p => Float32.add acc (Float32.of_Z (f p))) Float32.zero l.

(** What one pass of the FCFS loop makes of a process, [prev] being the
    completion time of the process before it. *)
Definition FCFS_process (prev : option Z) (p : Process) : Process :=
  let p :=
    set_st (match prev with
            | None => p_at p
            | Some c => Z.max (p_at p) c
            end) p in
  derive (set_ct (st p + bt p) p).

Fixpoint FCFS_pass (prev : option Z) (l : list Process) : list Process :=
  match l with
  | [] => []
  | p :: l' =>
      let p' := FCFS_process prev p in p' :: FCFS_pass (Some (ct p')) l'
  end.

Definition arrived_at (t : Z) (p : Process) : Prop := p_at p = t.

#[local] Instance arrived_at_dec t p : Decision (arrived_at t p).
Proof. unfold arrived_at. apply _. Defined.

(** The sort leaves the processes of each arrival time in the order they have
    in [l]. *)
Definition keeps_tie_order (S : ArrivalSort) (l : list Process) : Prop :=
  forall t, filter (arrived_at t) (std_sort S l) = filter (arrived_at t) l.

(** The test of the arrival sweep. *)
Definition arrived (time : Z) (p : Process) : bool :=
  negb (queued p || finished p) && (p_at p <=? time).

Definition sweep_process (time : Z) (p : Process) : Process :=
  if arrived time p then set_queued true p else p.

(** The indexes the sweep pushes, [i] being the index of the head of [l]. *)
Fixpoint arrivals (time : Z) (i : nat) (l : list Process) : list nat :=
  match l with
  | [] => []
  | p :: l' =>
      if arrived time p then i :: arrivals time (S i) l'
      else arrivals time (S i) l'
  end.

(** The same indexes, read off the whole vector. *)
Definition arrival_indexes (time : Z) (procs : list Process) : list nat :=
  List.filter
    (fun j => match procs !! j with
              | Some p => arrived time p
              | None => false
              end)
    (seq 1 (length procs - 1)).

(** The vector after the sweep: the flag is set on the processes, from index
    1 on, that pass the test. *)
Definition sweep_at (time : Z) (j : nat) (p : Process) : Process :=
  if (1 <=? j)%nat then sweep_process time p else p.

(** A state of the engine with quantum 2: (5,3) has run one slice, (20,3)
    has not arrived, the queue holds index 0 only. *)
Definition gap_state : loop_state :=
  Build_state [set_rbt 1 (set_st 5 (new_Process 5 3)); new_Process 20 3] 7
    [0%nat] 0 metrics_zero.

(** A state that no run reaches: index 0 is unfinished and out of the
    queue, index 1 is one unit from completion. *)
Definition skip_state : loop_state :=
  Build_state [new_Process 0 5; set_queued true (set_rbt 1 (new_Process 1 3))]
    3 [1%nat] 0 metrics_zero.

(** The clock at which the slice of [curr] starts, [curr] after the
    first-dispatch bookkeeping, and [curr] after a slice that does not, or
    does, finish it. *)
Definition slice_start (time : Z) (curr : Process) : Z :=
  if rbt curr =? bt curr then Z.max time (p_at curr) else time.

Definition first_dispatch (time : Z) (curr : Process) : Process :=
  if rbt curr =? bt curr then set_st (Z.max time (p_at curr)) curr else curr.

Definition preempted (quantum time : Z) (curr : Process) : Process :=
  set_rbt (rbt curr - quantum) (first_dispatch time curr).

Definition completing (time : Z) (curr : Process) : Process :=
  derive (set_ct (slice_start time curr + rbt curr) (first_dispatch time curr)).

Definition completed (time : Z) (curr : Process) : Process :=
  set_finished true (set_rbt 0 (completing time curr)).

(** The state of a dispatch step after the slice, the arrival sweep and the
    re-enqueue, before the test for an empty queue. *)
Definition RR_before_recover (s1 : loop_state) (c : nat) (curr1 : Process)
    : loop_state :=
  Build_state (imap (sweep_at (time_passed s1)) (processes_ s1))
    (time_passed s1)
    (ready_indexes_queue s1 ++
       arrival_indexes (time_passed s1) (processes_ s1) ++
       (if finished curr1 then [] else [c]))
    (finished_count s1) (metrics s1).

Definition sum_by (f : Process -> Z) (l : list Process) : Z :=
  foldr (fun p acc => f p + acc) 0 l.

Definition finished01 (p : Process) : Z := if finished p then 1 else 0.

(** A process as [ParseFile] builds it from a line within the documented
    ranges. *)
Definition well_formed (p : Process) : Prop :=
  p = new_Process (p_at p) (bt p) /\ 0 <= p_at p /\ 0 < bt p.

(** The derived fields agree with the times they are derived from. *)
Definition metrics_exact (p : Process) : Prop :=
  tt p = ct p - p_at p /\ rt p = st p - p_at p /\ wt p = tt p - bt p.

Definition max_arrival (l : list Process) : Z :=
  foldr (fun p acc => Z.max (p_at p) acc) 0 l.

(** What every turn of the SJF loop keeps true; [bound] is an upper bound on
    the arrival times. *)
Definition SJF_inv (n : nat) (bound : Z) (s : loop_state) : Prop :=
  length (processes_ s) = n /\
  Z.of_nat (finished_count s) = sum_by finished01 (processes_ s) /\
  Forall (fun p => finished p = true -> metrics_exact p) (processes_ s) /\
  Forall (fun p => p_at p <= bound) (processes_ s).

Definition SJF_measure (n : nat) (bound : Z) (s : loop_state) : nat :=
  (n - finished_count s) + Z.to_nat (bound - time_passed s).

(** What holds of each process at the head of the RR loop. *)
Definition proc_ok (p : Process) : Prop :=
  0 < bt p /\
  (finished p = true -> rbt p = 0 /\ metrics_exact p) /\
  (finished p = false -> 0 < rbt p <= bt p).

(** What holds of the RR state after the slice, the sweep and the
    re-enqueue. *)
Definition RR_pre_inv (s : loop_state) : Prop :=
  processes_ s <> [] /\
  (forall i, i ∈ ready_indexes_queue s ->
     exists p, processes_ s !! i = Some p /\ finished p = false /\
               (i = 0%nat \/ queued p = true)) /\
  NoDup (ready_indexes_queue s) /\
  (forall p, processes_ s !! 0%nat = Some p -> finished p = false ->
     0%nat ∈ ready_indexes_queue s) /\
  Z.of_nat (finished_count s) = sum_by finished01 (processes_ s) /\
  Forall proc_ok (processes_ s).

(** What holds at the head of the RR loop: an empty queue means that every
    process is finished. *)
Definition RR_inv (s : loop_state) : Prop :=
  RR_pre_inv s /\
  (ready_indexes_queue s = [] ->
   forall p, p ∈ processes_ s -> finished p = true).

Definition RR_loop_inv (n : nat) (s : loop_state) : Prop :=
  RR_inv s /\ length (processes_ s) = n.

(** What a field variable holds after a line, given the token for it: a
    missing token, or one on which the extraction is not attempted, leaves
    the variable as it was; any other token overwrites it. *)
Definition field_after (before : Z) (token : option string) : Z :=
  match token with
  | None => before
  | Some t =>
      match extract_int t with
      | Written v _ => v
      | NotWritten => before
      end
  end.

Definition line_fields (before : Z * Z) (line : string) : Z * Z :=
  let tokens := getlines " " line in
  (field_after before.1 (tokens !! 0%nat),
   field_after before.2 (tokens !! 1%nat)).

(** The two variables after each line of the file. *)
Fixpoint running_fields (before : Z * Z) (lines : list string)
    : list (Z * Z) :=
  match lines with
  | [] => []
  | line :: rest =>
      let now := line_fields before line in now :: running_fields now rest
  end.

Definition extraction_fails (e : extraction) : bool :=
  match e with
  | Written _ fail => fail
  | NotWritten => true
  end.

(** The token at index [k] of a line makes the line reported. *)
Definition reported (k : nat) (token : string) : bool :=
  (1 <? k)%nat || extraction_fails (extract_int token).

Fixpoint reports_from (k : nat) (tokens : list string) : nat :=
  match tokens with
  | [] => 0
  | t :: rest => ((if reported k t then 1 else 0) + reports_from (S k) rest)%nat
  end.

(** A line that the parser reports: more than two tokens, or a first or
    second token from which no [int] is read. *)
Definition malformed (line : string) : Prop :=
  let tokens := getlines " " line in
  (2 < length tokens)%nat \/
  exists k t, (k < 2)%nat /\ tokens !! k = Some t /\
              extraction_fails (extract_int t) = true.

(** A line of two tokens, each read as a number without failure. *)
Definition reads_as (line : string) (a b : Z) : Prop :=
  exists ta tb,
    getlines " " line = [ta; tb] /\
    extract_int ta = Written a false /\ extract_int tb = Written b false.

(** A token that is a number as a whole: an optional sign and digits. *)
Fixpoint all_digits (s : string) : bool :=
  match s with
  | EmptyString => true
  | String c s' => isdigit c && all_digits s'
  end.

Definition numeric (token : string) : bool :=
  match token with
  | EmptyString => false
  | String c s' =>
      if Ascii.eqb c "-" || Ascii.eqb c "+" then
        negb (String.eqb s' EmptyString) && all_digits s'
      else all_digits token
  end.

Definition nl : string := String newline EmptyString.

(** The decimal numeral of an integer: no leading zero, ["-"] in front of a
    negative one. *)
Definition decimal (z : Z) : string :=
  DecimalString.NilZero.string_of_int (Z.to_int z).

(** No character of [s] is [delim]. *)
Fixpoint free_of (delim : ascii) (s : string) : bool :=
  match s with
  | EmptyString => true
  | String c s' => negb (Ascii.eqb c delim) && free_of delim s'
  end.

(** Every character of [s] is a digit or ["-"]. *)
Fixpoint numeral_chars (s : string) : bool :=
  match s with
  | EmptyString => true
  | String c s' => (isdigit c || Ascii.eqb c "-") && numeral_chars s'
  end.

(** The line of the input format for arrival [ab.1] and burst [ab.2], and
    the file of a list of such pairs, one line each. *)
Definition process_line (ab : Z * Z) : string :=
  (decimal ab.1 ++ " " ++ decimal ab.2)%string.

Fixpoint process_file (l : list (Z * Z)) : string :=
  match l with
  | [] => EmptyString
  | ab :: l' => (process_line ab ++ nl ++ process_file l')%string
  end.

(** Two [int] values. *)
Definition int_pair (ab : Z * Z) : Prop :=
  INT_MIN <= ab.1 <= INT_MAX /\ INT_MIN <= ab.2 <= INT_MAX.

(** The part of a process that is input: arrival and burst time. *)
Definition identity (p : Process) : Z * Z := (p_at p, bt p).

(** [p'] is [p], but for the [queued] flag, which may have been set. *)
Definition only_queued (p p' : Process) : Prop :=
  p' = p \/ p' = set_queued true p.

(** What the SJF loop keeps true of the timeline: a finished process started
    at or after its arrival, ran for its burst and completed by the current
    clock; two finished processes did not run at the same time; no burst is
    negative. *)
Definition SJF_timeline (s : loop_state) : Prop :=
  (forall i p, processes_ s !! i = Some p -> finished p = true ->
     p_at p <= st p /\ ct p = st p + bt p /\ ct p <= time_passed s) /\
  (forall i j p q, i <> j ->
     processes_ s !! i = Some p -> processes_ s !! j = Some q ->
     finished p = true -> finished q = true ->
     ct p <= st q \/ ct q <= st p) /\
  Forall (fun p => 0 <= bt p) (processes_ s).

(** What the RR loop keeps true of a process at clock [time]: it has not
    been dispatched yet, or it started at or after its arrival and the time
    it has run since fits between its start and the clock; once finished, it
    completed no earlier than its start plus its burst. *)
Definition RR_timed (time : Z) (p : Process) : Prop :=
  (finished p = false /\ rbt p = bt p) \/
  (p_at p <= st p /\ st p + (bt p - rbt p) <= time /\
   (finished p = true -> st p + bt p <= ct p /\ ct p <= time)).

(** The result of an engine on no process at all: the division of 0 by 0. *)
Definition nan_result : run_result :=
  Build_result (Build_Metrics S754_nan S754_nan S754_nan) [].


(** Two processes with the same input and the same times. *)
Definition same_times (q p : Process) : Prop :=
  p_at p = p_at q /\ bt p = bt q /\ st p = st q /\ ct p = ct q /\
  tt p = tt q /\ rt p = rt q /\ wt p = wt q.

(** The clock of FCFS once the first [k] processes of [fcfs], its final
    vector, have run. *)
Definition clock_after (fcfs : list Process) (k : nat) : Z :=
  match k with
  | O => 0
  | S k' => from_option ct 0 (fcfs !! k')
  end.

(** The RR loop when every process completes in its first time slice: the
    first [k] processes have run as under FCFS, the next [j] are in the
    queue, in order, and the others have not been touched. *)
Definition RR_in_order_at (sorted : list Process) (k j i : nat) (p : Process)
    : Prop :=
  if (i <? k)%nat then
    finished p = true /\
    exists q, FCFS_pass None sorted !! i = Some q /\ same_times q p
  else
    (exists p0, sorted !! i = Some p0 /\ p_at p = p_at p0 /\ bt p = bt p0) /\
    rbt p = bt p /\ finished p = false /\
    if (i <? k + j)%nat then (1 <= i)%nat -> queued p = true
    else queued p = false.

Definition RR_in_order (sorted : list Process) (k j : nat) (s : loop_state)
    : Prop :=
  length (processes_ s) = length sorted /\
  finished_count s = k /\ ready_indexes_queue s = seq k j /\
  (k + j <= length sorted)%nat /\
  ((k < length sorted)%nat -> (1 <= j)%nat) /\
  (forall i p, processes_ s !! i = Some p -> RR_in_order_at sorted k j i p) /\
  time_passed s = clock_after (FCFS_pass None sorted) k /\
  metrics s = foldl metrics_add metrics_zero (take k (FCFS_pass None sorted)).

(** The state after [n] turns of [while (cond) body] from [s], when the loop
    takes that many turns and none of them is undefined. *)
Fixpoint turns {S : Type} (cond : S -> bool) (body : S -> option S)
    (n : nat) (s : S) : option S :=
  match n with
  | O => Some s
  | Datatypes.S n =>
      if cond s then s' ← body s; turns cond body n s' else None
  end.


(** Where a turn of the insertion sort puts [val] in a sorted range: after
    every element that is not larger. *)
Definition inserted (sorted : list Process) (val : Process)
    (result : list Process) : Prop :=
  exists l1 l2,
    sorted = l1 ++ l2 /\ result = l1 ++ val :: l2 /\
    Forall (fun x => p_at x <= p_at val) l1 /\
    Forall (fun x => p_at val < p_at x) l2.

(** Seventeen processes that all arrive at time 0, with bursts 1 to 17. *)
Definition equal_arrivals : list Process :=
  (fun i => new_Process 0 (Z.of_nat i)) <$> seq 1 17.

(** The latest arrival and all the bursts together fit in an [int]: no run
    can take the clock past [INT_MAX]. *)
Definition fits_int (l : list Process) : Prop :=
  max_arrival l + sum_by bt l <= INT_MAX.

(** The burst of a finished process, the part of its burst a process has
    had. *)
Definition finished_bt (p : Process) : Z := if finished p then bt p else 0.
Definition served (p : Process) : Z := bt p - rbt p.

(** What a run of the SJF loop keeps on an input that fits in [int]: the
    clock is at most the latest arrival plus the bursts of the finished
    processes. *)
Definition SJF_fits (s : loop_state) : Prop :=
  0 <= time_passed s /\
  time_passed s <=
    max_arrival (processes_ s) + sum_by finished_bt (processes_ s) /\
  fits_int (processes_ s) /\
  Forall (fun p => 0 <= p_at p /\ 0 < bt p < INT_MAX /\ rbt p = bt p)
    (processes_ s).

(** What a run of the RR loop keeps on an input that fits in [int]: the
    clock is at most the latest arrival plus the processor time given so
    far. *)
Definition RR_fits (s : loop_state) : Prop :=
  0 <= time_passed s <= INT_MAX /\
  time_passed s <= max_arrival (processes_ s) + sum_by served (processes_ s) /\
  fits_int (processes_ s) /\
  Forall (fun p => 0 <= p_at p /\ 0 <= st p <= INT_MAX /\
                   int_process p = true)
    (processes_ s).

(** ** Vocabulary of the page replacement properties *)

Module paging.
Import page_replacement.

(** The value of an [unsigned int] counter incremented [m] times from 0. *)
Definition wrapped (m : nat) : page_fault := (N.of_nat m mod 2 ^ 32)%N.

(** The set of the pages of a list, and the number of distinct pages. *)
Definition pages (l : list page) : gset page := list_to_set l.
Definition distinct (l : list page) : nat := size (pages l).

(** One reference under demand paging with [capacity] frames: a page that is
    resident stays so and nothing is loaded; a page that is not is loaded,
    at the cost of one resident page once the frame is full. *)
Inductive demand_step (capacity : nat) (reference : page) (frame : list page)
    : bool -> list page -> Prop :=
  | step_hit frame' :
      reference ∈ frame -> frame' ≡ₚ frame ->
      demand_step capacity reference frame false frame'
  | step_fill frame' :
      reference ∉ frame -> (length frame < capacity)%nat ->
      frame' ≡ₚ reference :: frame ->
      demand_step capacity reference frame true frame'
  | step_evict victim kept frame' :
      reference ∉ frame -> (capacity <= length frame)%nat ->
      frame ≡ₚ victim :: kept -> frame' ≡ₚ reference :: kept ->
      demand_step capacity reference frame true frame'.

(** A loop body that is a demand pager: from a frame without duplicates that
    respects the capacity it is defined, and counts one fault for each page
    it loads. *)
Definition demand_pager (capacity : nat)
    (body : page -> list page -> page_fault * list page ->
            option (page_fault * list page)) : Prop :=
  forall reference rest m frame,
    NoDup frame -> (length frame <= capacity)%nat ->
    exists fault frame',
      body reference rest (wrapped m, frame) =
        Some (wrapped (if fault : bool then S m else m), frame') /\
      demand_step capacity reference frame fault frame'.

(** The frame after the references [seen]. *)
Definition resident_ok (capacity : nat) (seen frame : list page) : Prop :=
  NoDup frame /\ pages frame ⊆ pages seen /\
  length frame = (capacity `min` distinct seen)%nat /\
  (forall r, last seen = Some r -> r ∈ frame).

(** The number of faults after the references [seen]. *)
Definition count_ok (capacity : nat) (seen : list page) (m : nat) : Prop :=
  (distinct seen <= m <= length seen)%nat /\
  ((distinct seen <= capacity)%nat -> m = distinct seen).

(** The result of an algorithm counts the faults of a demand pager; the
    result of its loop holds the frame of one. *)
Definition counted (capacity : nat) (refs : list page)
    (result : option page_fault) : Prop :=
  exists m, result = Some (wrapped m) /\ count_ok capacity refs m.

Definition holding (capacity : nat) (refs : list page)
    (result : option (page_fault * list page)) : Prop :=
  exists faults frame,
    result = Some (faults, frame) /\ resident_ok capacity refs frame.

(** Two frames of the same size that hold the same pages among those still
    to be referenced. *)
Definition same_needed (upcoming F1 F2 : list page) : Prop :=
  NoDup F1 /\ NoDup F2 /\ length F1 = length F2 /\
  forall p, p ∈ upcoming -> (p ∈ F1 <-> p ∈ F2).

(** [costs capacity F refs n]: there is a way for a demand pager with
    [capacity] frames, one choice of victim at each eviction, to take [n]
    faults on [refs] when it starts with the pages [F] resident. *)
Inductive costs (capacity : nat) : gset page -> list page -> nat -> Prop :=
  | costs_nil F : costs capacity F [] 0
  | costs_hit F r rest n :
      r ∈ F -> costs capacity F rest n -> costs capacity F (r :: rest) n
  | costs_fill F r rest n :
      r ∉ F -> (size F < capacity)%nat ->
      costs capacity ({[r]} ∪ F) rest n ->
      costs capacity F (r :: rest) (S n)
  | costs_evict F r rest n victim :
      r ∉ F -> (capacity <= size F)%nat -> victim ∈ F ->
      costs capacity ({[r]} ∪ F ∖ {[victim]}) rest n ->
      costs capacity F (r :: rest) (S n).

(** Page [a] is referenced no later than page [b]. *)
Definition sooner (upcoming : list page) (a b : page) : Prop :=
  forall i, upcoming !! i = Some b ->
    exists j, (j <= i)%nat /\ upcoming !! j = Some a.

(** Two orders of going through a map: by key, and backwards. *)
Definition key_order : MapOrder :=
  Build_MapOrder map_to_list (fun m => reflexivity _).

Definition reverse_key_order : MapOrder :=
  Build_MapOrder (fun m => reverse (map_to_list m))
    (fun m => reverse_Permutation _).

(** The references of the README's example, for 4 frames. *)
Definition readme_references : list page :=
  [1; 2; 3; 4; 1; 2; 5; 1; 2; 3; 4; 5]%N.

(** The numbers read from lines, in order; what [parse_input] has done
    after a list of lines. *)
Definition numbers (read_unsigned : string -> option N) (lines : list string)
    : list N :=
  omap read_unsigned lines.

Definition reported_line (read_unsigned : string -> option N)
    (lines : list string) (x : string) : Prop :=
  exists i line,
    lines !! i = Some line /\ read_unsigned line = None /\
    x = not_a_number (length (numbers read_unsigned (take i lines))) line.

Definition parsed (read_unsigned : string -> option N) (lines : list string)
    (s : input_state) : Prop :=
  frame_capacity_ s = N.to_nat (hd 0%N (numbers read_unsigned lines)) /\
  page_references s = tail (numbers read_unsigned lines) /\
  line_count s = length (numbers read_unsigned lines) /\
  forall x, x ∈ input_cerr s <-> reported_line read_unsigned lines x.

(** A file with the given lines, and the README's example as a file. *)
Fixpoint file_of_lines (lines : list string) : string :=
  match lines with
  | [] => EmptyString
  | line :: lines' =>
      (line ++ String newline EmptyString ++ file_of_lines lines')%string
  end.

Definition readme_file : string :=
  file_of_lines
    ["4"; "1"; "2"; "3"; "4"; "1"; "2"; "5"; "1"; "2"; "3"; "4"; "5"]%string.

(** A reader of numbers: what [operator>>] reads as an [int] that is not
    negative. *)
Definition read_nonnegative (line : string) : option N :=
  match extract_int line with
  | Written value false => if (0 <=? value)%Z then Some (Z.to_N value) else None
  | _ => None
  end.

(** The pages [fifo] loads, in the order of the references that load them: a
    reference causes a load when its page is not among the last [capacity]
    pages loaded before it. *)
Definition fifo_loads (capacity : nat) (refs : list page) : list page :=
  foldl (fun loads r =>
           if bool_decide (r ∈ drop (length loads - capacity) loads)
           then loads else loads ++ [r])
    [] refs.

End paging.

(** * Properties *)

(** ** The sort contract is inhabited, by a sort that keeps ties in input
    order *)

Section InsertionSort.
Variable before : Process -> Process -> bool.
Hypothesis before_true : forall x y, before x y = true -> at_le x y.
Hypothesis before_false : forall x y, before x y = false -> at_le y x.

Lemma insert_by_perm x l : insert_by before x l ≡ₚ x :: l.
Proof.
  induction l as [|y l IH]; simpl; [done|].
  destruct (before x y); [done|].
  rewrite IH. apply Permutation_swap.
Qed.

Lemma insert_by_sorted x l :
  StronglySorted at_le l -> StronglySorted at_le (insert_by before x l).
Proof.
  induction 1 as [|y l Hl IH Hy]; simpl.
  - repeat constructor.
  - destruct (before x y) eqn:Hxy.
    + apply before_true in Hxy.
      constructor; [by constructor|].
      constructor; [done|].
      eapply Forall_impl; [exact Hy|].
      unfold at_le in *; simpl; intros; lia.
    + apply before_false in Hxy.
      constructor; [done|].
      rewrite insert_by_perm. by constructor.
Qed.

Lemma insertion_sort_perm l : insertion_sort before l ≡ₚ l.
Proof.
  induction l as [|x l IH]; simpl; [done|].
  fold (insertion_sort before l). by rewrite insert_by_perm, IH.
Qed.

Lemma insertion_sort_sorted l : StronglySorted at_le (insertion_sort before l).
Proof.
  induction l as [|x l IH]; simpl; [constructor|].
  by apply insert_by_sorted.
Qed.
End InsertionSort.

Lemma insert_before_ties_true x y : insert_before_ties x y = true -> at_le x y.
Proof. unfold insert_before_ties, at_le. lia. Qed.
Lemma insert_before_ties_false x y :
  insert_before_ties x y = false -> at_le y x.
Proof. unfold insert_before_ties, at_le. lia. Qed.

(** A sort that keeps processes of equal arrival time in input order. *)
Definition stable_sort : ArrivalSort :=
  Build_ArrivalSort (insertion_sort insert_before_ties)
    (insertion_sort_perm _)
    (insertion_sort_sorted _ insert_before_ties_true insert_before_ties_false).

(** ** [std::sort] of libstdc++: the final insertion sort *)

Section Libstdcxx.
Import libstdcxx.

Lemma unguarded_linear_insert_spec val before :
  exists l2 rest,
    before = l2 ++ rest /\
    unguarded_linear_insert val before = l2 ++ val :: rest /\
    Forall (fun x => p_at val < p_at x) l2 /\
    (forall y, head rest = Some y -> p_at y <= p_at val).
Proof.
  induction before as [|next before IH]; simpl.
  - exists [], []. by split_and!.
  - unfold comparer at 1. destruct (p_at val <? p_at next) eqn:Hlt.
    + destruct IH as (l2 & rest & -> & -> & Hl2 & Hrest).
      exists (next :: l2), rest. split_and!; try done.
      constructor; [lia|done].
    + exists [], (next :: before). split_and!; try done.
      intros y [= <-]. lia.
Qed.

Lemma linear_insert_inserted sorted val :
  StronglySorted at_le sorted ->
  inserted sorted val (reverse (unguarded_linear_insert val (reverse sorted))).
Proof.
  intros Hs.
  destruct (unguarded_linear_insert_spec val (reverse sorted))
    as (l2 & rest & Hrev & -> & Hl2 & Hrest).
  apply (f_equal reverse) in Hrev.
  rewrite reverse_involutive, reverse_app in Hrev.
  exists (reverse rest), (reverse l2). split_and!.
  - done.
  - by rewrite reverse_app, reverse_cons, <- app_assoc.
  - subst sorted. apply StronglySorted_app in Hs as (Hle & Hs1 & _).
    destruct rest as [|y rest]; [constructor|].
    specialize (Hrest y eq_refl). rewrite reverse_cons in *.
    apply Forall_app. split; [|by repeat constructor].
    apply StronglySorted_app in Hs1 as (Hle1 & _ & _).
    apply Forall_forall. intros x Hx.
    specialize (Hle1 x y Hx ltac:(by left)). unfold at_le in Hle1. lia.
  - by apply Forall_reverse.
Qed.

Lemma insertion_sort_turn_inserted sorted val :
  StronglySorted at_le sorted ->
  inserted sorted val (insertion_sort_turn sorted val).
Proof.
  intros Hs. unfold insertion_sort_turn.
  destruct sorted as [|first sorted]; [by exists [], []|].
  unfold comparer at 1. destruct (p_at val <? p_at first) eqn:Hlt.
  - exists [], (first :: sorted). split_and!; try done.
    apply StronglySorted_cons in Hs as [Hle _].
    constructor; [lia|].
    eapply Forall_impl; [exact Hle|]. unfold at_le. intros x ?. lia.
  - by apply linear_insert_inserted.
Qed.

Lemma inserted_perm sorted val result :
  inserted sorted val result -> result ≡ₚ sorted ++ [val].
Proof.
  intros (l1 & l2 & -> & -> & _).
  rewrite <- app_assoc. f_equiv. by rewrite Permutation_app_comm.
Qed.

Lemma inserted_sorted sorted val result :
  StronglySorted at_le sorted -> inserted sorted val result ->
  StronglySorted at_le result.
Proof.
  intros Hs (l1 & l2 & -> & -> & Hl1 & Hl2).
  apply StronglySorted_app in Hs as (Hle & Hs1 & Hs2).
  apply StronglySorted_app. split_and!; [|done|].
  - intros x y Hx [->|Hy]%elem_of_cons.
    + rewrite Forall_forall in Hl1. by apply Hl1.
    + by apply Hle.
  - constructor; [done|].
    eapply Forall_impl; [exact Hl2|]. unfold at_le. intros x ?. lia.
Qed.

Lemma inserted_filter t sorted val result :
  inserted sorted val result ->
  filter (arrived_at t) result = filter (arrived_at t) (sorted ++ [val]).
Proof.
  intros (l1 & l2 & -> & -> & _ & Hl2).
  rewrite !filter_app, filter_cons, <- app_assoc. f_equal.
  rewrite (filter_cons _ val []), filter_nil.
  destruct (decide (arrived_at t val)) as [Ht|Ht].
  - assert (filter (arrived_at t) l2 = []) as ->; [|done].
    unfold arrived_at in Ht.
    clear -Hl2 Ht. induction Hl2 as [|x l2 Hx _ IH]; [done|].
    rewrite filter_cons, IH.
    destruct (decide (arrived_at t x)) as [Hx'|]; [|done].
    unfold arrived_at in Hx'. lia.
  - by rewrite app_nil_r.
Qed.

(** A run of turns, guarded or not, from a sorted range. *)
Lemma insertion_turns (turn : list Process -> Process -> list Process)
    (range : list Process) :
  (forall sorted val, StronglySorted at_le sorted ->
     inserted sorted val (turn sorted val)) ->
  forall sorted, StronglySorted at_le sorted ->
  StronglySorted at_le (foldl turn sorted range) /\
  foldl turn sorted range ≡ₚ sorted ++ range /\
  forall t, filter (arrived_at t) (foldl turn sorted range) =
            filter (arrived_at t) (sorted ++ range).
Proof.
  intros Hturn. induction range as [|val range IH]; intros sorted Hs; simpl.
  - rewrite app_nil_r. by split_and!.
  - pose proof (Hturn sorted val Hs) as Hins.
    destruct (IH (turn sorted val)) as (Hs' & Hp & Hf).
    { by eapply inserted_sorted. }
    split_and!; [done| |].
    + rewrite Hp, (inserted_perm _ _ _ Hins). by rewrite <- app_assoc.
    + intros t. rewrite Hf, !filter_app, (inserted_filter t _ _ _ Hins).
      rewrite filter_app, <- app_assoc. f_equal.
      by rewrite <- filter_app.
Qed.

Lemma libstdcxx_insertion_sort_spec range :
  StronglySorted at_le (insertion_sort range) /\
  insertion_sort range ≡ₚ range /\
  forall t, filter (arrived_at t) (insertion_sort range) =
            filter (arrived_at t) range.
Proof.
  destruct range as [|first rest]; simpl; [by split_and!; [constructor|..]|].
  apply (insertion_turns insertion_sort_turn rest
           insertion_sort_turn_inserted [first]).
  by repeat constructor.
Qed.

Lemma final_insertion_sort_spec v :
  StronglySorted at_le (final_insertion_sort v) /\
  final_insertion_sort v ≡ₚ v /\
  forall t, filter (arrived_at t) (final_insertion_sort v) =
            filter (arrived_at t) v.
Proof.
  unfold final_insertion_sort.
  destruct (S_threshold <? length v)%nat;
    [|apply libstdcxx_insertion_sort_spec].
  destruct (libstdcxx_insertion_sort_spec (take S_threshold v))
    as (Hs & Hp & Hf).
  destruct (insertion_turns
              (fun sorted val =>
                 reverse (unguarded_linear_insert val (reverse sorted)))
              (drop S_threshold v) linear_insert_inserted _ Hs)
    as (Hs' & Hp' & Hf').
  unfold unguarded_insertion_sort. split_and!; [done| |].
  - by rewrite Hp', Hp, take_drop.
  - intros t. rewrite Hf', !filter_app, Hf, <- filter_app.
    by rewrite take_drop.
Qed.

(** ** [std::sort] of libstdc++: the introsort loop permutes the vector *)

Lemma iter_swap_perm a b v : iter_swap a b v ≡ₚ v.
Proof.
  unfold iter_swap.
  destruct (v !! a) as [x|] eqn:Ha; [|done].
  destruct (v !! b) as [y|] eqn:Hb; [|done].
  by apply Permutation_insert_swap.
Qed.

Lemma move_median_to_first_perm result a b c v :
  move_median_to_first result a b c v ≡ₚ v.
Proof.
  unfold move_median_to_first.
  repeat match goal with |- context [if ?t then _ else _] => destruct t end;
    apply iter_swap_perm.
Qed.

Lemma forward_le v pivot fuel : forall first,
  (first <= length v)%nat -> (forward v pivot fuel first <= length v)%nat.
Proof.
  induction fuel as [|fuel IH]; intros first Hf; simpl; [done|].
  unfold comp.
  destruct (v !! first) as [x|] eqn:Hx; [|done].
  destruct (v !! pivot) as [y|]; [|done].
  destruct (comparer x y); [|done].
  apply IH. by apply lookup_lt_Some in Hx.
Qed.

Lemma backward_le v pivot last : (backward v pivot last <= last)%nat.
Proof.
  induction last as [|last IH]; simpl; [done|].
  destruct (comp v pivot (S last)); lia.
Qed.

Lemma unguarded_partition_spec fuel pivot : forall first last v,
  (first <= length v)%nat -> (last <= length v)%nat ->
  (unguarded_partition fuel first last pivot v).2 ≡ₚ v /\
  ((unguarded_partition fuel first last pivot v).1 <= length v)%nat.
Proof.
  induction fuel as [|fuel IH]; intros first last v Hf Hl; simpl; [done|].
  pose proof (forward_le v pivot (length v) first Hf) as Hf'.
  pose proof (backward_le v pivot (last - 1)) as Hl'.
  destruct (forward v pivot (length v) first <?
            backward v pivot (last - 1))%nat eqn:Hlt; simpl; [|done].
  apply Nat.ltb_lt in Hlt.
  pose proof (iter_swap_perm (forward v pivot (length v) first)
                (backward v pivot (last - 1)) v) as Hp.
  destruct (IH (S (forward v pivot (length v) first))
              (backward v pivot (last - 1))
              (iter_swap (forward v pivot (length v) first)
                 (backward v pivot (last - 1)) v)) as [Hp' Hc].
  - rewrite (Permutation_length Hp). lia.
  - rewrite (Permutation_length Hp). lia.
  - rewrite (Permutation_length Hp) in Hc. split; [by rewrite Hp'|done].
Qed.

Lemma unguarded_partition_pivot_spec first last v :
  (first < last)%nat -> (last <= length v)%nat ->
  (unguarded_partition_pivot first last v).2 ≡ₚ v /\
  ((unguarded_partition_pivot first last v).1 <= length v)%nat.
Proof.
  intros Hfl Hl. unfold unguarded_partition_pivot.
  pose proof (move_median_to_first_perm first (first + 1)
                (first + (last - first) / 2) (last - 1) v) as Hp.
  set (v1 := move_median_to_first first (first + 1)
               (first + (last - first) / 2) (last - 1) v) in *.
  pose proof (Permutation_length Hp) as Hlen.
  destruct (unguarded_partition_spec (length v1) first (first + 1) last v1)
    as [Hp' Hc]; [lia..|].
  split; [by rewrite Hp'|lia].
Qed.

(** Moving an element into the hole leaves the hole where the element
    was. *)
Lemma move_hole (v : list Process) (hole from : nat) (value : Process) :
  (hole < length v)%nat -> (from < length v)%nat ->
  <[from := value]> (move from hole v) ≡ₚ <[hole := value]> v.
Proof.
  intros Hh Hf. unfold move.
  destruct (lookup_lt_is_Some_2 v from Hf) as [x Hx]. rewrite Hx.
  destruct (decide (hole = from)) as [->|Hne].
  - by rewrite list_insert_insert_eq.
  - rewrite <- (list_insert_insert_eq v hole x value).
    apply Permutation_insert_swap.
    + by apply list_lookup_insert_eq.
    + by rewrite list_lookup_insert_ne.
Qed.

Lemma length_move from to v : length (move from to v) = length v.
Proof. unfold move. destruct (v !! from); [apply length_insert|done]. Qed.

Lemma push_heap_perm fuel first topIndex value : forall holeIndex v,
  (first + holeIndex < length v)%nat ->
  push_heap fuel first holeIndex topIndex value v ≡ₚ
    <[(first + holeIndex)%nat := value]> v.
Proof.
  induction fuel as [|fuel IH]; intros holeIndex v Hh; cbn [push_heap];
    cbn zeta; [done|].
  destruct (topIndex <? holeIndex)%nat eqn:Htop; cbn [andb]; [|done].
  destruct (v !! (first + (holeIndex - 1) / 2)%nat) as [x|] eqn:Hx; [|done].
  destruct (comparer x value); [|done].
  assert ((holeIndex - 1) / 2 <= holeIndex)%nat as Hpar.
  { transitivity (holeIndex - 1)%nat; [|lia].
    apply Nat.Div0.div_le_upper_bound. lia. }
  rewrite IH by (rewrite length_move; lia).
  apply move_hole; lia.
Qed.

Lemma adjust_heap_loop_perm fuel first len value : forall holeIndex v,
  (first + len <= length v)%nat -> (holeIndex < len)%nat ->
  let '(holeIndex', secondChild', v') :=
    adjust_heap_loop fuel first holeIndex holeIndex len v in
  <[(first + holeIndex')%nat := value]> v' ≡ₚ
    <[(first + holeIndex)%nat := value]> v /\
  (holeIndex' < len)%nat /\ secondChild' = holeIndex' /\
  length v' = length v.
Proof.
  induction fuel as [|fuel IH]; intros holeIndex v Hlen Hh;
    cbn [adjust_heap_loop]; [by split_and!|].
  destruct (holeIndex <? (len - 1) / 2)%nat eqn:Hlt; [|by split_and!].
  cbn zeta.
  apply Nat.ltb_lt in Hlt.
  assert (2 * (holeIndex + 1) <= len - 1)%nat as Hchild.
  { assert (2 * ((len - 1) / 2) <= len - 1)%nat
      by (apply Nat.Div0.mul_div_le). lia. }
  set (child := if comp v (first + 2 * (holeIndex + 1))
                     (first + (2 * (holeIndex + 1) - 1))
                then (2 * (holeIndex + 1) - 1)%nat
                else (2 * (holeIndex + 1))%nat).
  assert (child < len)%nat as Hc by (unfold child; destruct (comp _ _ _); lia).
  specialize (IH child (move (first + child) (first + holeIndex) v)).
  rewrite length_move in IH. specialize (IH Hlen Hc).
  destruct (adjust_heap_loop fuel first child child len _)
    as [[holeIndex' secondChild'] v'].
  destruct IH as (Hp & Hh' & Hs' & Hl'). split_and!; try done.
  rewrite Hp. apply move_hole; lia.
Qed.

Lemma adjust_heap_perm first holeIndex len value v :
  (first + len <= length v)%nat -> (holeIndex < len)%nat ->
  adjust_heap first holeIndex len value v ≡ₚ
    <[(first + holeIndex)%nat := value]> v.
Proof.
  intros Hlen Hh. unfold adjust_heap.
  pose proof (adjust_heap_loop_perm len first len value holeIndex v Hlen Hh)
    as Hloop.
  destruct (adjust_heap_loop len first holeIndex holeIndex len v)
    as [[holeIndex' secondChild'] v'].
  destruct Hloop as (Hp & Hh' & -> & Hl').
  destruct (Nat.even len && (holeIndex' =? (len - 2) / 2)%nat) eqn:Heven.
  - apply andb_true_iff in Heven as [Heven Heq].
    apply Nat.eqb_eq in Heq. apply Nat.even_spec in Heven as [k Hk].
    assert (2 * (holeIndex' + 1) - 1 = len - 1)%nat as Hlast.
    { subst len. replace (2 * k - 2)%nat with ((k - 1) * 2)%nat in Heq
        by lia.
      rewrite Nat.div_mul in Heq by done. lia. }
    rewrite Hlast.
    rewrite push_heap_perm by (rewrite length_move; lia).
    rewrite <- Hp. apply move_hole; lia.
  - rewrite push_heap_perm by lia. done.
Qed.

Lemma pop_heap_perm first len v :
  (1 <= len)%nat -> (first + len < length v)%nat ->
  pop_heap first (first + len) (first + len) v ≡ₚ v.
Proof.
  intros Hlen Hv. unfold pop_heap.
  destruct (v !! (first + len)%nat) as [value|] eqn:Hvalue; [|done].
  replace (first + len - first)%nat with len by lia.
  rewrite adjust_heap_perm by (rewrite ?length_move; lia).
  rewrite Nat.add_0_r. unfold move.
  destruct (lookup_lt_is_Some_2 v first ltac:(lia)) as [x Hx]. rewrite Hx.
  by apply Permutation_insert_swap.
Qed.

Lemma make_heap_loop_perm first len : forall parent v,
  (first + len <= length v)%nat -> (parent < len)%nat ->
  make_heap_loop first len parent v ≡ₚ v.
Proof.
  induction parent as [|parent IH]; intros v Hlen Hp; simpl.
  - destruct (v !! (first + 0)%nat) as [value|] eqn:Hvalue; [|done].
    rewrite adjust_heap_perm by done. by rewrite list_insert_id.
  - destruct (v !! (first + S parent)%nat) as [value|] eqn:Hvalue.
    + assert (adjust_heap first (S parent) len value v ≡ₚ v) as Hadj.
      { rewrite adjust_heap_perm by done. by rewrite list_insert_id. }
      rewrite IH; [done| |lia]. by rewrite (Permutation_length Hadj).
    + apply IH; [done|lia].
Qed.

Lemma make_heap_perm first last v :
  (first <= length v)%nat -> (last <= length v)%nat ->
  make_heap first last v ≡ₚ v.
Proof.
  intros Hf Hl. unfold make_heap.
  destruct (last - first <? 2)%nat eqn:Hlt; [done|].
  apply Nat.ltb_ge in Hlt.
  apply make_heap_loop_perm; [lia|].
  assert ((last - first - 2) / 2 <= last - first - 2)%nat
    by (apply Nat.Div0.div_le_upper_bound; lia).
  lia.
Qed.

Lemma sort_heap_perm first : forall len v,
  (first + len <= length v)%nat -> sort_heap first len v ≡ₚ v.
Proof.
  induction len as [|len IH]; intros v Hlen; [done|].
  change (sort_heap first (S len) v)
    with (if (1 <? S len)%nat
          then sort_heap first len
                 (pop_heap first (first + len) (first + len) v)
          else v).
  destruct (1 <? S len)%nat eqn:Hlt; [|done].
  apply Nat.ltb_lt in Hlt.
  assert (pop_heap first (first + len) (first + len) v ≡ₚ v) as Hpop
    by (apply pop_heap_perm; lia).
  rewrite IH; [done|]. rewrite (Permutation_length Hpop). lia.
Qed.

Lemma partial_sort_perm first last v :
  (first <= length v)%nat -> (last <= length v)%nat ->
  partial_sort first last v ≡ₚ v.
Proof.
  intros Hf Hl. unfold partial_sort.
  pose proof (make_heap_perm first last v Hf Hl) as Hmake.
  rewrite sort_heap_perm; [done|].
  rewrite (Permutation_length Hmake). lia.
Qed.

Lemma introsort_loop_perm depth_limit : forall first last v,
  (first <= length v)%nat -> (last <= length v)%nat ->
  introsort_loop depth_limit first last v ≡ₚ v.
Proof.
  induction depth_limit as [|depth_limit IH]; intros first last v Hf Hl;
    simpl; destruct (S_threshold <? last - first)%nat eqn:Hlt; try done.
  - by apply partial_sort_perm.
  - apply Nat.ltb_lt in Hlt. unfold S_threshold in Hlt.
    destruct (unguarded_partition_pivot_spec first last v) as [Hp Hc];
      [lia|done|].
    destruct (unguarded_partition_pivot first last v) as [cut v1].
    simpl in Hp, Hc.
    assert (introsort_loop depth_limit cut last v1 ≡ₚ v1) as Hp2.
    { apply IH; rewrite (Permutation_length Hp); done. }
    rewrite IH; [by rewrite Hp2| |].
    + rewrite (Permutation_length Hp2), (Permutation_length Hp). done.
    + rewrite (Permutation_length Hp2), (Permutation_length Hp). done.
Qed.

Lemma libstdcxx_sort_perm v : sort v ≡ₚ v.
Proof.
  unfold sort. destruct v as [|p v]; [done|].
  destruct (final_insertion_sort_spec
              (introsort_loop (Nat.log2 (length (p :: v)) * 2) 0
                 (length (p :: v)) (p :: v))) as (_ & -> & _).
  apply introsort_loop_perm; lia.
Qed.

Lemma libstdcxx_sort_sorted v : StronglySorted at_le (sort v).
Proof.
  unfold sort. destruct v as [|p v]; [constructor|].
  apply final_insertion_sort_spec.
Qed.

(** Up to [S_threshold] elements [std::sort] is the insertion sort alone,
    which keeps elements of equal arrival time in their order. *)
Lemma libstdcxx_sort_short v t :
  (length v <= S_threshold)%nat ->
  filter (arrived_at t) (sort v) = filter (arrived_at t) v.
Proof.
  intros Hlen. unfold sort. destruct v as [|p v]; [done|].
  assert (introsort_loop (Nat.log2 (length (p :: v)) * 2) 0
            (length (p :: v)) (p :: v) = p :: v) as ->.
  { destruct (Nat.log2 (length (p :: v)) * 2)%nat; cbn [introsort_loop];
      destruct (S_threshold <? length (p :: v) - 0)%nat eqn:Hlt; try done;
      apply Nat.ltb_lt in Hlt; lia. }
  apply final_insertion_sort_spec.
Qed.
End Libstdcxx.

(** [std::sort] of libstdc++ is within the contract of the arrival sort. *)
Definition libstdcxx_sort : ArrivalSort :=
  Build_ArrivalSort libstdcxx.sort libstdcxx_sort_perm libstdcxx_sort_sorted.

(** ** Loops with fuel *)

Section WhileLoop.
Context {S : Type} (cond : S -> bool) (body : S -> option S).

Lemma while_loop_more_fuel fuel k s r :
  while_loop cond body fuel s = Returned r ->
  while_loop cond body (fuel + k) s = Returned r.
Proof.
  revert s. induction fuel as [|fuel IH]; intros s; simpl.
  - destruct (cond s) eqn:Hc; [done|].
    intros Hr. destruct k; simpl; by rewrite Hc.
  - destruct (cond s); [|done].
    destruct (body s); [apply IH|done].
Qed.

Lemma while_loop_returned_inv (I : S -> Prop) fuel s r :
  (forall s s', I s -> cond s = true -> body s = Some s' -> I s') ->
  I s ->
  while_loop cond body fuel s = Returned r ->
  I r /\ cond r = false.
Proof.
  intros Hstep. revert s.
  induction fuel as [|fuel IH]; intros s Hs; simpl;
    destruct (cond s) eqn:Hc; try done; try (intros [= <-]; done).
  destruct (body s) as [s'|] eqn:Hb; [|done].
  apply IH. by eapply Hstep.
Qed.

(** A measure that every turn of the loop lowers bounds the fuel needed. *)
Lemma while_loop_terminates (I : S -> Prop) (measure : S -> nat) fuel s :
  (forall s, I s -> cond s = true ->
     exists s', body s = Some s' /\ I s' /\ (measure s' < measure s)%nat) ->
  I s ->
  (measure s <= fuel)%nat ->
  exists r, while_loop cond body fuel s = Returned r.
Proof.
  intros Hstep. revert s.
  induction fuel as [|fuel IH]; intros s Hs Hm; simpl;
    destruct (cond s) eqn:Hc; eauto.
  - destruct (Hstep s Hs Hc) as (s' & _ & _ & Hlt). lia.
  - destruct (Hstep s Hs Hc) as (s' & -> & Hs' & Hlt).
    apply IH; [done|lia].
Qed.
End WhileLoop.

Lemma map_outcome_returned {A B : Type} (f : A -> B) o r :
  map_outcome f o = Returned r -> exists a, o = Returned a /\ r = f a.
Proof. destruct o; simpl; [|done..]. intros [= <-]. eauto. Qed.

(** ** The range of [int] *)

Section Turns.
Context {S : Type} (cond : S -> bool) (body : S -> option S).

Lemma turns_inv (I : S -> Prop) n : forall s s',
  (forall s s', I s -> cond s = true -> body s = Some s' -> I s') ->
  I s -> turns cond body n s = Some s' -> I s'.
Proof.
  induction n as [|n IH]; intros s s' Hstep Hs; simpl.
  - by intros [= <-].
  - destruct (cond s) eqn:Hc; [|done].
    destruct (body s) as [s1|] eqn:Hb; [|done]. simpl.
    apply IH; [done|]. by eapply Hstep.
Qed.

Lemma while_loop_turns fuel : forall s r,
  while_loop cond body fuel s = Returned r ->
  exists n, turns cond body n s = Some r /\ cond r = false.
Proof.
  induction fuel as [|fuel IH]; intros s r; simpl;
    destruct (cond s) eqn:Hc; try done.
  - intros [= <-]. by exists 0%nat.
  - destruct (body s) as [s1|] eqn:Hb; [|done]. intros Hr.
    destruct (IH _ _ Hr) as (n & Hn & Hcond). exists (Datatypes.S n).
    simpl. by rewrite Hc, Hb.
  - intros [= <-]. by exists 0%nat.
Qed.

(** A loop whose body is defined on fewer states returns what the loop with
    the full body returns. *)
Lemma while_loop_refines (body' : S -> option S) fuel : forall s r,
  (forall s s', body' s = Some s' -> body s = Some s') ->
  while_loop cond body' fuel s = Returned r ->
  while_loop cond body fuel s = Returned r.
Proof.
  induction fuel as [|fuel IH]; intros s r Href; simpl;
    destruct (cond s); try done.
  destruct (body' s) as [s1|] eqn:Hb; [|done].
  rewrite (Href _ _ Hb). by apply IH.
Qed.
End Turns.

Lemma in_int_range z : in_int z = true <-> INT_MIN <= z <= INT_MAX.
Proof. unfold in_int. rewrite andb_true_iff, !Z.leb_le. done. Qed.

Lemma int_process_range p :
  int_process p = true <->
  (INT_MIN <= p_at p <= INT_MAX) /\ (INT_MIN <= bt p <= INT_MAX) /\
  (INT_MIN <= st p <= INT_MAX) /\ (INT_MIN <= ct p <= INT_MAX) /\
  (INT_MIN <= tt p <= INT_MAX) /\ (INT_MIN <= rt p <= INT_MAX) /\
  (INT_MIN <= wt p <= INT_MAX) /\ (INT_MIN <= rbt p <= INT_MAX).
Proof.
  unfold int_process. rewrite !andb_true_iff, !in_int_range. tauto.
Qed.

Lemma SJF_body_int_Some s s' :
  SJF_body_int s = Some s' ->
  s' = SJF_body s /\
  int_turn (fst <$> SJF_select (processes_ s) (time_passed s)) s' = true.
Proof.
  unfold SJF_body_int.
  destruct (int_turn _ (SJF_body s)) eqn:E; [|done]. by intros [= <-].
Qed.

Lemma RR_body_int_Some quantum s s' :
  RR_body_int quantum s = Some s' ->
  RR_body quantum s = Some s' /\
  exists c q curr,
    ready_indexes_queue s = c :: q /\ processes_ s !! c = Some curr /\
    in_int (rbt curr - quantum) = true /\ int_turn (Some c) s' = true.
Proof.
  unfold RR_body_int.
  destruct (ready_indexes_queue s) as [|c q] eqn:Hq; [done|].
  destruct (processes_ s !! c) as [curr|] eqn:Hc; [|done]. simpl.
  destruct (in_int (rbt curr - quantum)) eqn:Ht; [|done].
  destruct (RR_body quantum s) as [s1|] eqn:Hb; [|done]. simpl.
  destruct (int_turn (Some c) s1) eqn:Hi; [|done]. intros [= <-].
  split; [done|]. by exists c, q, curr.
Qed.

Lemma SJF_Start_int_returned fuel l r :
  SJF_Start_int fuel l = Returned r -> SJF_Start fuel l = Returned r.
Proof.
  unfold SJF_Start_int, SJF_Start. intros Hr.
  apply map_outcome_returned in Hr as (s & Hs & ->).
  erewrite while_loop_refines; [done| |exact Hs].
  intros s0 s' Hb. by apply SJF_body_int_Some in Hb as [-> _].
Qed.

Lemma RR_Start_int_returned quantum S fuel l r :
  RR_Start_int quantum S fuel l = Returned r ->
  RR_Start quantum S fuel l = Returned r.
Proof.
  unfold RR_Start_int, RR_Start. intros Hr.
  apply map_outcome_returned in Hr as (s & Hs & ->).
  erewrite while_loop_refines; [done| |exact Hs].
  intros s0 s' Hb. by apply RR_body_int_Some in Hb as [? _].
Qed.

(** ** SJF *)

Lemma SJF_Start_more_fuel fuel k l r :
  SJF_Start fuel l = Returned r -> SJF_Start (fuel + k) l = Returned r.
Proof.
  unfold SJF_Start. intros H.
  apply map_outcome_returned in H as (s & Hs & ->).
  by rewrite (while_loop_more_fuel _ _ _ _ _ _ Hs).
Qed.

Lemma SJF_visit_ok time pre acc p :
  scan_ok time pre acc ->
  scan_ok time (pre ++ [p]) (SJF_visit time acc (length pre) p).
Proof.
  destruct acc as [thr [[j q]|]];
    unfold scan_ok, SJF_visit, eligible, preferred; simpl.
  - intros (Hj & Hq & -> & Hall).
    assert (Hkeep : forall p' : Process,
               p' ∈ pre ++ [p] -> p' = p \/ p' ∈ pre).
    { intros p' [?|Hp']%elem_of_app; [by right|].
      apply list_elem_of_singleton in Hp'. by left. }
    destruct (finished p) eqn:Hf; simpl.
    { split; [by apply lookup_app_l_Some|]. split; [done|]. split; [done|].
      intros p' [->|?]%Hkeep [? ?]; [congruence|by apply Hall]. }
    destruct (time <? p_at p) eqn:Ht; simpl.
    { split; [by apply lookup_app_l_Some|]. split; [done|]. split; [done|].
      intros p' [->|?]%Hkeep [? ?]; [lia|by apply Hall]. }
    destruct (bt p =? bt q) eqn:Hb.
    + destruct (p_at p <? p_at q) eqn:Ha; simpl.
      * split; [by rewrite lookup_app_r, Nat.sub_diag|].
        split; [split; [done|lia]|]. split; [done|].
        intros p' [->|Hp']%Hkeep He; [lia|].
        specialize (Hall p' Hp' He). lia.
      * split; [by apply lookup_app_l_Some|]. split; [done|]. split; [done|].
        intros p' [->|?]%Hkeep He; [lia|by apply Hall].
    + destruct (bt p <? bt q) eqn:Hlt; simpl.
      * split; [by rewrite lookup_app_r, Nat.sub_diag|].
        split; [split; [done|lia]|]. split; [done|].
        intros p' [->|Hp']%Hkeep He; [lia|].
        specialize (Hall p' Hp' He). lia.
      * split; [by apply lookup_app_l_Some|]. split; [done|]. split; [done|].
        intros p' [->|?]%Hkeep He; [lia|by apply Hall].
  - intros (-> & Hall).
    assert (Hkeep : forall p' : Process,
               p' ∈ pre ++ [p] -> p' = p \/ p' ∈ pre).
    { intros p' [?|Hp']%elem_of_app; [by right|].
      apply list_elem_of_singleton in Hp'. by left. }
    destruct (finished p) eqn:Hf; simpl.
    { split; [done|].
      intros p' [->|?]%Hkeep [? ?]; [congruence|by apply Hall]. }
    destruct (time <? p_at p) eqn:Ht; simpl.
    { split; [done|].
      intros p' [->|?]%Hkeep [? ?]; [lia|by apply Hall]. }
    destruct (bt p <? INT_MAX) eqn:Hlt; simpl.
    + split; [by rewrite lookup_app_r, Nat.sub_diag|].
      split; [split; [done|lia]|]. split; [done|].
      intros p' [->|Hp']%Hkeep He; [lia|].
      specialize (Hall p' Hp' He). lia.
    + split; [done|].
      intros p' [->|?]%Hkeep He; [lia|by apply Hall].
Qed.

Lemma SJF_scan_ok time l : forall pre acc,
  scan_ok time pre acc ->
  scan_ok time (pre ++ l) (SJF_scan time (length pre) l acc).
Proof.
  induction l as [|p l IH]; intros pre acc Hacc; simpl.
  - by rewrite app_nil_r.
  - apply (SJF_visit_ok _ _ _ p) in Hacc.
    apply IH in Hacc.
    by rewrite length_app, Nat.add_1_r, <- app_assoc in Hacc.
Qed.

Lemma SJF_select_ok procs time :
  scan_ok time procs (SJF_scan time 0 procs (INT_MAX, None)).
Proof.
  apply (SJF_scan_ok time procs [] (INT_MAX, None)).
  split; [done|]. intros p Hp. by apply elem_of_nil in Hp.
Qed.

(** The scan settles on an eligible process that is preferred to every other
    eligible one, as soon as one of them has a burst below [INT_MAX]; it
    settles on none exactly when every eligible burst is at least [INT_MAX],
    and the clock then moves by one. *)
Lemma SJF_select_minimal procs time :
  match SJF_select procs time with
  | Some (i, q) =>
      procs !! i = Some q /\ eligible time q /\
      forall p, p ∈ procs -> eligible time p -> preferred q p
  | None => forall p, p ∈ procs -> eligible time p -> INT_MAX <= bt p
  end.
Proof.
  pose proof (SJF_select_ok procs time) as H.
  unfold SJF_select, scan_ok in *.
  destruct (SJF_scan time 0 procs (INT_MAX, None)) as [thr [[i q]|]];
    simpl in *; tauto.
Qed.

Lemma SJF_select_some procs time p :
  p ∈ procs -> eligible time p -> bt p < INT_MAX ->
  exists i q, SJF_select procs time = Some (i, q).
Proof.
  intros Hp He Hlt. pose proof (SJF_select_minimal procs time) as H.
  destruct (SJF_select procs time) as [[i q]|]; [eauto|].
  specialize (H p Hp He). lia.
Qed.

Lemma SJF_body_idle s :
  SJF_select (processes_ s) (time_passed s) = None ->
  SJF_body s =
    Build_state (processes_ s) (time_passed s + 1) (ready_indexes_queue s)
      (finished_count s) (metrics s).
Proof. unfold SJF_body. by intros ->. Qed.

Lemma SJF_readme_run :
  exists r,
    SJF_Start 4 readme_input = Returned r /\
    schedule r = [(24, 44); (0, 10); (10, 16); (16, 24)].
Proof. eexists. split; vm_compute; reflexivity. Qed.

(** C1, as the code has it: on the input of the README the SJF engine runs
    (0,10) over [0,10), then (4,6) over [10,16), then (4,8) over [16,24), and
    (0,20) last over [24,44): at clock 10 the two processes that arrived at 4
    are eligible and shorter than (0,20).  Four turns of the loop are
    enough. *)
Theorem C1_SJF_readme_schedule : forall fuel,
  exists r,
    SJF_Start (4 + fuel) readme_input = Returned r /\
    schedule r = [(24, 44); (0, 10); (10, 16); (16, 24)].
Proof.
  intros fuel. destruct SJF_readme_run as (r & Hr & Hs).
  exists r. split; [|done]. by apply SJF_Start_more_fuel.
Qed.

(** C1, as the claim words it, does not hold: no run of the SJF engine on
    that input gives (0,20) the interval [10,30), (4,6) the interval [30,36)
    and (4,8) the interval [36,44). *)
Lemma C1_SJF_readme_not_claimed_schedule :
  ~ exists fuel r,
      SJF_Start fuel readme_input = Returned r /\
      schedule r = [(10, 30); (0, 10); (30, 36); (36, 44)].
Proof.
  intros (fuel & r & Hr & Hs).
  apply (SJF_Start_more_fuel _ 4) in Hr.
  destruct SJF_readme_run as (r' & Hr' & Hs').
  apply (SJF_Start_more_fuel _ fuel) in Hr'.
  rewrite Nat.add_comm, Hr' in Hr. injection Hr as ->.
  rewrite Hs' in Hs. discriminate Hs.
Qed.

(** C4 at its failing input: a process with burst [INT_MAX] that has arrived
    and is not finished is never selected, because the threshold starts at
    [INT_MAX], the comparison is strict and the tie rule needs an earlier
    pick; the engine idles instead. *)
Theorem C4_SJF_INT_MAX_burst_not_selected :
  let procs := [new_Process 0 INT_MAX] in
  eligible 0 (new_Process 0 INT_MAX) /\
  SJF_select procs 0 = None /\
  SJF_body (SJF_init procs) = Build_state procs 1 [] 0 metrics_zero.
Proof. repeat split; simpl; lia. Qed.

Lemma SJF_INT_MAX_idles fuel : forall time,
  while_loop (unfinished_remain 1) (fun s => Some (SJF_body s)) fuel
    (Build_state [new_Process 0 INT_MAX] time [] 0 metrics_zero) = OutOfFuel.
Proof.
  induction fuel as [|fuel IH]; intros time; simpl; [done|].
  rewrite <- (IH (time + 1)). f_equal.
  unfold SJF_body, SJF_select. simpl.
  by destruct (time <? 0).
Qed.

(** ** FCFS *)

Lemma FCFS_body_at_boundary pre p todo m :
  FCFS_body (pre ++ p :: todo, m) (length pre) =
    let p' := FCFS_process (ct <$> last pre) p in
    ((pre ++ [p']) ++ todo, metrics_add m p').
Proof.
  unfold FCFS_body.
  rewrite list_lookup_middle by done.
  assert (Hst :
    (if (length pre =? 0)%nat then p_at p
     else Z.max (p_at p)
            match (pre ++ p :: todo) !! (length pre - 1)%nat with
            | Some q => ct q
            | None => 0
            end) =
    match ct <$> last pre with
    | None => p_at p
    | Some c => Z.max (p_at p) c
    end).
  { destruct pre as [|d pre _] using rev_ind; [done|].
    rewrite last_snoc, length_app. simpl.
    replace (length pre + 1 - 1)%nat with (length pre) by lia.
    rewrite <- app_assoc. simpl. rewrite list_lookup_middle by done.
    destruct (length pre + 1)%nat eqn:E; [lia|done]. }
  rewrite Hst. simpl.
  f_equal. rewrite <- app_assoc. simpl.
  rewrite insert_app_r_alt by done. by rewrite Nat.sub_diag.
Qed.

Lemma FCFS_loop_pass todo : forall pre m,
  foldl FCFS_body (pre ++ todo, m) (seq (length pre) (length todo)) =
    (pre ++ FCFS_pass (ct <$> last pre) todo,
     foldl metrics_add m (FCFS_pass (ct <$> last pre) todo)).
Proof.
  induction todo as [|p todo IH]; intros pre m; [done|].
  cbn [length seq foldl FCFS_pass]. rewrite FCFS_body_at_boundary.
  cbn zeta.
  pose proof (IH (pre ++ [FCFS_process (ct <$> last pre) p])) as IH'.
  rewrite length_app, Nat.add_1_r, last_snoc in IH'. simpl in IH'.
  rewrite IH'. by rewrite <- app_assoc.
Qed.

Lemma foldl_metrics_add l : forall m,
  foldl metrics_add m l =
    Build_Metrics
      (foldl (fun acc p => Float32.add acc (Float32.of_Z (tt p))) (m_tt m) l)
      (foldl (fun acc p => Float32.add acc (Float32.of_Z (rt p))) (m_rt m) l)
      (foldl (fun acc p => Float32.add acc (Float32.of_Z (wt p))) (m_wt m) l).
Proof.
  induction l as [|p l IH]; intros m; simpl; [by destruct m|].
  by rewrite IH.
Qed.

Lemma FCFS_Start_pass S l :
  FCFS_Start S l =
    let procs := FCFS_pass None (std_sort S l) in
    Build_result
      (metrics_div (foldl metrics_add metrics_zero procs) (length l)) procs.
Proof.
  unfold FCFS_Start.
  rewrite <- (Permutation_length (std_sort_perm S l)).
  pose proof (FCFS_loop_pass (std_sort S l) [] metrics_zero) as H.
  simpl in H. by rewrite H.
Qed.

Lemma FCFS_pass_length l : forall prev, length (FCFS_pass prev l) = length l.
Proof.
  induction l as [|p l IH]; intros prev; simpl; [done|]. by rewrite IH.
Qed.

Lemma FCFS_pass_lookup l : forall prev i p0,
  l !! i = Some p0 ->
  exists p,
    FCFS_pass prev l !! i = Some p /\
    p_at p = p_at p0 /\ bt p = bt p0 /\
    ct p = st p + bt p /\
    tt p = ct p - p_at p /\ rt p = st p - p_at p /\ wt p = tt p - bt p /\
    (i = 0%nat ->
       st p = match prev with
              | None => p_at p
              | Some c => Z.max (p_at p) c
              end) /\
    (forall j q, i = S j -> FCFS_pass prev l !! j = Some q ->
       st p = Z.max (p_at p) (ct q)).
Proof.
  induction l as [|x l IH]; intros prev i p0 Hi; [done|].
  destruct i as [|i]; simpl in *.
  - injection Hi as ->. eexists. split; [done|].
    repeat split; try done.
  - destruct (IH (Some (ct (FCFS_process prev x))) i p0 Hi)
      as (p & Hp & ? & ? & ? & ? & ? & ? & H0 & HS).
    exists p. repeat split; try done.
    intros j q [= <-] Hq. destruct i as [|i]; simpl in Hq.
    + injection Hq as <-. by apply H0.
    + by eapply HS.
Qed.

Lemma foldl_FCFS_body_int_None l : foldl FCFS_body_int None l = None.
Proof. by induction l. Qed.

Lemma FCFS_int_loop_pass todo : forall pre m,
  foldl FCFS_body_int (Some (pre ++ todo, m))
    (seq (length pre) (length todo)) =
    if forallb int_process (FCFS_pass (ct <$> last pre) todo)
    then Some (foldl FCFS_body (pre ++ todo, m)
                 (seq (length pre) (length todo)))
    else None.
Proof.
  induction todo as [|p todo IH]; intros pre m; [done|].
  cbn [length seq foldl FCFS_pass forallb].
  unfold FCFS_body_int at 2. cbn [mbind option_bind].
  rewrite FCFS_body_at_boundary. cbn zeta. cbn [fst].
  rewrite <- app_assoc. cbn [app].
  rewrite list_lookup_middle by done.
  destruct (int_process (FCFS_process (ct <$> last pre) p)); cbn [andb];
    [|apply foldl_FCFS_body_int_None].
  pose proof (IH (pre ++ [FCFS_process (ct <$> last pre) p])) as IH'.
  rewrite length_app, Nat.add_1_r, last_snoc, <- app_assoc in IH'.
  apply IH'.
Qed.

(** The run with the range of [int] is the run on integers when every time
    that run computes is within range, and is undefined otherwise. *)
Lemma FCFS_Start_int_spec S l :
  FCFS_Start_int S l =
    if forallb int_process (final_processes (FCFS_Start S l))
    then Returned (FCFS_Start S l) else Undefined.
Proof.
  rewrite FCFS_Start_pass. cbn zeta. cbn [final_processes].
  unfold FCFS_Start_int.
  rewrite <- (Permutation_length (std_sort_perm S l)).
  pose proof (FCFS_int_loop_pass (std_sort S l) [] metrics_zero) as H.
  pose proof (FCFS_loop_pass (std_sort S l) [] metrics_zero) as H'.
  cbn [app length last fmap option_fmap option_map] in H, H'.
  rewrite H, H'.
  by destruct (forallb int_process (FCFS_pass None (std_sort S l))).
Qed.

Lemma FCFS_Start_int_returned S l r :
  FCFS_Start_int S l = Returned r ->
  r = FCFS_Start S l /\
  Forall (fun p => int_process p = true) (final_processes r).
Proof.
  rewrite FCFS_Start_int_spec.
  destruct (forallb _ _) eqn:E; [|done]. intros [= <-]. split; [done|].
  apply Forall_forall. intros p Hp.
  rewrite forallb_forall in E. apply E. by apply list_elem_of_In.
Qed.

(** The FCFS pass on integers works on its vector in arrival order
    ([std_sort S l]); the process at index 0 starts at its arrival time, the
    process at a later index starts at the larger of its arrival time and the
    completion time of the process before it, every process completes [bt]
    after its start, and each average is the float sum of that metric over
    the vector divided by the process count.  Arrival and burst times are
    not altered. *)
Lemma FCFS_Start_times (S : ArrivalSort)
    (l : list Process) :
  let r := FCFS_Start S l in
  length (final_processes r) = length l /\
  (forall i p0, std_sort S l !! i = Some p0 ->
     exists p,
       final_processes r !! i = Some p /\
       p_at p = p_at p0 /\ bt p = bt p0 /\
       (i = 0%nat -> st p = p_at p) /\
       (forall j q, i = Datatypes.S j -> final_processes r !! j = Some q ->
          st p = Z.max (p_at p) (ct q)) /\
       ct p = st p + bt p /\
       tt p = ct p - p_at p /\ rt p = st p - p_at p /\ wt p = tt p - bt p) /\
  averages r =
    let n := Float32.of_Z (Z.of_nat (length l)) in
    Build_Metrics (Float32.div (float_sum tt (final_processes r)) n)
                  (Float32.div (float_sum rt (final_processes r)) n)
                  (Float32.div (float_sum wt (final_processes r)) n).
Proof.
  rewrite FCFS_Start_pass. simpl. split; [|split].
  - rewrite FCFS_pass_length. apply Permutation_length, std_sort_perm.
  - intros i p0 Hi.
    destruct (FCFS_pass_lookup _ None i p0 Hi)
      as (p & Hp & ? & ? & ? & ? & ? & ? & H0 & HS).
    exists p. repeat split; try done.
  - by rewrite foldl_metrics_add.
Qed.

(** ** The arrival sort and ties *)

Lemma insert_before_ties_filter t x l :
  filter (arrived_at t) (insert_by insert_before_ties x l) =
  filter (arrived_at t) (x :: l).
Proof.
  induction l as [|y l IH]; simpl; [done|].
  unfold insert_before_ties at 1.
  destruct (p_at x <=? p_at y) eqn:Hxy; [done|].
  rewrite (filter_cons _ y), IH, !filter_cons.
  unfold arrived_at.
  repeat case_decide; try done; lia.
Qed.

Lemma stable_sort_keeps_tie_order l : keeps_tie_order stable_sort l.
Proof.
  intros t. simpl. induction l as [|x l IH]; simpl; [done|].
  fold (insertion_sort insert_before_ties l).
  by rewrite insert_before_ties_filter, !filter_cons, IH.
Qed.

(** Two arrival-ordered lists with the same processes, in the same order
    within each arrival time, are equal. *)
Lemma sorted_same_tie_order_eq l : forall l',
  StronglySorted at_le l -> StronglySorted at_le l' -> l' ≡ₚ l ->
  (forall t, filter (arrived_at t) l' = filter (arrived_at t) l) ->
  l' = l.
Proof.
  induction l as [|x l IH]; intros l' Hl Hl' Hperm Hfilter.
  - by apply Permutation_nil_r.
  - destruct l' as [|y l'].
    { by apply Permutation_nil_cons in Hperm. }
    apply StronglySorted_inv in Hl as [Hl Hx].
    apply StronglySorted_inv in Hl' as [Hl' Hy].
    assert (p_at x = p_at y) as Hxy.
    { assert (y ∈ x :: l) as Hin by (rewrite <- Hperm; left).
      assert (x ∈ y :: l') as Hin' by (rewrite Hperm; left).
      rewrite Forall_forall in Hx, Hy. unfold at_le in *.
      apply elem_of_cons in Hin as [->|Hin]; [done|].
      apply elem_of_cons in Hin' as [->|Hin']; [done|].
      specialize (Hx _ Hin). specialize (Hy _ Hin'). lia. }
    assert (y = x) as ->.
    { specialize (Hfilter (p_at x)).
      rewrite !filter_cons in Hfilter. unfold arrived_at in Hfilter.
      repeat case_decide; try done. by injection Hfilter. }
    f_equal. apply IH; try done.
    + by apply Permutation_cons_inv in Hperm.
    + intros t. specialize (Hfilter t).
      rewrite !filter_cons in Hfilter.
      case_decide; [by injection Hfilter|done].
Qed.

Lemma readme_input_sorted : StronglySorted at_le readme_input.
Proof.
  unfold readme_input, at_le.
  repeat (constructor; [|repeat constructor; simpl; lia]). constructor.
Qed.

(** C2, as the code has it: the arrival sort is [std::sort], an introsort
    finished by an insertion sort.  It returns the processes of its input in
    non-decreasing arrival order.  On an input of at most 16 processes it is
    the insertion sort alone, which leaves the processes of each arrival time
    in input order, and so leaves an input that is in arrival order as it
    is; so FCFS dispatches the four processes of the README input in input
    order, with no [int] overflow: completion times 20, 30, 36, 44 and
    averages 30.5, 19.5, 19.5. *)
Theorem C2_arrival_sort_and_FCFS_readme :
  (forall l,
     std_sort libstdcxx_sort l ≡ₚ l /\
     StronglySorted at_le (std_sort libstdcxx_sort l)) /\
  (forall l, (length l <= 16)%nat -> keeps_tie_order libstdcxx_sort l) /\
  (forall l, (length l <= 16)%nat -> StronglySorted at_le l ->
     std_sort libstdcxx_sort l = l) /\
  std_sort libstdcxx_sort readme_input = readme_input /\
  exists r,
    FCFS_Start_int libstdcxx_sort readme_input = Returned r /\
    map p_at (final_processes r) = [0; 0; 4; 4] /\
    map bt (final_processes r) = [20; 10; 6; 8] /\
    map ct (final_processes r) = [20; 30; 36; 44] /\
    Float32.is_Q (m_tt (averages r)) (61 # 2) /\
    Float32.is_Q (m_rt (averages r)) (39 # 2) /\
    Float32.is_Q (m_wt (averages r)) (39 # 2).
Proof.
  split_and!.
  - intros l. split; [apply std_sort_perm|apply std_sort_sorted].
  - intros l Hlen t. by apply libstdcxx_sort_short.
  - intros l Hlen Hl. apply sorted_same_tie_order_eq;
      [done|apply std_sort_sorted|apply std_sort_perm|].
    intros t. by apply libstdcxx_sort_short.
  - reflexivity.
  - eexists. split; [vm_compute; reflexivity|].
    vm_compute. repeat split.
Qed.

Lemma C2_arrival_sort_and_FCFS_readme_witness :
  (length readme_input <= 16)%nat /\
  keeps_tie_order libstdcxx_sort readme_input.
Proof.
  assert (length readme_input <= 16)%nat as H by (simpl; lia).
  split; [exact H|].
  exact (proj1 (proj2 C2_arrival_sort_and_FCFS_readme) readme_input H).
Defined.

(** C2, as the claim words it, does not hold of every input list: of
    seventeen processes that all arrive at time 0, given with bursts 1 to
    17, [std::sort] puts the ninth first and the first tenth, and FCFS
    dispatches them in that order, not in input order. *)
Lemma C2_std_sort_reorders_equal_arrivals :
  Forall well_formed equal_arrivals /\
  StronglySorted at_le equal_arrivals /\
  std_sort libstdcxx_sort equal_arrivals <> equal_arrivals /\
  ~ keeps_tie_order libstdcxx_sort equal_arrivals /\
  map bt (final_processes (FCFS_Start libstdcxx_sort equal_arrivals)) =
    [9; 17; 16; 15; 14; 13; 12; 11; 10; 1; 8; 7; 6; 5; 4; 3; 2].
Proof.
  split_and!.
  - repeat constructor; done.
  - unfold equal_arrivals, at_le. simpl.
    repeat (constructor; [|repeat constructor; simpl; lia]). constructor.
  - vm_compute. discriminate.
  - intros H. specialize (H 0). vm_compute in H. discriminate H.
  - vm_compute. reflexivity.
Qed.

(** ** RR: the parts of one dispatch step *)

Lemma RR_sweep_eq time l : forall i queue,
  RR_sweep time i l queue =
    (map (sweep_process time) l, queue ++ arrivals time i l).
Proof.
  induction l as [|p l IH]; intros i queue; simpl.
  - by rewrite app_nil_r.
  - unfold sweep_process, arrived.
    destruct (queued p || finished p); simpl.
    { by rewrite IH. }
    destruct (p_at p <=? time); rewrite IH; [|done].
    by rewrite <- app_assoc.
Qed.



Lemma arrivals_filter time l : forall i,
  arrivals time i l =
    List.filter
      (fun j => match l !! (j - i)%nat with
                | Some p => arrived time p
                | None => false
                end)
      (seq i (length l)).
Proof.
  induction l as [|p l IH]; intros i; simpl; [done|].
  rewrite Nat.sub_diag. simpl.
  assert (List.filter
            (fun j => match (p :: l) !! (j - i)%nat with
                      | Some p => arrived time p
                      | None => false
                      end) (seq (S i) (length l)) =
          arrivals time (S i) l) as ->.
  { rewrite IH. apply List.filter_ext_in.
    intros j [Hj _]%in_seq.
    replace (j - i)%nat with (S (j - S i)) by lia. done. }
  done.
Qed.

Lemma arrivals_indexes time first rest :
  arrivals time 1 rest = arrival_indexes time (first :: rest).
Proof.
  rewrite arrivals_filter. unfold arrival_indexes. simpl.
  rewrite Nat.sub_0_r. apply List.filter_ext_in.
  intros j [Hj _]%in_seq.
  replace j with (S (j - 1)) at 2 by lia. done.
Qed.

Lemma RR_after_sweep_eq s :
  processes_ s <> [] ->
  RR_after_sweep s =
    Some (Build_state (imap (sweep_at (time_passed s)) (processes_ s))
            (time_passed s)
            (ready_indexes_queue s ++
               arrival_indexes (time_passed s) (processes_ s))
            (finished_count s) (metrics s)).
Proof.
  unfold RR_after_sweep, from_second.
  destruct (processes_ s) as [|first rest] eqn:Hp; [done|]. intros _.
  rewrite RR_sweep_eq. simpl.
  rewrite (arrivals_indexes _ first). do 3 f_equal.
  unfold sweep_at at 1. simpl. f_equal.
  symmetry. apply (imap_const (sweep_process (time_passed s))).
Qed.

Lemma RR_recover_found pre p post : forall i queue,
  Forall (fun x => finished x = true) pre -> finished p = false ->
  RR_recover i (pre ++ p :: post) queue =
    (pre ++ set_queued true p :: post, queue ++ [(i + length pre)%nat]).
Proof.
  induction pre as [|x pre IH]; intros i queue Hpre Hp; simpl.
  - rewrite Hp. by rewrite Nat.add_0_r.
  - apply Forall_cons in Hpre as [Hx Hpre]. rewrite Hx.
    rewrite IH by done. by rewrite Nat.add_succ_comm.
Qed.

Lemma RR_recover_none l : forall i queue,
  Forall (fun x => finished x = true) l -> RR_recover i l queue = (l, queue).
Proof.
  induction l as [|x l IH]; intros i queue Hl; simpl; [done|].
  apply Forall_cons in Hl as [Hx Hl]. rewrite Hx. by rewrite IH.
Qed.

Lemma RR_after_recover_found s i p :
  ready_indexes_queue s = [] ->
  (1 <= i)%nat -> processes_ s !! i = Some p -> finished p = false ->
  (forall j x, (1 <= j < i)%nat -> processes_ s !! j = Some x ->
     finished x = true) ->
  RR_after_recover s =
    Some (Build_state (<[i := set_queued true p]> (processes_ s))
            (time_passed s) [i] (finished_count s) (metrics s)).
Proof.
  intros Hq Hi Hp Hf Hbefore. unfold RR_after_recover, from_second.
  rewrite Hq. destruct (processes_ s) as [|first rest]; [done|].
  destruct i as [|i]; [lia|]. simpl in Hp.
  rewrite <- (take_drop_middle rest i p Hp) at 1.
  rewrite RR_recover_found; [|
    apply Forall_lookup; intros j x Hx;
    apply lookup_take_Some in Hx as [Hx Hj];
    apply (Hbefore (S j)); [lia|done] |done].
  simpl. do 2 f_equal.
  - f_equal. rewrite <- (take_drop_middle rest i p Hp) at 3.
    assert (length (take i rest) = i) as Hlen.
    { apply length_take_le. apply lookup_lt_Some in Hp. lia. }
    rewrite insert_app_r_alt by lia.
    by rewrite Hlen, Nat.sub_diag.
  - rewrite length_take_le; [done|]. apply lookup_lt_Some in Hp. lia.
Qed.

Lemma RR_after_recover_none s :
  ready_indexes_queue s = [] -> processes_ s <> [] ->
  (forall j x, (1 <= j)%nat -> processes_ s !! j = Some x ->
     finished x = true) ->
  RR_after_recover s = Some s.
Proof.
  intros Hq Hne Hall. unfold RR_after_recover, from_second. rewrite Hq.
  destruct (processes_ s) as [|first rest] eqn:Hp; [done|].
  rewrite RR_recover_none.
  - simpl. destruct s; simpl in *. by subst.
  - apply Forall_lookup. intros j x Hx. apply (Hall (S j)); [lia|done].
Qed.

Lemma RR_after_recover_nonempty s :
  ready_indexes_queue s <> [] -> RR_after_recover s = Some s.
Proof. unfold RR_after_recover. by destruct (ready_indexes_queue s). Qed.

(** C3: when the queue is empty once the arrival sweep and the re-enqueue of
    a dispatch step are done, the step goes through the vector from index 1
    in order, passes the finished processes, and pushes the first process
    [i] that is not finished, setting its [queued] flag; nothing else
    changes, the clock included, and index 0 is not looked at. *)
Theorem C3_RR_empty_queue_recovery (quantum : Z) (s s1 s2 : loop_state)
    (c : nat) (q : list nat) (curr p : Process) (i : nat) :
  ready_indexes_queue s = c :: q ->
  processes_ s !! c = Some curr ->
  RR_after_sweep (RR_dispatch quantum s c curr q) = Some s1 ->
  RR_requeue c s1 = Some s2 ->
  ready_indexes_queue s2 = [] ->
  (1 <= i)%nat -> processes_ s2 !! i = Some p -> finished p = false ->
  (forall j x, (1 <= j < i)%nat -> processes_ s2 !! j = Some x ->
     finished x = true) ->
  RR_body quantum s =
    Some (Build_state (<[i := set_queued true p]> (processes_ s2))
            (time_passed s2) [i] (finished_count s2) (metrics s2)).
Proof.
  intros Hq Hc Hs1 Hs2 Hempty Hi Hp Hf Hbefore.
  unfold RR_body. rewrite Hq, Hc. simpl. rewrite Hs1. simpl.
  rewrite Hs2. simpl. by apply RR_after_recover_found.
Qed.

Lemma C3_RR_empty_queue_recovery_witness :
  ready_indexes_queue <$> RR_body 2 gap_state = Some [1%nat] /\
  time_passed <$> RR_body 2 gap_state = Some 8 /\
  map queued <$> (processes_ <$> RR_body 2 gap_state) = Some [false; true].
Proof.
  erewrite (C3_RR_empty_queue_recovery 2 gap_state _ _ 0 [] _ _ 1); cycle 1.
  - reflexivity.
  - reflexivity.
  - reflexivity.
  - reflexivity.
  - reflexivity.
  - lia.
  - reflexivity.
  - reflexivity.
  - intros j x Hj. lia.
  - repeat split; reflexivity.
Defined.

(** The recovery scan does not look at index 0: from [skip_state], the step
    that finishes index 1 leaves the queue empty although index 0 is not
    finished, and the next turn of the loop would read the front of an empty
    queue. *)
Lemma RR_recovery_skips_index_0 :
  exists s',
    RR_body 2 skip_state = Some s' /\ ready_indexes_queue s' = [] /\
    finished <$> processes_ s' = [false; true] /\
    RR_body 2 s' = None.
Proof.
  eexists. split; [vm_compute; reflexivity|].
  split; [reflexivity|]. split; [reflexivity|]. vm_compute. reflexivity.
Qed.

Lemma RR_dispatch_preempt quantum s c curr q :
  0 < rbt curr - quantum ->
  RR_dispatch quantum s c curr q =
    Build_state (<[c := preempted quantum (time_passed s) curr]> (processes_ s))
      (slice_start (time_passed s) curr + quantum) q (finished_count s)
      (metrics s).
Proof.
  intros Hq. unfold RR_dispatch, preempted, first_dispatch, slice_start.
  destruct (rbt curr =? bt curr); simpl;
    (destruct (0 <? rbt curr - quantum) eqn:E; [done|lia]).
Qed.

Lemma RR_dispatch_complete quantum s c curr q :
  rbt curr - quantum <= 0 ->
  RR_dispatch quantum s c curr q =
    Build_state (<[c := completed (time_passed s) curr]> (processes_ s))
      (slice_start (time_passed s) curr + rbt curr) q
      (S (finished_count s))
      (metrics_add (metrics s) (completing (time_passed s) curr)).
Proof.
  intros Hq.
  unfold RR_dispatch, completed, completing, first_dispatch, slice_start.
  destruct (rbt curr =? bt curr); simpl;
    (destruct (0 <? rbt curr - quantum) eqn:E; [lia|done]).
Qed.

Lemma RR_dispatch_queue quantum s c curr q :
  ready_indexes_queue (RR_dispatch quantum s c curr q) = q.
Proof.
  destruct (Z_lt_le_dec 0 (rbt curr - quantum)).
  - by rewrite RR_dispatch_preempt.
  - by rewrite RR_dispatch_complete.
Qed.

Lemma RR_dispatch_length quantum s c curr q :
  length (processes_ (RR_dispatch quantum s c curr q)) = length (processes_ s).
Proof.
  destruct (Z_lt_le_dec 0 (rbt curr - quantum)).
  - rewrite RR_dispatch_preempt by done. apply length_insert.
  - rewrite RR_dispatch_complete by done. apply length_insert.
Qed.

Lemma sweep_at_finished time j p : finished (sweep_at time j p) = finished p.
Proof.
  unfold sweep_at, sweep_process.
  destruct (1 <=? j)%nat; [|done]. by destruct (arrived time p).
Qed.

Lemma RR_body_step quantum s c q curr curr1 :
  ready_indexes_queue s = c :: q ->
  processes_ s !! c = Some curr ->
  processes_ (RR_dispatch quantum s c curr q) !! c = Some curr1 ->
  RR_body quantum s =
    RR_after_recover
      (RR_before_recover (RR_dispatch quantum s c curr q) c curr1).
Proof.
  intros Hq Hc Hc1. unfold RR_body. rewrite Hq, Hc. simpl.
  rewrite RR_after_sweep_eq by (intros E; by rewrite E in Hc1).
  simpl. unfold RR_requeue. simpl.
  rewrite list_lookup_imap, Hc1. simpl.
  rewrite sweep_at_finished. unfold RR_before_recover.
  destruct (finished curr1); simpl.
  - by rewrite app_nil_r.
  - by rewrite <- app_assoc.
Qed.

Lemma gap_state_reached :
  RR_body 2 (RR_init [new_Process 5 3; new_Process 20 3]) = Some gap_state.
Proof. reflexivity. Qed.





(** ** Sums over the process vector *)

Lemma sum_by_app f l1 l2 : sum_by f (l1 ++ l2) = sum_by f l1 + sum_by f l2.
Proof. induction l1 as [|x l1 IH]; simpl; [done|]. rewrite IH. lia. Qed.

Lemma sum_by_insert f l c x y :
  l !! c = Some x -> sum_by f (<[c := y]> l) = sum_by f l - f x + f y.
Proof.
  intros Hc. rewrite <- (take_drop_middle l c x Hc) at 2.
  rewrite <- (take_drop_middle l c x Hc) at 1.
  assert (length (take c l) = c) as Hlen.
  { apply length_take_le. apply lookup_lt_Some in Hc. lia. }
  rewrite insert_app_r_alt by lia. rewrite Hlen, Nat.sub_diag. simpl.
  rewrite !sum_by_app. simpl. lia.
Qed.

Lemma sum_by_imap f (g : nat -> Process -> Process) l :
  (forall j p, f (g j p) = f p) -> sum_by f (imap g l) = sum_by f l.
Proof.
  revert g. induction l as [|x l IH]; intros g Hg; simpl; [done|].
  rewrite Hg, IH; [done|]. intros j p. apply Hg.
Qed.

Lemma sum_by_perm f l l' : l ≡ₚ l' -> sum_by f l = sum_by f l'.
Proof. induction 1; simpl; lia. Qed.

Lemma sum_by_nonneg f l :
  (forall p, p ∈ l -> 0 <= f p) -> 0 <= sum_by f l.
Proof.
  induction l as [|x l IH]; intros H; simpl; [done|].
  assert (0 <= f x) by (apply H; left).
  assert (0 <= sum_by f l) by (apply IH; intros; apply H; by right). lia.
Qed.

Lemma sum_by_pos f l p :
  (forall p, p ∈ l -> 0 <= f p) -> p ∈ l -> 0 < f p -> 0 < sum_by f l.
Proof.
  induction l as [|x l IH]; intros H Hp Hpos; [by apply elem_of_nil in Hp|].
  simpl. assert (0 <= f x) by (apply H; left).
  assert (0 <= sum_by f l) by (apply sum_by_nonneg; intros; apply H; by right).
  apply elem_of_cons in Hp as [->|Hp]; [lia|].
  assert (0 < sum_by f l) by (apply IH; [intros; apply H; by right|done..]).
  lia.
Qed.

Lemma finished01_le l : sum_by finished01 l <= Z.of_nat (length l).
Proof.
  induction l as [|x l IH]; simpl length; simpl sum_by; [done|].
  unfold finished01 at 1. destruct (finished x); lia.
Qed.

Lemma finished01_all l :
  Z.of_nat (length l) <= sum_by finished01 l ->
  forall p, p ∈ l -> finished p = true.
Proof.
  induction l as [|x l IH]; intros H p Hp; [by apply elem_of_nil in Hp|].
  simpl length in H. simpl sum_by in H. pose proof (finished01_le l).
  unfold finished01 at 1 in H.
  destruct (finished x) eqn:Hx; [|lia].
  apply elem_of_cons in Hp as [->|Hp]; [done|]. apply IH; [lia|done].
Qed.

Lemma finished01_some l :
  sum_by finished01 l < Z.of_nat (length l) ->
  exists p, p ∈ l /\ finished p = false.
Proof.
  induction l as [|x l IH]; simpl length; simpl sum_by; [lia|].
  unfold finished01 at 1. destruct (finished x) eqn:Hx.
  - intros H. destruct IH as (p & Hp & Hf); [lia|].
    exists p. split; [by right|done].
  - intros _. exists x. split; [left|done].
Qed.

Lemma finished01_none l :
  (forall p, p ∈ l -> finished p = false) -> sum_by finished01 l = 0.
Proof.
  induction l as [|x l IH]; intros H; simpl; [done|].
  unfold finished01 at 1. rewrite (H x) by left.
  rewrite IH; [done|]. intros; apply H; by right.
Qed.

(** ** Well-formed input, and the metrics of a finished process *)

Lemma max_arrival_ge l p : p ∈ l -> p_at p <= max_arrival l.
Proof.
  induction l as [|x l IH]; intros Hp; [by apply elem_of_nil in Hp|].
  simpl. apply elem_of_cons in Hp as [->|Hp]; [lia|].
  specialize (IH Hp). lia.
Qed.

Lemma max_arrival_nonneg l : 0 <= max_arrival l.
Proof. induction l as [|x l IH]; simpl; lia. Qed.

Lemma well_formed_unfinished l p :
  Forall well_formed l -> p ∈ l -> finished p = false.
Proof.
  intros Hl Hp. rewrite Forall_forall in Hl.
  destruct (Hl p Hp) as (-> & _). done.
Qed.

(** ** SJF: invariant and termination *)

Lemma SJF_body_inv n bound s :
  SJF_inv n bound s -> SJF_inv n bound (SJF_body s).
Proof.
  intros (Hlen & Hcount & Hexact & Hbound). unfold SJF_body.
  pose proof (SJF_select_minimal (processes_ s) (time_passed s)) as Hsel.
  destruct (SJF_select (processes_ s) (time_passed s)) as [[i p]|];
    [|done].
  destruct Hsel as (Hi & [Hf _] & _).
  repeat split; simpl.
  - by rewrite length_insert.
  - rewrite (sum_by_insert _ _ _ p) by done.
    unfold finished01 at 2 3. rewrite Hf. simpl. lia.
  - apply Forall_insert; [done|]. intros _. by repeat split.
  - apply Forall_insert; [done|]. simpl.
    rewrite Forall_forall in Hbound. apply Hbound.
    by eapply list_elem_of_lookup_2.
Qed.

(** Every process is finished, with exact metrics, when the SJF loop
    returns. *)
Lemma SJF_Start_returned fuel l r :
  Forall well_formed l ->
  SJF_Start fuel l = Returned r ->
  length (final_processes r) = length l /\
  forall p, p ∈ final_processes r -> finished p = true /\ metrics_exact p.
Proof.
  intros Hl Hr. unfold SJF_Start in Hr.
  apply map_outcome_returned in Hr as (s & Hs & ->).
  apply (while_loop_returned_inv _ _
           (SJF_inv (length l) (max_arrival l))) in Hs
    as ((Hlen & Hcount & Hexact & _) & Hcond).
  - simpl. split; [done|]. intros p Hp.
    assert (finished p = true) as Hf.
    { apply (finished01_all (processes_ s)); [|done].
      unfold unfinished_remain in Hcond. rewrite <- Hcount, Hlen.
      apply Nat.ltb_ge in Hcond. lia. }
    split; [done|]. rewrite Forall_forall in Hexact. by apply Hexact.
  - intros s0 s' Hs0 _ [= <-]. by apply SJF_body_inv.
  - repeat split; simpl.
    + symmetry. apply finished01_none.
      intros p Hp. by eapply well_formed_unfinished.
    + apply Forall_forall. intros p Hp.
      by rewrite (well_formed_unfinished l p).
    + apply Forall_forall. intros p Hp. by apply max_arrival_ge.
Qed.

Lemma SJF_body_decreases n bound s :
  SJF_inv n bound s ->
  Forall (fun p => 0 <= bt p < INT_MAX) (processes_ s) ->
  unfinished_remain n s = true ->
  (SJF_measure n bound (SJF_body s) < SJF_measure n bound s)%nat /\
  Forall (fun p => 0 <= bt p < INT_MAX) (processes_ (SJF_body s)).
Proof.
  intros (Hlen & Hcount & Hexact & Hbound) Hbt Hcond.
  unfold unfinished_remain in Hcond. apply Nat.ltb_lt in Hcond.
  unfold SJF_body, SJF_measure.
  pose proof (SJF_select_minimal (processes_ s) (time_passed s)) as Hsel.
  rewrite Forall_forall in Hbt, Hbound.
  destruct (SJF_select (processes_ s) (time_passed s)) as [[i p]|]; simpl.
  - destruct Hsel as (Hi & _ & _).
    assert (p ∈ processes_ s) as Hp by (by eapply list_elem_of_lookup_2).
    pose proof (Hbt p Hp) as Hbp. split; [lia|].
    apply Forall_insert; [by apply Forall_forall|]. simpl. lia.
  - split; [|by apply Forall_forall].
    destruct (finished01_some (processes_ s)) as (p & Hp & Hf); [lia|].
    specialize (Hbound p Hp). specialize (Hbt p Hp).
    destruct (Z_le_gt_dec (p_at p) (time_passed s)) as [Hle|Hgt].
    + assert (eligible (time_passed s) p) as He by done.
      specialize (Hsel p Hp He). lia.
    + lia.
Qed.


(** ** RR: invariant and termination *)

Lemma arrival_indexes_elem time procs j :
  j ∈ arrival_indexes time procs <->
  (1 <= j)%nat /\ exists p, procs !! j = Some p /\ arrived time p = true.
Proof.
  unfold arrival_indexes. rewrite list_elem_of_In, List.filter_In, in_seq.
  split.
  - intros [[Hj _] Hp]. split; [done|].
    destruct (procs !! j) as [p|]; [eauto|done].
  - intros (Hj & p & Hp & Ha). rewrite Hp. split; [|done].
    apply lookup_lt_Some in Hp. lia.
Qed.

Lemma arrival_indexes_NoDup time procs : NoDup (arrival_indexes time procs).
Proof.
  unfold arrival_indexes. apply NoDup_ListNoDup, List.NoDup_filter, seq_NoDup.
Qed.

Lemma arrived_flags time p :
  arrived time p = true -> queued p = false /\ finished p = false.
Proof. unfold arrived. destruct (queued p), (finished p); simpl; done. Qed.

Lemma sweep_at_ok time j p : proc_ok p -> proc_ok (sweep_at time j p).
Proof.
  unfold sweep_at, sweep_process.
  destruct (1 <=? j)%nat; [|done]. by destruct (arrived time p).
Qed.

Lemma sweep_at_rbt time j p : rbt (sweep_at time j p) = rbt p.
Proof.
  unfold sweep_at, sweep_process.
  destruct (1 <=? j)%nat; [|done]. by destruct (arrived time p).
Qed.

Lemma sweep_at_finished01 time j p :
  finished01 (sweep_at time j p) = finished01 p.
Proof. unfold finished01. by rewrite sweep_at_finished. Qed.

Lemma sweep_at_queued time j p :
  queued p = true -> queued (sweep_at time j p) = true.
Proof.
  unfold sweep_at, sweep_process.
  destruct (1 <=? j)%nat; [|done]. by destruct (arrived time p).
Qed.

Lemma sweep_at_arrived time j p :
  (1 <= j)%nat -> arrived time p = true ->
  sweep_at time j p = set_queued true p.
Proof.
  intros Hj Ha. unfold sweep_at, sweep_process.
  destruct (1 <=? j)%nat eqn:E; [by rewrite Ha|].
  apply Nat.leb_gt in E. lia.
Qed.

(** The slice of an unfinished process, whichever branch is taken. *)
Lemma RR_dispatch_cases quantum s c curr q :
  0 < quantum -> proc_ok curr -> finished curr = false ->
  exists curr1 time1 count1 metrics1,
    RR_dispatch quantum s c curr q =
      Build_state (<[c := curr1]> (processes_ s)) time1 q count1 metrics1 /\
    proc_ok curr1 /\ queued curr1 = queued curr /\
    rbt curr1 < rbt curr /\
    Z.of_nat count1 = Z.of_nat (finished_count s) + finished01 curr1.
Proof.
  intros Hquantum (Hbt & _ & Hrbt) Hf. specialize (Hrbt Hf).
  destruct (Z_lt_le_dec 0 (rbt curr - quantum)) as [Hlt|Hle].
  - rewrite RR_dispatch_preempt by done.
    eexists _, _, _, _. split; [done|].
    unfold preempted, first_dispatch, proc_ok, finished01.
    destruct (rbt curr =? bt curr); simpl; rewrite Hf;
      repeat split; try done; lia.
  - rewrite RR_dispatch_complete by done.
    eexists _, _, _, _. split; [done|].
    unfold completed, completing, first_dispatch, proc_ok, finished01,
      metrics_exact.
    destruct (rbt curr =? bt curr); simpl; repeat split; try done; lia.
Qed.

Lemma RR_before_recover_inv s c q curr curr1 time1 count1 metrics1 :
  RR_pre_inv s ->
  ready_indexes_queue s = c :: q ->
  processes_ s !! c = Some curr ->
  finished curr = false ->
  proc_ok curr1 -> queued curr1 = queued curr ->
  Z.of_nat count1 = Z.of_nat (finished_count s) + finished01 curr1 ->
  RR_pre_inv
    (RR_before_recover
       (Build_state (<[c := curr1]> (processes_ s)) time1 q count1 metrics1)
       c curr1).
Proof.
  intros (Hne & Hqueue & Hnodup & Hzero & Hcount & Hok) Hq Hc Hf Hok1 Hqd
    Hcount1.
  rewrite Hq in Hqueue, Hnodup, Hzero.
  apply NoDup_cons in Hnodup as [Hcq Hnodup].
  assert (c < length (processes_ s))%nat as Hclt by (by eapply lookup_lt_Some).
  assert (c = 0%nat \/ queued curr1 = true) as Hcflag.
  { destruct (Hqueue c) as (p & Hp & _ & Hflag); [left|].
    rewrite Hc in Hp. injection Hp as <-. by rewrite Hqd. }
  set (procs1 := <[c := curr1]> (processes_ s)).
  assert (forall j, j <> c -> procs1 !! j = processes_ s !! j) as Hother.
  { intros j Hj. unfold procs1. by rewrite list_lookup_insert_ne. }
  assert (procs1 !! c = Some curr1) as Hc1.
  { unfold procs1. by rewrite list_lookup_insert_eq. }
  unfold RR_before_recover, RR_pre_inv. simpl. fold procs1.
  assert (forall i, i ∈ arrival_indexes time1 procs1 -> i <> c) as Harr_c.
  { intros i (Hi & p & Hp & Ha)%arrival_indexes_elem ->.
    rewrite Hc1 in Hp. injection Hp as <-.
    apply arrived_flags in Ha as [Ha _].
    destruct Hcflag; [lia|congruence]. }
  repeat split.
  - intros E. apply (f_equal length) in E.
    rewrite length_imap in E. unfold procs1 in E.
    rewrite length_insert in E. simpl in E. lia.
  - intros i Hi. rewrite list_lookup_imap.
    apply elem_of_app in Hi as [Hi|Hi]; [|apply elem_of_app in Hi as [Hi|Hi]].
    + assert (i <> c) as Hic by (intros ->; done).
      destruct (Hqueue i) as (p & Hp & Hpf & Hflag); [by right|].
      rewrite Hother, Hp by done. simpl. eexists. split; [done|].
      rewrite sweep_at_finished. split; [done|].
      destruct Hflag as [?|Hflag]; [by left|right].
      by apply sweep_at_queued.
    + pose proof Hi as (Hi1 & p & Hp & Ha)%arrival_indexes_elem.
      rewrite Hp. simpl. eexists. split; [done|].
      rewrite sweep_at_arrived by done.
      apply arrived_flags in Ha as [_ Ha]. by split; [|right].
    + destruct (finished curr1) eqn:Hf1; [by apply elem_of_nil in Hi|].
      apply list_elem_of_singleton in Hi as ->.
      rewrite Hc1. simpl. eexists. split; [done|].
      rewrite sweep_at_finished. split; [done|].
      destruct Hcflag as [?|Hflag]; [by left|right].
      by apply sweep_at_queued.
  - apply NoDup_app. split; [done|]. split.
    + intros i Hi [Hi'|Hi']%elem_of_app.
      * pose proof Hi' as (Hi1 & p & Hp & Ha)%arrival_indexes_elem.
        assert (i <> c) as Hic by (intros ->; done).
        rewrite Hother in Hp by done.
        destruct (Hqueue i) as (p' & Hp' & _ & Hflag); [by right|].
        rewrite Hp in Hp'. injection Hp' as <-.
        apply arrived_flags in Ha as [Ha _].
        destruct Hflag; [lia|congruence].
      * destruct (finished curr1); [by apply elem_of_nil in Hi'|].
        apply list_elem_of_singleton in Hi' as ->. done.
    + apply NoDup_app. split; [apply arrival_indexes_NoDup|]. split.
      * intros i Hi Hi'.
        destruct (finished curr1); [by apply elem_of_nil in Hi'|].
        apply list_elem_of_singleton in Hi' as ->. by apply (Harr_c c).
      * destruct (finished curr1); [constructor|apply NoDup_singleton].
  - intros p Hp Hpf. rewrite list_lookup_imap in Hp.
    destruct (decide (c = 0%nat)) as [->|Hc0].
    + rewrite Hc1 in Hp. simpl in Hp. injection Hp as <-.
      unfold sweep_at in Hpf. simpl in Hpf. rewrite Hpf.
      rewrite !elem_of_app. right; right. left.
    + rewrite Hother in Hp by done.
      destruct (processes_ s !! 0%nat) as [p0|] eqn:Hp0; [|done].
      simpl in Hp. injection Hp as <-.
      unfold sweep_at in Hpf. simpl in Hpf.
      specialize (Hzero p0 eq_refl Hpf).
      apply elem_of_cons in Hzero as [?|Hzero]; [done|].
      rewrite elem_of_app. by left.
  - rewrite sum_by_imap by apply sweep_at_finished01.
    unfold procs1. rewrite (sum_by_insert _ _ _ curr) by done.
    unfold finished01 at 2. rewrite Hf. lia.
  - apply Forall_lookup. intros j x Hx.
    rewrite list_lookup_imap in Hx.
    destruct (procs1 !! j) as [y|] eqn:Hy; [|done].
    simpl in Hx. injection Hx as <-. apply sweep_at_ok.
    assert (Forall proc_ok procs1) as Hok'.
    { unfold procs1. by apply Forall_insert. }
    rewrite Forall_lookup in Hok'. by eapply Hok'.
Qed.

(** In a state of the engine with an empty queue and a process left to
    finish, the recovery scan has a process to find: index 0 is
    finished, so the first unfinished process is at index 1 or later. *)
Lemma RR_recovery_finds_unfinished s x :
  RR_pre_inv s -> ready_indexes_queue s = [] ->
  x ∈ processes_ s -> finished x = false ->
  exists i p,
    (1 <= i)%nat /\ processes_ s !! i = Some p /\ finished p = false /\
    forall j y, (1 <= j < i)%nat -> processes_ s !! j = Some y ->
      finished y = true.
Proof.
  intros (Hne & _ & _ & Hzero & _) Hq Hx Hxf. rewrite Hq in Hzero.
  destruct (processes_ s) as [|first rest]; [done|].
  assert (finished first = true) as Hfirst.
  { destruct (finished first) eqn:Hf; [done|].
    by apply (Hzero first eq_refl), elem_of_nil in Hf. }
  apply elem_of_cons in Hx as [->|Hx]; [congruence|].
  destruct (list_find (fun p => finished p = false) rest) as [[i p]|] eqn:Hfind.
  - apply list_find_Some in Hfind as (Hi & Hpf & Hbefore).
    exists (S i), p. repeat split; try done; [lia|].
    intros j y [Hj1 Hj2] Hy. destruct j as [|j]; [lia|]. simpl in Hy.
    specialize (Hbefore j y Hy ltac:(lia)). by destruct (finished y).
  - apply list_find_None in Hfind. rewrite Forall_forall in Hfind.
    by destruct (Hfind x Hx).
Qed.

Lemma RR_after_recover_inv s :
  RR_pre_inv s ->
  exists s',
    RR_after_recover s = Some s' /\ RR_inv s' /\
    length (processes_ s') = length (processes_ s) /\
    sum_by rbt (processes_ s') = sum_by rbt (processes_ s) /\
    finished_count s' = finished_count s.
Proof.
  intros Hpre.
  pose proof Hpre as (Hne & Hqueue & Hnodup & Hzero & Hcount & Hok).
  destruct (ready_indexes_queue s) as [|c q] eqn:Hq.
  2:{ exists s. rewrite RR_after_recover_nonempty by (by rewrite Hq).
      split; [done|]. split; [|done]. split; [done|].
      intros E. congruence. }
  destruct (processes_ s) as [|first rest] eqn:Hp; [done|].
  assert (finished first = true) as Hfirst.
  { destruct (finished first) eqn:Hf; [done|].
    by apply (Hzero first eq_refl), elem_of_nil in Hf. }
  destruct (list_find (fun p => finished p = false) rest) as [[i p]|] eqn:Hfind.
  - apply list_find_Some in Hfind as (Hi & Hpf & Hbefore).
    assert (processes_ s !! S i = Some p) as Hi' by (by rewrite Hp).
    eexists. split.
    { apply (RR_after_recover_found s (S i) p); try done; [lia|].
      intros j x [Hj1 Hj2] Hx. destruct j as [|j]; [lia|].
      rewrite Hp in Hx. simpl in Hx.
      specialize (Hbefore j x Hx ltac:(lia)).
      by destruct (finished x). }
    rewrite Hp. unfold RR_inv, RR_pre_inv. simpl.
    repeat split; try done.
    + intros j ->%list_elem_of_singleton.
      exists (set_queued true p). simpl.
      rewrite list_lookup_insert_eq by (by eapply lookup_lt_Some).
      by split; [|split; [|right]].
    + apply NoDup_singleton.
    + intros p0 [= <-] Hf. congruence.
    + rewrite Hcount.
      pose proof (sum_by_insert finished01 (first :: rest) (S i) p
                    (set_queued true p) Hi) as Hsum.
      simpl in Hsum. rewrite Hsum. unfold finished01. simpl. lia.
    + apply Forall_cons in Hok as [Hok1 Hok].
      constructor; [done|]. apply Forall_insert; [done|].
      rewrite Forall_lookup in Hok. by apply (Hok i p).
    + by rewrite length_insert.
    + pose proof (sum_by_insert rbt (first :: rest) (S i) p
                    (set_queued true p) Hi) as Hsum.
      simpl in Hsum. rewrite Hsum. simpl. lia.
  - apply list_find_None in Hfind. rewrite Forall_forall in Hfind.
    exists s. split.
    { apply RR_after_recover_none; [done|by rewrite Hp|].
      intros j x Hj Hx. rewrite Hp in Hx. destruct j as [|j]; [lia|].
      simpl in Hx. apply list_elem_of_lookup_2 in Hx.
      specialize (Hfind x Hx). by destruct (finished x). }
    split; [split; [exact Hpre|]|by rewrite Hp].
    intros _ x Hx. rewrite Hp in Hx.
    apply elem_of_cons in Hx as [->|Hx]; [done|].
    specialize (Hfind x Hx). by destruct (finished x).
Qed.

(** One turn of the RR loop from a state of the invariant with a process left
    to finish: the body is defined, keeps the invariant and the size of the
    vector, and lowers the total of the remaining bursts. *)
Lemma RR_body_inv quantum s :
  0 < quantum -> RR_inv s ->
  unfinished_remain (length (processes_ s)) s = true ->
  exists s',
    RR_body quantum s = Some s' /\ RR_inv s' /\
    length (processes_ s') = length (processes_ s) /\
    sum_by rbt (processes_ s') < sum_by rbt (processes_ s).
Proof.
  intros Hquantum [Hpre Hempty] Hcond.
  pose proof Hpre as (Hne & Hqueue & Hnodup & Hzero & Hcount & Hok).
  unfold unfinished_remain in Hcond. apply Nat.ltb_lt in Hcond.
  destruct (finished01_some (processes_ s)) as (x & Hx & Hxf); [lia|].
  destruct (ready_indexes_queue s) as [|c q] eqn:Hq.
  { rewrite (Hempty eq_refl x Hx) in Hxf. done. }
  destruct (Hqueue c) as (curr & Hc & Hf & Hflag); [left|].
  assert (proc_ok curr) as Hcurr.
  { rewrite Forall_lookup in Hok. by eapply Hok. }
  destruct (RR_dispatch_cases quantum s c curr q Hquantum Hcurr Hf)
    as (curr1 & time1 & count1 & metrics1 & Hd & Hok1 & Hqd & Hrbt & Hcount1).
  assert (c < length (processes_ s))%nat as Hclt by (by eapply lookup_lt_Some).
  assert (processes_ (RR_dispatch quantum s c curr q) !! c = Some curr1)
    as Hc1.
  { rewrite Hd. simpl. by rewrite list_lookup_insert_eq. }
  rewrite (RR_body_step _ _ _ _ _ _ Hq Hc Hc1), Hd.
  assert (RR_pre_inv
            (RR_before_recover
               (Build_state (<[c := curr1]> (processes_ s)) time1 q count1
                  metrics1) c curr1)) as Hpre2.
  { by eapply RR_before_recover_inv. }
  destruct (RR_after_recover_inv _ Hpre2)
    as (s' & Hs' & Hinv' & Hlen & Hsum & _).
  exists s'. split; [done|]. split; [done|].
  unfold RR_before_recover in Hlen, Hsum. simpl in Hlen, Hsum.
  rewrite length_imap, length_insert in Hlen. split; [done|].
  rewrite Hsum, sum_by_imap by apply sweep_at_rbt.
  rewrite (sum_by_insert _ _ _ curr) by done. lia.
Qed.

Lemma well_formed_ok p : well_formed p -> proc_ok p.
Proof.
  intros (-> & _ & Hbt). unfold proc_ok. simpl in *.
  repeat split; try done; lia.
Qed.

Lemma sum_by_rbt_well_formed l :
  Forall well_formed l -> sum_by rbt l = sum_by bt l.
Proof.
  induction 1 as [|x xs Hx _ IH]; simpl; [done|].
  destruct Hx as (Hx & _). rewrite IH, Hx. done.
Qed.

Lemma RR_init_inv sorted :
  sorted <> [] -> Forall well_formed sorted -> RR_inv (RR_init sorted).
Proof.
  intros Hne Hwf. unfold RR_inv, RR_pre_inv, RR_init. simpl.
  destruct sorted as [|first rest]; [done|].
  repeat split; try done.
  - intros i ->%list_elem_of_singleton. exists first. simpl.
    split; [done|]. split; [|by left].
    apply (well_formed_unfinished (first :: rest)); [done|left].
  - apply NoDup_singleton.
  - intros. left.
  - symmetry. apply (finished01_none (first :: rest)).
    intros p Hp. by eapply well_formed_unfinished.
  - eapply Forall_impl; [exact Hwf|]. apply well_formed_ok.
Qed.

Lemma RR_loop_inv_step quantum n s :
  0 < quantum -> RR_loop_inv n s -> unfinished_remain n s = true ->
  exists s',
    RR_body quantum s = Some s' /\ RR_loop_inv n s' /\
    (Z.to_nat (sum_by rbt (processes_ s')) <
     Z.to_nat (sum_by rbt (processes_ s)))%nat.
Proof.
  intros Hquantum [Hinv <-] Hcond.
  destruct (RR_body_inv quantum s Hquantum Hinv Hcond)
    as (s' & Hs' & Hinv' & Hlen & Hsum).
  exists s'. split; [done|]. split; [done|].
  assert (0 <= sum_by rbt (processes_ s')).
  { apply sum_by_nonneg. intros p Hp.
    destruct Hinv' as [(_ & _ & _ & _ & _ & Hok) _].
    rewrite Forall_forall in Hok.
    destruct (Hok p Hp) as (_ & Hfin & Hunf).
    destruct (finished p); [destruct Hfin; [done|]|specialize (Hunf eq_refl)];
      lia. }
  lia.
Qed.

(** Every process is finished, with exact metrics, when the RR loop
    returns. *)
Lemma RR_Start_returned quantum S fuel l r :
  0 < quantum -> Forall well_formed l ->
  RR_Start quantum S fuel l = Returned r ->
  length (final_processes r) = length l /\
  forall p, p ∈ final_processes r -> finished p = true /\ metrics_exact p.
Proof.
  intros Hquantum Hl Hr. unfold RR_Start in Hr.
  apply map_outcome_returned in Hr as (s & Hs & ->). simpl.
  pose proof (std_sort_perm S l) as Hperm.
  destruct (decide (l = [])) as [->|Hne].
  { apply Permutation_nil_r in Hperm. rewrite Hperm in Hs.
    destruct fuel; simpl in Hs; injection Hs as <-; simpl;
      (split; [done|]); by intros p ?%elem_of_nil. }
  apply (while_loop_returned_inv _ _ (RR_loop_inv (length l))) in Hs
    as ([[Hpre _] Hlen] & Hcond).
  - split; [done|]. intros p Hp.
    destruct Hpre as (_ & _ & _ & _ & Hcount & Hok).
    assert (finished p = true) as Hf.
    { apply (finished01_all (processes_ s)); [|done].
      unfold unfinished_remain in Hcond. rewrite <- Hcount, Hlen.
      apply Nat.ltb_ge in Hcond. lia. }
    split; [done|]. rewrite Forall_forall in Hok.
    destruct (Hok p Hp) as (_ & Hfin & _). by apply Hfin.
  - intros s0 s' Hs0 Hcond Hbody.
    destruct (RR_loop_inv_step quantum _ s0 Hquantum Hs0 Hcond)
      as (s'' & Hs'' & Hinv & _).
    rewrite Hbody in Hs''. by injection Hs'' as ->.
  - split; [|simpl; by apply Permutation_length].
    apply RR_init_inv.
    + intros E. rewrite E in Hperm. by apply Permutation_nil_l in Hperm.
    + by rewrite Hperm.
Qed.

(** On well-formed input and with a positive quantum the RR run returns:
    every turn lowers the total of the remaining bursts by at least one. *)
Lemma RR_Start_terminates quantum S l :
  0 < quantum -> Forall well_formed l ->
  exists r, RR_Start quantum S (Z.to_nat (sum_by bt l)) l = Returned r.
Proof.
  intros Hquantum Hl. unfold RR_Start.
  pose proof (std_sort_perm S l) as Hperm.
  destruct (decide (l = [])) as [->|Hne].
  { simpl. eauto. }
  destruct (while_loop_terminates (unfinished_remain (length l))
              (RR_body quantum) (RR_loop_inv (length l))
              (fun s => Z.to_nat (sum_by rbt (processes_ s)))
              (Z.to_nat (sum_by bt l)) (RR_init (std_sort S l)))
    as (s & Hs).
  - intros s Hs Hcond. by apply RR_loop_inv_step.
  - split; [|simpl; by apply Permutation_length].
    apply RR_init_inv.
    + intros E. rewrite E in Hperm. by apply Permutation_nil_l in Hperm.
    + by rewrite Hperm.
  - simpl. rewrite <- (sum_by_perm bt _ _ Hperm).
    rewrite sum_by_rbt_well_formed by (by rewrite Hperm). lia.
  - rewrite Hs. simpl. eauto.
Qed.

(** C8 at its failing input: the one-process list [(0, INT_MAX)] is
    well-formed; FCFS completes its process at [INT_MAX] and the RR loop
    returns on it, but the SJF loop never finishes, whatever the fuel. *)
Theorem C8_SJF_INT_MAX_burst_never_returns :
  let input := [new_Process 0 INT_MAX] in
  Forall well_formed input /\
  (forall fuel, SJF_Start fuel input = OutOfFuel) /\
  (forall S, map ct (final_processes (FCFS_Start S input)) = [INT_MAX]) /\
  (forall S, exists fuel r, RR_Start 2 S fuel input = Returned r).
Proof.
  assert (Forall well_formed [new_Process 0 INT_MAX]) as Hwf.
  { repeat constructor; simpl; unfold INT_MAX; lia. }
  split; [exact Hwf|]. split; [|split].
  - intros fuel. unfold SJF_Start, SJF_init. simpl length.
    by rewrite SJF_INT_MAX_idles.
  - intros S. rewrite FCFS_Start_pass.
    pose proof (std_sort_perm S [new_Process 0 INT_MAX]) as Hperm.
    apply Permutation_singleton_r in Hperm. by rewrite Hperm.
  - intros S.
    destruct (RR_Start_terminates 2 S [new_Process 0 INT_MAX]) as (r & Hr);
      [lia|exact Hwf|eauto].
Qed.

Lemma FCFS_pass_exact l : forall prev p,
  p ∈ FCFS_pass prev l -> metrics_exact p.
Proof.
  induction l as [|x l IH]; intros prev p Hp; simpl in Hp.
  - by apply elem_of_nil in Hp.
  - apply elem_of_cons in Hp as [->|Hp]; [by repeat split|by eapply IH].
Qed.

Lemma readme_input_well_formed : Forall well_formed readme_input.
Proof. repeat constructor; simpl; lia. Qed.

(** ** [ParseFile] *)

Lemma parse_token_step line s k t :
  parse_token line (s, k) t =
    (Build_parse_state
       (if (k =? 0)%nat then field_after (var_at s) (Some t) else var_at s)
       (if (k =? 1)%nat then field_after (var_bt s) (Some t) else var_bt s)
       (result s)
       (cerr s ++ if reported k t then [bad_format line] else []),
     S k).
Proof.
  unfold parse_token, reported, field_after.
  destruct k as [|[|k]]; simpl.
  - destruct (extract_int t) as [v [|]|]; simpl; by rewrite ?app_nil_r.
  - destruct (extract_int t) as [v [|]|]; simpl; by rewrite ?app_nil_r.
  - done.
Qed.

Lemma parse_tokens_spec line tokens : forall s k,
  let r := (foldl (parse_token line) (s, k) tokens).1 in
  var_at r =
    (if (k =? 0)%nat then field_after (var_at s) (tokens !! 0%nat)
     else var_at s) /\
  var_bt r =
    match k with
    | 0%nat => field_after (var_bt s) (tokens !! 1%nat)
    | 1%nat => field_after (var_bt s) (tokens !! 0%nat)
    | _ => var_bt s
    end /\
  result r = result s /\
  cerr r = cerr s ++ replicate (reports_from k tokens) (bad_format line).
Proof.
  induction tokens as [|t tokens IH]; intros s k.
  - simpl. destruct k as [|[|k]]; simpl; by rewrite app_nil_r.
  - cbn [foldl]. rewrite parse_token_step.
    match goal with
    | |- context [foldl _ (?s1, S k) tokens] =>
        destruct (IH s1 (S k)) as (Ha & Hb & Hr & Hc)
    end.
    cbv zeta. rewrite Ha, Hb, Hr, Hc. clear Ha Hb Hr Hc.
    cbn [var_at var_bt result cerr reports_from].
    destruct k as [|[|k]]; cbn [Nat.eqb lookup list_lookup];
      (split; [done|]); (split; [done|]); (split; [done|]);
      rewrite <- app_assoc; f_equal; by destruct (reported _ t).
Qed.

Lemma parse_line_spec s line :
  let now := line_fields (var_at s, var_bt s) line in
  var_at (parse_line s line) = now.1 /\
  var_bt (parse_line s line) = now.2 /\
  result (parse_line s line) = result s ++ [new_Process now.1 now.2] /\
  cerr (parse_line s line) =
    cerr s ++
    replicate (reports_from 0 (getlines " " line)) (bad_format line).
Proof.
  unfold parse_line.
  destruct (parse_tokens_spec line (getlines " " line) s 0%nat)
    as (Ha & Hb & Hr & Hc).
  destruct (foldl (parse_token line) (s, 0%nat) (getlines " " line))
    as [s' k']. simpl in *.
  by rewrite Ha, Hb, Hr, Hc.
Qed.

Lemma parse_lines_spec lines : forall s,
  let r := foldl parse_line s lines in
  result r =
    result s ++
    ((fun ab => new_Process ab.1 ab.2) <$>
       running_fields (var_at s, var_bt s) lines) /\
  exists reports, cerr r = cerr s ++ reports.
Proof.
  induction lines as [|line lines IH]; intros s; simpl.
  - rewrite app_nil_r. split; [done|]. exists []. by rewrite app_nil_r.
  - destruct (IH (parse_line s line)) as (Hr & reports & Hc).
    destruct (parse_line_spec s line) as (Ha & Hb & Hr' & Hc').
    rewrite Hr, Hr', Ha, Hb, <- app_assoc. split; [done|].
    rewrite Hc, Hc', <- app_assoc. eauto.
Qed.

Lemma running_fields_length lines : forall before,
  length (running_fields before lines) = length lines.
Proof.
  induction lines as [|l lines IH]; intros b; simpl; [done|].
  by rewrite IH.
Qed.

Lemma running_fields_lookup lines : forall before k line,
  lines !! k = Some line ->
  exists prev, running_fields before lines !! k = Some (line_fields prev line).
Proof.
  induction lines as [|l lines IH]; intros before k line Hk; [done|].
  destruct k as [|k]; simpl in *.
  - injection Hk as ->. eauto.
  - by apply IH.
Qed.

Lemma reads_as_fields line a b prev :
  reads_as line a b -> line_fields prev line = (a, b).
Proof.
  intros (ta & tb & Htok & Ha & Hb). unfold line_fields, field_after.
  rewrite Htok. simpl. by rewrite Ha, Hb.
Qed.

Lemma reports_from_pos tokens : forall k j t,
  tokens !! j = Some t -> reported (k + j) t = true ->
  (0 < reports_from k tokens)%nat.
Proof.
  induction tokens as [|x tokens IH]; intros k j t Hj Hrep; [done|].
  destruct j as [|j]; simpl in *.
  - injection Hj as ->. rewrite Nat.add_0_r in Hrep. rewrite Hrep. lia.
  - rewrite <- Nat.add_succ_comm in Hrep.
    specialize (IH (S k) j t Hj Hrep). lia.
Qed.

Lemma malformed_reports line :
  malformed line -> (0 < reports_from 0 (getlines " " line))%nat.
Proof.
  intros [Hlen|(k & t & Hk & Ht & Hfail)].
  - destruct (lookup_lt_is_Some_2 (getlines " " line) 2 Hlen) as [t Ht].
    by apply (reports_from_pos _ 0 2 t).
  - apply (reports_from_pos _ 0 k t); [done|].
    unfold reported. simpl. rewrite Hfail. apply orb_true_r.
Qed.

Lemma parse_lines_reports lines line s :
  line ∈ lines -> malformed line ->
  bad_format line ∈ cerr (foldl parse_line s lines).
Proof.
  intros (l1 & l2 & ->)%list_elem_of_split Hbad.
  rewrite foldl_app. simpl.
  destruct (parse_lines_spec l2 (parse_line (foldl parse_line s l1) line))
    as (_ & reports & ->).
  destruct (parse_line_spec (foldl parse_line s l1) line) as (_ & _ & _ & ->).
  apply malformed_reports in Hbad.
  destruct (reports_from 0 (getlines " " line)) as [|n]; [lia|].
  simpl. rewrite !elem_of_app. left. right. left.
Qed.

(** C9, as the code has it: a line with more than two tokens, or with a
    first or second token from which no [int] is read (no leading number, as
    in "0 abc", an empty token, a number out of range), is reported on
    [std::cerr], and no line stops the ingestion: there is one process per
    line, a later line of two tokens that are read as [a] and [b] gives the
    process of arrival [a] and burst [b] whatever came before it, and a file
    with such a line gives a non-empty list. *)
Theorem C9_parse_reports_and_continues (contents : string) :
  let lines := getlines newline contents in
  let processes := (ParseFile (Some contents)).1 in
  let errors := (ParseFile (Some contents)).2 in
  length processes = length lines /\
  (forall line, line ∈ lines -> malformed line ->
     bad_format line ∈ errors) /\
  (forall k line a b, lines !! k = Some line -> reads_as line a b ->
     processes !! k = Some (new_Process a b)) /\
  ((exists line a b, line ∈ lines /\ reads_as line a b) -> processes <> []).
Proof.
  simpl.
  destruct (parse_lines_spec (getlines newline contents) parse_init)
    as (Hr & _). simpl in Hr.
  assert (forall k line a b,
            getlines newline contents !! k = Some line -> reads_as line a b ->
            result (foldl parse_line parse_init (getlines newline contents))
              !! k = Some (new_Process a b)) as Hline.
  { intros k line a b Hk Hread. rewrite Hr, list_lookup_fmap.
    destruct (running_fields_lookup _ (0, 0) k line Hk) as (prev & ->).
    by rewrite (reads_as_fields line a b prev Hread). }
  split; [|split; [|split]].
  - by rewrite Hr, length_fmap, running_fields_length.
  - intros line Hin Hbad. by apply parse_lines_reports.
  - exact Hline.
  - intros (line & a & b & Hin & Hread).
    apply list_elem_of_lookup_1 in Hin as [k Hk].
    intros E. specialize (Hline k line a b Hk Hread).
    by rewrite E in Hline.
Qed.

Lemma C9_parse_reports_and_continues_witness :
  malformed "0 abc" /\ reads_as "4 6" 4 6 /\
  (ParseFile (Some ("0 abc" ++ nl ++ "4 6" ++ nl)%string)).1 !! 1%nat =
    Some (new_Process 4 6) /\
  bad_format "0 abc" ∈
    (ParseFile (Some ("0 abc" ++ nl ++ "4 6" ++ nl)%string)).2.
Proof.
  assert (malformed "0 abc") as Hbad.
  { right. exists 1%nat, "abc"%string.
    split; [lia|]. split; reflexivity. }
  assert (reads_as "4 6" 4 6) as Hread.
  { exists "4"%string, "6"%string. repeat split. }
  split; [exact Hbad|]. split; [exact Hread|].
  destruct (C9_parse_reports_and_continues ("0 abc" ++ nl ++ "4 6" ++ nl))
    as (_ & Herr & Hline & _).
  split.
  - apply (Hline 1%nat "4 6"%string 4 6); [reflexivity|exact Hread].
  - apply Herr; [|exact Hbad]. left.
Defined.

(** C9, as the claim words it, does not hold of every non-numeric token: a
    token that starts with a number and goes on with other characters is
    read as that number, and nothing is reported. *)
Lemma C9_numeric_prefix_token_not_reported :
  numeric "12abc" = false /\
  ParseFile (Some "0 12abc"%string) = ([new_Process 0 12], []).
Proof. split; reflexivity. Qed.

(** C10, as the code has it: one process per line, whatever the line; the
    fields of the process of a line are the two variables after that line,
    and a variable is left as it was by a missing token and by a token on
    which extraction is not attempted (empty or blank), and overwritten by
    any other token, with 0 when the token has no leading number and with
    the nearest bound when the number is out of range. *)
Theorem C10_one_record_per_line (contents : string) :
  let lines := getlines newline contents in
  let processes := (ParseFile (Some contents)).1 in
  length processes = length lines /\
  processes =
    ((fun ab => new_Process ab.1 ab.2) <$> running_fields (0, 0) lines) /\
  (forall before, field_after before None = before) /\
  (forall before t, extract_int t = NotWritten ->
     field_after before (Some t) = before) /\
  (forall before t v fail, extract_int t = Written v fail ->
     field_after before (Some t) = v) /\
  extract_int "" = NotWritten /\
  extract_int "abc" = Written 0 true /\
  extract_int "99999999999" = Written INT_MAX true /\
  extract_int "-99999999999" = Written INT_MIN true.
Proof.
  simpl.
  destruct (parse_lines_spec (getlines newline contents) parse_init)
    as (Hr & _). simpl in Hr.
  split; [by rewrite Hr, length_fmap, running_fields_length|].
  split; [done|].
  unfold field_after.
  split; [done|]. split; [by intros before t ->|].
  split; [by intros before t v fail ->|].
  repeat split.
Qed.

(** C10, as the claim words it, does not hold: a token that fails to parse
    does not leave the carried value in the field.  After the line "5 7",
    the line "3 abc" gives burst 0, not 7. *)
Lemma C10_failed_token_overwrites_field :
  extraction_fails (extract_int "abc") = true /\
  (ParseFile (Some ("5 7" ++ nl ++ "3 abc")%string)).1 =
    [new_Process 5 7; new_Process 3 0] /\
  (ParseFile (Some ("5 7" ++ nl ++ "3 abc")%string)).1 <>
    [new_Process 5 7; new_Process 3 7].
Proof. repeat split; try reflexivity. discriminate. Qed.

(** The README file gives [readme_input], without a report. *)
Lemma ParseFile_readme :
  ParseFile
    (Some ("0 20" ++ nl ++ "0 10" ++ nl ++ "4 6" ++ nl ++ "4 8" ++ nl)%string) =
    (readme_input, []).
Proof. reflexivity. Qed.

(** Whatever the file, the fields of the processes returned are [int]
    values, and the processes are as [new_Process] builds them. *)
Lemma extract_int_range t v fail :
  extract_int t = Written v fail -> INT_MIN <= v <= INT_MAX.
Proof.
  unfold extract_int. destruct (skip_ws t) as [|c s']; [done|].
  destruct (if Ascii.eqb c "-" then (true, s')
            else if Ascii.eqb c "+" then (false, s')
            else (false, String c s')) as [negative digits].
  destruct (leading_digits digits 0 false) as [value [|]].
  - destruct (_ <? INT_MIN) eqn:Hmin;
      [intros [= <- _]; unfold INT_MIN, INT_MAX; lia|].
    destruct (INT_MAX <? _) eqn:Hmax; intros [= <- _];
      unfold INT_MIN, INT_MAX in *; lia.
  - intros [= <- _]. unfold INT_MIN, INT_MAX. lia.
Qed.

Lemma field_after_range before token :
  INT_MIN <= before <= INT_MAX ->
  INT_MIN <= field_after before token <= INT_MAX.
Proof.
  intros Hb. unfold field_after. destruct token as [t|]; [|done].
  destruct (extract_int t) as [v f|] eqn:Ht; [|done].
  by eapply extract_int_range.
Qed.

Lemma running_fields_range lines : forall before,
  INT_MIN <= before.1 <= INT_MAX -> INT_MIN <= before.2 <= INT_MAX ->
  Forall (fun ab => INT_MIN <= ab.1 <= INT_MAX /\ INT_MIN <= ab.2 <= INT_MAX)
    (running_fields before lines).
Proof.
  induction lines as [|line lines IH]; intros before Ha Hb; simpl;
    [constructor|].
  assert (INT_MIN <= (line_fields before line).1 <= INT_MAX) as Ha'
    by (by apply field_after_range).
  assert (INT_MIN <= (line_fields before line).2 <= INT_MAX) as Hb'
    by (by apply field_after_range).
  constructor; [done|]. by apply IH.
Qed.

(** X2: every process that [ParseFile] returns is as line 340 builds it
    from the two numbers of its line: its remaining burst time [rbt] is its
    burst time, every member other than [at], [bt] and [rbt] is zero or
    false, and its arrival and burst times are within the range of [int],
    whatever the file holds. *)
Lemma ParseFile_int_fields file p :
  p ∈ (ParseFile file).1 ->
  p = new_Process (p_at p) (bt p) /\
  rbt p = bt p /\
  st p = 0 /\ ct p = 0 /\ tt p = 0 /\ rt p = 0 /\ wt p = 0 /\
  queued p = false /\ finished p = false /\
  INT_MIN <= p_at p <= INT_MAX /\ INT_MIN <= bt p <= INT_MAX.
Proof.
  destruct file as [contents|]; simpl; [|by intros ?%elem_of_nil].
  destruct (parse_lines_spec (getlines newline contents) parse_init)
    as (-> & _). simpl.
  intros ([a b] & -> & Hab)%list_elem_of_fmap. simpl.
  split_and!; try done.
  all: pose proof (running_fields_range (getlines newline contents) (0, 0))
         as H;
       rewrite Forall_forall in H;
       apply (H ltac:(unfold INT_MIN, INT_MAX; simpl; lia)
                ltac:(unfold INT_MIN, INT_MAX; simpl; lia) (a, b) Hab).
Qed.

(** * Further properties *)

(** ** [ParseFile]: what is reported *)

Lemma reports_from_pos_inv tokens : forall k,
  (0 < reports_from k tokens)%nat ->
  exists j t, tokens !! j = Some t /\ reported (k + j) t = true.
Proof.
  induction tokens as [|x tokens IH]; intros k Hpos; simpl in Hpos; [lia|].
  destruct (reported k x) eqn:Hx.
  - exists 0%nat, x. by rewrite Nat.add_0_r.
  - destruct (IH (S k)) as (j & t & Hj & Ht); [lia|].
    exists (S j), t. split; [done|]. by rewrite <- Nat.add_succ_comm.
Qed.

Lemma reports_malformed line :
  (0 < reports_from 0 (getlines " " line))%nat -> malformed line.
Proof.
  intros (j & t & Hj & Ht)%reports_from_pos_inv. simpl in Ht.
  unfold reported in Ht. destruct (1 <? j)%nat eqn:Hlt.
  - left. apply Nat.ltb_lt in Hlt. apply lookup_lt_Some in Hj. lia.
  - right. exists j, t. apply Nat.ltb_ge in Hlt. simpl in Ht.
    split; [lia|]. by split.
Qed.

Lemma parse_lines_cerr lines : forall s,
  cerr (foldl parse_line s lines) =
    cerr s ++
    mjoin ((fun line =>
               replicate (reports_from 0 (getlines " " line))
                 (bad_format line)) <$> lines).
Proof.
  induction lines as [|line lines IH]; intros s; simpl.
  - by rewrite app_nil_r.
  - rewrite IH. destruct (parse_line_spec s line) as (_ & _ & _ & ->).
    by rewrite <- app_assoc.
Qed.

(** X1: the lines written to [std::cerr] are exactly the reports of the
    malformed lines of the file: a line with at most two tokens, each read
    without failure, is never reported. *)
Theorem ParseFile_reports_exactly_malformed (contents x : string) :
  x ∈ (ParseFile (Some contents)).2 <->
  exists line,
    line ∈ getlines newline contents /\ malformed line /\ x = bad_format line.
Proof.
  simpl. rewrite parse_lines_cerr. simpl.
  rewrite list_elem_of_join. split.
  - intros (reports & Hx & Hin).
    apply list_elem_of_fmap in Hin as (line & -> & Hline).
    apply elem_of_replicate in Hx as [-> Hn].
    exists line. split; [done|]. split; [|done].
    apply reports_malformed. lia.
  - intros (line & Hline & Hbad & ->).
    exists (replicate (reports_from 0 (getlines " " line)) (bad_format line)).
    split.
    + apply elem_of_replicate. split; [done|].
      apply malformed_reports in Hbad. lia.
    + apply list_elem_of_fmap. eauto.
Qed.

Lemma ParseFile_int_fields_witness :
  new_Process 4 6 ∈ (ParseFile (Some ("0 abc" ++ nl ++ "4 6")%string)).1 /\
  rbt (new_Process 4 6) = bt (new_Process 4 6) /\
  INT_MIN <= 4 <= INT_MAX.
Proof.
  assert (new_Process 4 6 ∈
            (ParseFile (Some ("0 abc" ++ nl ++ "4 6")%string)).1) as Hin.
  { right. left. }
  split; [exact Hin|].
  pose proof (ParseFile_int_fields _ _ Hin)
    as (_ & Hrbt & _ & _ & _ & _ & _ & _ & _ & Hat & _).
  split; [exact Hrbt|exact Hat].
Defined.

(** ** [ParseFile]: a file written in the input format is read back *)

Lemma of_lu_rev_digit d :
  d <> Decimal.Nil ->
  DecimalPos.Unsigned.of_lu (Decimal.rev d) =
    (DecimalPos.Unsigned.of_lu (Decimal.rev (DecimalPos.Unsigned.tl d)) +
     DecimalPos.Unsigned.hd d * 10 ^ DecimalPos.Unsigned.usize (DecimalPos.Unsigned.tl d))%N.
Proof.
  destruct d; [done|..]; intros _; unfold Decimal.rev at 1;
    cbn [Decimal.revapp DecimalPos.Unsigned.tl DecimalPos.Unsigned.hd];
    rewrite DecimalPos.Unsigned.of_lu_revapp; cbn [DecimalPos.Unsigned.of_lu]; f_equal; lia.
Qed.

Lemma leading_digits_uint d : forall a seen,
  leading_digits (DecimalString.NilEmpty.string_of_uint d) (Z.of_N a) seen =
    (Z.of_N (DecimalPos.Unsigned.of_lu (Decimal.rev d) + a * 10 ^ DecimalPos.Unsigned.usize d),
     seen || match d with Decimal.Nil => false | _ => true end).
Proof.
  induction d; intros a seen;
    try (simpl; rewrite N.mul_1_r, orb_false_r; reflexivity);
    cbn [DecimalString.NilEmpty.string_of_uint leading_digits DecimalPos.Unsigned.usize];
    (match goal with
     | |- context [isdigit ?c] =>
         change (isdigit c) with true; cbv iota;
         match goal with
         | |- context [10 * Z.of_N a + digit_value c] =>
             let k := eval vm_compute in (Z.to_N (digit_value c)) in
             replace (10 * Z.of_N a + digit_value c)
               with (Z.of_N (10 * a + k)%N)
               by (change (digit_value c) with (Z.of_N k); lia)
         end
     end);
    rewrite IHd, orb_true_r; f_equal; f_equal;
    match goal with
    | |- context [Decimal.rev (?D d)] =>
        rewrite (of_lu_rev_digit (D d)) by discriminate
    end;
    cbn [DecimalPos.Unsigned.tl DecimalPos.Unsigned.hd]; rewrite N.pow_succ_r'; ring.
Qed.

Lemma uint_string_head d :
  d <> Decimal.Nil ->
  exists c s',
    DecimalString.NilEmpty.string_of_uint d = String c s' /\ isdigit c = true.
Proof. destruct d; [done|..]; intros _; simpl; eauto. Qed.

Lemma isdigit_not_space c : isdigit c = true -> isspace c = false.
Proof.
  unfold isdigit, isspace. intros H.
  apply andb_true_iff in H as [H1 H2].
  apply Nat.leb_le in H1. apply Nat.leb_le in H2.
  apply orb_false_iff. split.
  - apply Nat.eqb_neq. lia.
  - apply andb_false_iff. right. apply Nat.leb_gt. lia.
Qed.

Lemma isdigit_not_sign c :
  isdigit c = true -> Ascii.eqb c "-" = false /\ Ascii.eqb c "+" = false.
Proof.
  intros H. split; apply Ascii.eqb_neq; intros ->; discriminate H.
Qed.

Lemma leading_digits_pos p :
  leading_digits (DecimalString.NilEmpty.string_of_uint (Pos.to_uint p)) 0 false =
    (Z.pos p, true).
Proof.
  rewrite (leading_digits_uint _ 0%N false).
  rewrite N.mul_0_l, N.add_0_r, <- DecimalPos.Unsigned.of_uint_alt, DecimalPos.Unsigned.of_to.
  pose proof (DecimalPos.Unsigned.to_uint_nonnil p).
  by destruct (Pos.to_uint p).
Qed.

Lemma extract_int_decimal z :
  INT_MIN <= z <= INT_MAX -> extract_int (decimal z) = Written z false.
Proof.
  intros Hz. unfold decimal, Z.to_int.
  destruct z as [|p|p]; [reflexivity|..];
    cbn [DecimalString.NilZero.string_of_int]; unfold DecimalString.NilZero.string_of_uint;
    pose proof (DecimalPos.Unsigned.to_uint_nonnil p) as Hnil;
    pose proof (leading_digits_pos p) as Hdigits;
    destruct (uint_string_head _ Hnil) as (c & s' & Hs & Hc);
    destruct (Pos.to_uint p) eqn:Hp; try done; rewrite <- Hp in *.
  all: unfold extract_int.
  all: try (rewrite Hs in *; cbn [skip_ws];
            rewrite (isdigit_not_space c Hc);
            destruct (isdigit_not_sign c Hc) as [-> ->];
            rewrite Hdigits).
  all: try (cbn [skip_ws]; change (isspace "-") with false; cbv iota;
            rewrite Ascii.eqb_refl, Hdigits).
  all: cbv iota beta.
  all: destruct (_ <? INT_MIN) eqn:H1; [unfold INT_MIN, INT_MAX in *; lia|].
  all: destruct (INT_MAX <? _) eqn:H2; [unfold INT_MIN, INT_MAX in *; lia|].
  all: reflexivity.
Qed.

Lemma string_app_assoc (a b c : string) :
  ((a ++ b) ++ c = a ++ (b ++ c))%string.
Proof. induction a as [|x a IH]; simpl; [done|]. by rewrite IH. Qed.

Lemma string_app_nil_r (a : string) : (a ++ "")%string = a.
Proof. induction a as [|x a IH]; simpl; [done|]. by rewrite IH. Qed.

Lemma getline_pieces_delim delim s1 : forall rest piece extracted,
  free_of delim s1 = true ->
  getline_pieces delim (s1 ++ String delim rest) piece extracted =
    (piece ++ s1)%string :: getline_pieces delim rest EmptyString false.
Proof.
  induction s1 as [|c s1 IH]; intros rest piece extracted Hfree; simpl.
  - by rewrite Ascii.eqb_refl, string_app_nil_r.
  - simpl in Hfree. apply andb_true_iff in Hfree as [Hc Hfree].
    apply negb_true_iff in Hc. rewrite Hc, IH by done.
    by rewrite string_app_assoc.
Qed.

Lemma getline_pieces_end delim s1 : forall piece extracted,
  free_of delim s1 = true -> s1 <> EmptyString ->
  getline_pieces delim s1 piece extracted = [(piece ++ s1)%string].
Proof.
  induction s1 as [|c s1 IH]; intros piece extracted Hfree Hne; [done|].
  simpl in *. apply andb_true_iff in Hfree as [Hc Hfree].
  apply negb_true_iff in Hc. rewrite Hc.
  destruct s1 as [|c' s1'].
  - simpl. done.
  - rewrite IH by done. by rewrite string_app_assoc.
Qed.

Lemma numeral_chars_free delim s :
  isdigit delim = false -> Ascii.eqb delim "-" = false ->
  numeral_chars s = true -> free_of delim s = true.
Proof.
  intros Hd Hm. induction s as [|c s IH]; simpl; [done|].
  intros [Hc Hs]%andb_true_iff. rewrite IH by done.
  rewrite andb_true_r. apply negb_true_iff, Ascii.eqb_neq. intros ->.
  rewrite Hd in Hc. simpl in Hc.
  by rewrite Hm in Hc.
Qed.

Lemma numeral_chars_uint d : numeral_chars (DecimalString.NilEmpty.string_of_uint d) = true.
Proof. induction d; simpl; done. Qed.

Lemma numeral_chars_decimal z : numeral_chars (decimal z) = true.
Proof.
  unfold decimal, Z.to_int.
  destruct z as [|p|p]; [done|..]; cbn [DecimalString.NilZero.string_of_int];
    unfold DecimalString.NilZero.string_of_uint;
    pose proof (numeral_chars_uint (Pos.to_uint p)) as H;
    destruct (Pos.to_uint p); try done.
Qed.

Lemma decimal_nonempty z : decimal z <> EmptyString.
Proof.
  unfold decimal, Z.to_int.
  destruct z as [|p|p]; [done|..]; cbn [DecimalString.NilZero.string_of_int];
    unfold DecimalString.NilZero.string_of_uint; [|done].
  pose proof (DecimalPos.Unsigned.to_uint_nonnil p). by destruct (Pos.to_uint p).
Qed.

Lemma free_of_app delim a b :
  free_of delim (a ++ b) = free_of delim a && free_of delim b.
Proof.
  induction a as [|c a IH]; simpl; [done|]. by rewrite IH, andb_assoc.
Qed.

Lemma process_line_tokens ab :
  getlines " " (process_line ab) = [decimal ab.1; decimal ab.2].
Proof.
  unfold getlines, process_line. simpl.
  rewrite getline_pieces_delim
    by (by apply numeral_chars_free, numeral_chars_decimal).
  rewrite getline_pieces_end;
    [done|by apply numeral_chars_free, numeral_chars_decimal
    |apply decimal_nonempty].
Qed.

Lemma process_line_reads_as ab :
  INT_MIN <= ab.1 <= INT_MAX -> INT_MIN <= ab.2 <= INT_MAX ->
  reads_as (process_line ab) ab.1 ab.2.
Proof.
  intros Ha Hb. exists (decimal ab.1), (decimal ab.2).
  split; [apply process_line_tokens|].
  split; by apply extract_int_decimal.
Qed.

Lemma process_file_lines l :
  getlines newline (process_file l) = process_line <$> l.
Proof.
  unfold getlines. induction l as [|ab l IH]; [done|].
  cbn [process_file fmap list_fmap]. unfold nl. simpl.
  rewrite getline_pieces_delim; [by rewrite IH|].
  unfold process_line. rewrite !free_of_app. simpl.
  rewrite !numeral_chars_free; try done; apply numeral_chars_decimal.
Qed.

Lemma running_fields_printed l : forall before,
  Forall int_pair l ->
  running_fields before (process_line <$> l) = l.
Proof.
  induction l as [|ab l IH]; intros before Hl; [done|].
  apply Forall_cons in Hl as [[Ha Hb] Hl]. simpl.
  rewrite (reads_as_fields _ ab.1 ab.2 before)
    by (by apply process_line_reads_as).
  rewrite IH by done. by destruct ab.
Qed.

Lemma printed_line_no_report ab :
  int_pair ab -> reports_from 0 (getlines " " (process_line ab)) = 0%nat.
Proof.
  intros [Ha Hb]. rewrite process_line_tokens. simpl. unfold reported.
  by rewrite !extract_int_decimal.
Qed.

Lemma ParseFile_written_file (l : list (Z * Z)) :
  Forall int_pair l ->
  ParseFile (Some (process_file l)) =
    ((fun ab => new_Process ab.1 ab.2) <$> l, []).
Proof.
  intros Hl. unfold ParseFile.
  destruct (parse_lines_spec (getlines newline (process_file l)) parse_init)
    as (Hr & _).
  rewrite Hr, parse_lines_cerr, process_file_lines. simpl.
  rewrite running_fields_printed by done. f_equal.
  clear Hr. induction Hl as [|ab l Hab _ IH]; [done|].
  cbn [fmap list_fmap mjoin list_join].
  by rewrite printed_line_no_report.
Qed.

(** X3: writing processes as lines of two decimal numerals and parsing the
    file gives one new process for each line, in order, with the arrival
    and burst times that were written, and nothing is reported. *)
Theorem ParseFile_process_file (l : list (Z * Z)) :
  Forall int_pair l ->
  ParseFile (Some (process_file l)) =
    ((fun ab => new_Process ab.1 ab.2) <$> l, []) /\
  identity <$> (ParseFile (Some (process_file l))).1 = l.
Proof.
  intros Hl. rewrite (ParseFile_written_file l Hl). split; [done|].
  cbn [fst]. clear Hl. induction l as [|[a b] l IH]; [done|].
  cbn [fmap list_fmap] in *. by rewrite IH.
Qed.

Lemma ParseFile_process_file_witness :
  Forall int_pair [(0, 20); (0, 10); (4, 6); (4, 8)] /\
  ParseFile (Some (process_file [(0, 20); (0, 10); (4, 6); (4, 8)])) =
    (readme_input, []).
Proof.
  assert (Forall int_pair [(0, 20); (0, 10); (4, 6); (4, 8)]) as H.
  { repeat constructor; unfold INT_MIN, INT_MAX; simpl; lia. }
  split; [exact H|]. exact (proj1 (ParseFile_process_file _ H)).
Defined.

(** ** FCFS: the timeline *)

Lemma FCFS_pass_start l : forall prev p,
  p ∈ FCFS_pass prev l -> p_at p <= st p /\ wt p = rt p /\ 0 <= wt p.
Proof.
  induction l as [|x l IH]; intros prev p Hp; simpl in Hp.
  - by apply elem_of_nil in Hp.
  - apply elem_of_cons in Hp as [->|Hp]; [|by eapply IH].
    unfold FCFS_process. destruct prev; simpl; lia.
Qed.

Lemma FCFS_pass_after l : forall c lo q,
  lo <= c -> Forall (fun p => 0 <= bt p) l ->
  q ∈ FCFS_pass (Some c) l -> lo <= st q.
Proof.
  induction l as [|x l IH]; intros c lo q Hlo Hl Hq; simpl in Hq.
  - by apply elem_of_nil in Hq.
  - apply Forall_cons in Hl as [Hx Hl].
    apply elem_of_cons in Hq as [->|Hq]; [simpl; lia|].
    eapply IH; [|done|exact Hq]. simpl. lia.
Qed.

Lemma FCFS_pass_ordered l : forall prev i j p q,
  Forall (fun p => 0 <= bt p) l -> (i < j)%nat ->
  FCFS_pass prev l !! i = Some p -> FCFS_pass prev l !! j = Some q ->
  ct p <= st q.
Proof.
  induction l as [|x l IH]; intros prev i j p q Hl Hij Hp Hq; [done|].
  apply Forall_cons in Hl as [Hx Hl].
  destruct j as [|j]; [lia|]. simpl in Hq.
  destruct i as [|i]; simpl in Hp.
  - injection Hp as <-.
    apply (FCFS_pass_after l (ct (FCFS_process prev x)));
      [lia|done|by eapply list_elem_of_lookup_2].
  - eapply (IH _ i j); [done|lia|done..].
Qed.

(** The timeline of the FCFS pass on integers. *)
Lemma FCFS_Start_timeline (S : ArrivalSort) (l : list Process) :
  Forall (fun p => 0 <= bt p) l ->
  let r := FCFS_Start S l in
  (forall p, p ∈ final_processes r ->
     p_at p <= st p /\ wt p = rt p /\ 0 <= wt p) /\
  (forall i j p q, (i < j)%nat ->
     final_processes r !! i = Some p -> final_processes r !! j = Some q ->
     ct p <= st q).
Proof.
  intros Hl. rewrite FCFS_Start_pass. simpl. split.
  - intros p Hp. by eapply FCFS_pass_start.
  - intros i j p q Hij Hp Hq.
    eapply (FCFS_pass_ordered (std_sort S l) None i j); try done.
    by rewrite (std_sort_perm S l).
Qed.

(** X4: FCFS never runs two processes at once and never starts one before
    its arrival.  On a run in which no [int] operation overflows: whatever
    the bursts, every process starts at or after its arrival, and its wait
    time is its response time, which is not negative; when no burst is
    negative, a process earlier in the engine's vector completes before any
    later one starts. *)
Theorem FCFS_timeline (S : ArrivalSort) (l : list Process)
    (r : run_result) :
  FCFS_Start_int S l = Returned r ->
  (forall p, p ∈ final_processes r ->
     p_at p <= st p /\ wt p = rt p /\ 0 <= wt p) /\
  (Forall (fun p => 0 <= bt p) l ->
   forall i j p q, (i < j)%nat ->
     final_processes r !! i = Some p -> final_processes r !! j = Some q ->
     ct p <= st q).
Proof.
  intros Hr. apply FCFS_Start_int_returned in Hr as [-> _]. split.
  - rewrite FCFS_Start_pass. cbn zeta. cbn [final_processes].
    intros p Hp. by eapply FCFS_pass_start.
  - intros Hl. by apply FCFS_Start_timeline.
Qed.

Lemma FCFS_timeline_witness :
  exists r,
    FCFS_Start_int libstdcxx_sort readme_input = Returned r /\
    (forall p, p ∈ final_processes r ->
       p_at p <= st p /\ wt p = rt p /\ 0 <= wt p) /\
    schedule r = [(0, 20); (20, 30); (30, 36); (36, 44)].
Proof.
  assert (FCFS_Start_int libstdcxx_sort readme_input =
            Returned (FCFS_Start libstdcxx_sort readme_input)) as Hr.
  { rewrite FCFS_Start_int_spec. reflexivity. }
  exists (FCFS_Start libstdcxx_sort readme_input).
  split; [exact Hr|]. split; [|reflexivity].
  exact (proj1 (FCFS_timeline libstdcxx_sort readme_input _ Hr)).
Defined.

(** ** What a turn of the SJF and RR loops leaves alone *)

Lemma fmap_insert_same {B : Type} (f : Process -> B) (l : list Process)
    (c : nat) x y :
  l !! c = Some x -> f y = f x -> f <$> <[c := y]> l = f <$> l.
Proof.
  intros Hc Hf. rewrite list_fmap_insert, Hf.
  apply list_insert_id. by rewrite list_lookup_fmap, Hc.
Qed.

Lemma Forall2_imap (R : Process -> Process -> Prop)
    (g : nat -> Process -> Process) l :
  (forall j p, R p (g j p)) -> Forall2 R l (imap g l).
Proof.
  revert g. induction l as [|x l IH]; intros g Hg; simpl; constructor.
  - apply Hg.
  - apply IH. intros j p. apply Hg.
Qed.

Lemma only_queued_refl p : only_queued p p.
Proof. by left. Qed.

Lemma only_queued_trans p1 p2 p3 :
  only_queued p1 p2 -> only_queued p2 p3 -> only_queued p1 p3.
Proof. intros [->| ->] [->| ->]; (by left) || (by right). Qed.

Lemma only_queued_sweep time j p : only_queued p (sweep_at time j p).
Proof.
  unfold sweep_at, sweep_process.
  destruct (1 <=? j)%nat; [|by left].
  destruct (arrived time p); [by right|by left].
Qed.

Lemma RR_recover_only_queued l : forall i queue,
  Forall2 only_queued l (RR_recover i l queue).1.
Proof.
  induction l as [|x l IH]; intros i queue; simpl; [constructor|].
  destruct (finished x).
  - specialize (IH (S i) queue).
    destruct (RR_recover (S i) l queue) as [l' queue']. simpl in *.
    constructor; [by left|done].
  - simpl. constructor; [by right|].
    apply Forall2_same_length_lookup. split; [done|].
    intros j p p' Hp Hp'. rewrite Hp in Hp'. injection Hp' as <-. by left.
Qed.

Lemma RR_after_recover_shape s s' :
  RR_after_recover s = Some s' ->
  time_passed s' = time_passed s /\
  finished_count s' = finished_count s /\ metrics s' = metrics s /\
  Forall2 only_queued (processes_ s) (processes_ s').
Proof.
  unfold RR_after_recover, from_second.
  destruct (ready_indexes_queue s).
  - destruct (processes_ s) as [|first rest] eqn:Hp; [done|].
    pose proof (RR_recover_only_queued rest 1 []) as H.
    destruct (RR_recover 1 rest []) as [rest' queue]. simpl in *.
    intros [= <-]. simpl. repeat split; try done.
    constructor; [by left|done].
  - intros [= <-]. repeat split; try done.
    apply Forall2_same_length_lookup. split; [done|].
    intros j p p' Hp Hp'. rewrite Hp in Hp'. injection Hp' as <-. by left.
Qed.

(** A turn of the RR loop is the slice of the process at the front of the
    queue; the sweep, the re-enqueue and the recovery scan that follow write
    nothing but [queued] flags and the queue. *)
Lemma RR_body_shape quantum s s' :
  RR_body quantum s = Some s' ->
  exists c q curr,
    ready_indexes_queue s = c :: q /\ processes_ s !! c = Some curr /\
    time_passed s' = time_passed (RR_dispatch quantum s c curr q) /\
    finished_count s' = finished_count (RR_dispatch quantum s c curr q) /\
    metrics s' = metrics (RR_dispatch quantum s c curr q) /\
    Forall2 only_queued (processes_ (RR_dispatch quantum s c curr q))
      (processes_ s').
Proof.
  intros Hbody.
  destruct (ready_indexes_queue s) as [|c q] eqn:Hq;
    [by unfold RR_body in Hbody; rewrite Hq in Hbody|].
  destruct (processes_ s !! c) as [curr|] eqn:Hc;
    [|by unfold RR_body in Hbody; rewrite Hq, Hc in Hbody].
  exists c, q, curr. split; [done|]. split; [done|].
  assert (is_Some (processes_ (RR_dispatch quantum s c curr q) !! c))
    as [curr1 Hc1].
  { apply lookup_lt_is_Some. rewrite RR_dispatch_length.
    by eapply lookup_lt_Some. }
  rewrite (RR_body_step _ _ _ _ _ _ Hq Hc Hc1) in Hbody.
  apply RR_after_recover_shape in Hbody as (Ht & Hn & Hm & Hprocs).
  unfold RR_before_recover in *. simpl in *.
  repeat split; try done.
  eapply Forall2_trans; [apply only_queued_trans| |exact Hprocs].
  apply Forall2_imap. intros j p. apply only_queued_sweep.
Qed.

Lemma only_queued_identity l l' :
  Forall2 only_queued l l' -> identity <$> l' = identity <$> l.
Proof.
  induction 1 as [|p p' l l' Hp _ IH]; [done|].
  cbn [fmap list_fmap]. fold (fmap identity l) (fmap identity l').
  rewrite IH. by destruct Hp as [->| ->].
Qed.

Lemma RR_dispatch_identity quantum s c curr q :
  processes_ s !! c = Some curr ->
  identity <$> processes_ (RR_dispatch quantum s c curr q) =
  identity <$> processes_ s.
Proof.
  intros Hc. destruct (Z_lt_le_dec 0 (rbt curr - quantum)).
  - rewrite RR_dispatch_preempt by done. simpl.
    apply (fmap_insert_same _ _ _ curr); [done|].
    unfold preempted, first_dispatch. by destruct (rbt curr =? bt curr).
  - rewrite RR_dispatch_complete by done. simpl.
    apply (fmap_insert_same _ _ _ curr); [done|].
    unfold completed, completing, first_dispatch.
    by destruct (rbt curr =? bt curr).
Qed.

Lemma RR_body_identity quantum s s' :
  RR_body quantum s = Some s' ->
  identity <$> processes_ s' = identity <$> processes_ s.
Proof.
  intros (c & q & curr & _ & Hc & _ & _ & _ & Hprocs)%RR_body_shape.
  rewrite (only_queued_identity _ _ Hprocs). by apply RR_dispatch_identity.
Qed.

Lemma SJF_body_identity s :
  identity <$> processes_ (SJF_body s) = identity <$> processes_ s.
Proof.
  unfold SJF_body.
  pose proof (SJF_select_minimal (processes_ s) (time_passed s)) as Hsel.
  destruct (SJF_select (processes_ s) (time_passed s)) as [[i p]|]; [|done].
  destruct Hsel as (Hi & _). simpl.
  by apply (fmap_insert_same _ _ _ p).
Qed.

(** X5: the SJF and RR engines never alter an arrival or a burst time and
    never move a process: whenever a run returns, the vector has the
    processes of the vector the loop started from (the input for SJF, the
    sorted input for RR), index by index, whatever the input and the
    quantum. *)
Theorem engines_keep_identity (quantum : Z) (S : ArrivalSort) (fuel : nat)
    (l : list Process) (r : run_result) :
  (SJF_Start fuel l = Returned r ->
   identity <$> final_processes r = identity <$> l) /\
  (RR_Start quantum S fuel l = Returned r ->
   identity <$> final_processes r = identity <$> std_sort S l).
Proof.
  split; intros Hr.
  - unfold SJF_Start in Hr. apply map_outcome_returned in Hr as (s & Hs & ->).
    apply (while_loop_returned_inv _ _
             (fun s => identity <$> processes_ s = identity <$> l)) in Hs
      as [Hs _]; [done| |done].
    intros s0 s' Hs0 _ [= <-]. by rewrite SJF_body_identity.
  - unfold RR_Start in Hr. apply map_outcome_returned in Hr as (s & Hs & ->).
    apply (while_loop_returned_inv _ _
             (fun s => identity <$> processes_ s =
                       identity <$> std_sort S l)) in Hs
      as [Hs _]; [done| |done].
    intros s0 s' Hs0 _ Hbody. by rewrite (RR_body_identity _ _ _ Hbody).
Qed.

Lemma engines_keep_identity_witness :
  exists r,
    SJF_Start 4 readme_input = Returned r /\
    identity <$> final_processes r = identity <$> readme_input.
Proof.
  destruct SJF_readme_run as (r & Hr & _). exists r. split; [exact Hr|].
  exact (proj1 (engines_keep_identity 2 stable_sort 4 readme_input r) Hr).
Defined.

(** ** SJF: the timeline *)

Lemma SJF_body_timeline s : SJF_timeline s -> SJF_timeline (SJF_body s).
Proof.
  intros (Hdone & Hapart & Hbt). unfold SJF_body.
  pose proof (SJF_select_minimal (processes_ s) (time_passed s)) as Hsel.
  destruct (SJF_select (processes_ s) (time_passed s)) as [[i0 p0]|].
  - destruct Hsel as (Hi0 & [Hf0 Hat0] & _).
    assert (0 <= bt p0) as Hb0.
    { rewrite Forall_forall in Hbt. apply Hbt.
      by eapply list_elem_of_lookup_2. }
    split; [|split]; simpl.
    + intros i p [(-> & <- & _)|[Hne Hp]]%list_lookup_insert_Some Hf; simpl.
      * lia.
      * destruct (Hdone i p Hp Hf) as (? & ? & ?). lia.
    + intros i j p q Hij
        [(-> & <- & _)|[Hi Hp]]%list_lookup_insert_Some
        [(-> & <- & _)|[Hj Hq]]%list_lookup_insert_Some Hfp Hfq;
        simpl in *; try done.
      * destruct (Hdone j q Hq Hfq) as (_ & _ & ?). by right.
      * destruct (Hdone i p Hp Hfp) as (_ & _ & ?). by left.
      * by eapply (Hapart i j).
    + by apply Forall_insert.
  - split; [|split]; simpl; [|done..].
    intros i p Hp Hf. destruct (Hdone i p Hp Hf) as (? & ? & ?). lia.
Qed.

(** The timeline of a run of the SJF loop on integers that returns. *)
Lemma SJF_Start_timeline (fuel : nat) (l : list Process)
    (r : run_result) :
  Forall well_formed l ->
  SJF_Start fuel l = Returned r ->
  (forall p, p ∈ final_processes r ->
     p_at p <= st p /\ ct p = st p + bt p /\ wt p = rt p /\ 0 <= wt p) /\
  (forall i j p q, i <> j ->
     final_processes r !! i = Some p -> final_processes r !! j = Some q ->
     ct p <= st q \/ ct q <= st p).
Proof.
  intros Hl Hr.
  destruct (SJF_Start_returned fuel l r Hl Hr) as [_ Hfin].
  unfold SJF_Start in Hr. apply map_outcome_returned in Hr as (s & Hs & ->).
  apply (while_loop_returned_inv _ _ SJF_timeline) in Hs
    as [(Hdone & Hapart & _) _].
  - simpl in *. split.
    + intros p Hp. destruct (Hfin p Hp) as (Hf & Htt & Hrt & Hwt).
      apply list_elem_of_lookup_1 in Hp as [i Hi].
      destruct (Hdone i p Hi Hf) as (? & ? & _). lia.
    + intros i j p q Hij Hp Hq.
      apply (Hapart i j p q Hij Hp Hq).
      * apply Hfin. by eapply list_elem_of_lookup_2.
      * apply Hfin. by eapply list_elem_of_lookup_2.
  - intros s0 s' Hs0 _ [= <-]. by apply SJF_body_timeline.
  - split; [|split]; simpl.
    + intros i p Hp Hf.
      rewrite (well_formed_unfinished l p) in Hf;
        [done|done|by eapply list_elem_of_lookup_2].
    + intros i j p q _ Hp _ Hf.
      rewrite (well_formed_unfinished l p) in Hf;
        [done|done|by eapply list_elem_of_lookup_2].
    + eapply Forall_impl; [exact Hl|]. intros p (_ & _ & ?). lia.
Qed.

(** X6: SJF never runs two processes at once and never starts one before
    its arrival: when a run on well-formed input in which no [int] operation
    overflows returns, every process started at or after its arrival and
    completed one burst later, its wait time is its response time, which is
    not negative, and the intervals from start to completion of two
    processes do not overlap. *)
Theorem SJF_timeline_returned (fuel : nat) (l : list Process)
    (r : run_result) :
  Forall well_formed l ->
  SJF_Start_int fuel l = Returned r ->
  (forall p, p ∈ final_processes r ->
     p_at p <= st p /\ ct p = st p + bt p /\ wt p = rt p /\ 0 <= wt p) /\
  (forall i j p q, i <> j ->
     final_processes r !! i = Some p -> final_processes r !! j = Some q ->
     ct p <= st q \/ ct q <= st p).
Proof.
  intros Hl Hr. apply SJF_Start_int_returned in Hr.
  by apply (SJF_Start_timeline fuel l).
Qed.

Lemma SJF_timeline_returned_witness :
  exists r,
    Forall well_formed readme_input /\
    SJF_Start_int 4 readme_input = Returned r /\
    schedule r = [(24, 44); (0, 10); (10, 16); (16, 24)] /\
    forall i j p q, i <> j ->
      final_processes r !! i = Some p -> final_processes r !! j = Some q ->
      ct p <= st q \/ ct q <= st p.
Proof.
  eexists. split; [exact readme_input_well_formed|].
  assert (SJF_Start_int 4 readme_input = Returned _) as Hr
    by (vm_compute; reflexivity).
  split; [exact Hr|]. split; [reflexivity|].
  exact (proj2 (SJF_timeline_returned 4 readme_input _
                  readme_input_well_formed Hr)).
Defined.

(** ** SJF: when the run returns *)






(** ** The engines on no process *)

(** X8: with no process at all, each engine returns at once (the RR loop
    does not read its queue) and every average is the NaN of 0/0. *)
Theorem engines_on_no_process (S : ArrivalSort) (quantum : Z) (fuel : nat) :
  FCFS_Start S [] = nan_result /\
  SJF_Start fuel [] = Returned nan_result /\
  RR_Start quantum S fuel [] = Returned nan_result.
Proof.
  assert (std_sort S [] = []) as Hnil
    by (apply Permutation_nil_r, std_sort_perm).
  split; [|split].
  - unfold FCFS_Start. by rewrite Hnil.
  - by destruct fuel.
  - unfold RR_Start. rewrite Hnil. by destruct fuel.
Qed.

(** ** RR: the timeline *)

Lemma RR_timed_later time time' p :
  time <= time' -> RR_timed time p -> RR_timed time' p.
Proof.
  intros Ht [?|(? & ? & Hfin)]; [by left|right].
  split; [done|]. split; [lia|].
  intros Hf. destruct (Hfin Hf). lia.
Qed.

Lemma RR_timed_only_queued time p p' :
  only_queued p p' -> RR_timed time p -> RR_timed time p'.
Proof. by intros [->| ->]. Qed.

Lemma Forall_only_queued (P : Process -> Prop) l l' :
  (forall p p', only_queued p p' -> P p -> P p') ->
  Forall2 only_queued l l' -> Forall P l -> Forall P l'.
Proof.
  intros HP. induction 1 as [|p p' l l' Hp _ IH]; [done|].
  intros [Hx Hl]%Forall_cons. constructor; [by eapply HP|by apply IH].
Qed.

(** The slice of an unfinished process moves the clock forward and keeps the
    timeline of every process. *)
Lemma RR_dispatch_timed quantum s c curr q :
  0 < quantum -> processes_ s !! c = Some curr ->
  proc_ok curr -> finished curr = false ->
  Forall (RR_timed (time_passed s)) (processes_ s) ->
  Forall (RR_timed (time_passed (RR_dispatch quantum s c curr q)))
    (processes_ (RR_dispatch quantum s c curr q)).
Proof.
  intros Hquantum Hc (Hbt & _ & Hrbt) Hf Htimed. specialize (Hrbt Hf).
  assert (RR_timed (time_passed s) curr) as Hcurr.
  { rewrite Forall_lookup in Htimed. by eapply Htimed. }
  destruct (Z_lt_le_dec 0 (rbt curr - quantum)) as [Hlt|Hle].
  - rewrite RR_dispatch_preempt by done. simpl.
    apply Forall_insert.
    + eapply Forall_impl; [exact Htimed|].
      intros p. apply RR_timed_later.
      unfold slice_start. destruct (rbt curr =? bt curr); lia.
    + right. unfold preempted, first_dispatch, slice_start.
      destruct (rbt curr =? bt curr) eqn:Hfirst; simpl; rewrite Hf.
      * repeat split; try done; lia.
      * destruct Hcurr as [[_ ?]|(? & ? & _)]; [lia|].
        repeat split; try done; lia.
  - rewrite RR_dispatch_complete by done. simpl.
    apply Forall_insert.
    + eapply Forall_impl; [exact Htimed|].
      intros p. apply RR_timed_later.
      unfold slice_start. destruct (rbt curr =? bt curr); lia.
    + right. unfold completed, completing, first_dispatch, slice_start.
      destruct (rbt curr =? bt curr) eqn:Hfirst; simpl.
      * repeat split; try done; lia.
      * destruct Hcurr as [[_ ?]|(? & ? & _)]; [lia|].
        repeat split; try done; lia.
Qed.

Lemma RR_body_timed quantum s s' :
  0 < quantum -> RR_inv s ->
  Forall (RR_timed (time_passed s)) (processes_ s) ->
  RR_body quantum s = Some s' ->
  Forall (RR_timed (time_passed s')) (processes_ s').
Proof.
  intros Hquantum [(_ & Hqueue & _ & _ & _ & Hok) _] Htimed
    (c & q & curr & Hq & Hc & -> & _ & _ & Hprocs)%RR_body_shape.
  destruct (Hqueue c) as (curr' & Hc' & Hf & _); [rewrite Hq; left|].
  rewrite Hc in Hc'. injection Hc' as <-.
  eapply Forall_only_queued; [|exact Hprocs|].
  - intros p p'. apply RR_timed_only_queued.
  - apply RR_dispatch_timed; try done.
    rewrite Forall_lookup in Hok. by eapply Hok.
Qed.

(** The timeline of a run of the RR loop on integers that returns. *)
Lemma RR_Start_timeline (quantum : Z) (S : ArrivalSort) (fuel : nat)
    (l : list Process) (r : run_result) :
  0 < quantum -> Forall well_formed l ->
  RR_Start quantum S fuel l = Returned r ->
  forall p, p ∈ final_processes r ->
    p_at p <= st p /\ st p + bt p <= ct p /\
    0 <= rt p <= wt p /\ bt p <= tt p.
Proof.
  intros Hquantum Hl Hr p Hp.
  destruct (RR_Start_returned quantum S fuel l r Hquantum Hl Hr) as [_ Hfin].
  destruct (Hfin p Hp) as (Hf & Htt & Hrt & Hwt).
  unfold RR_Start in Hr. apply map_outcome_returned in Hr as (s & Hs & ->).
  pose proof (std_sort_perm S l) as Hperm.
  destruct (decide (l = [])) as [->|Hne].
  { apply Permutation_nil_r in Hperm. rewrite Hperm in Hs.
    destruct fuel; simpl in Hs; injection Hs as <-; simpl in Hp;
      by apply elem_of_nil in Hp. }
  apply (while_loop_returned_inv _ _
           (fun s => RR_loop_inv (length l) s /\
                     Forall (RR_timed (time_passed s)) (processes_ s)))
    in Hs as [[_ Htimed] _].
  - simpl in Hp. rewrite Forall_forall in Htimed.
    destruct (Htimed p Hp) as [[? _]|(? & _ & Hdone)]; [congruence|].
    destruct (Hdone Hf). lia.
  - intros s0 s' [Hinv Htimed] Hcond Hbody. split.
    + destruct (RR_loop_inv_step quantum _ s0 Hquantum Hinv Hcond)
        as (s'' & Hs'' & Hinv' & _).
      rewrite Hbody in Hs''. by injection Hs'' as ->.
    + destruct Hinv as [Hinv _]. by eapply RR_body_timed.
  - split.
    + split; [|simpl; by apply Permutation_length].
      apply RR_init_inv.
      * intros E. rewrite E in Hperm. by apply Permutation_nil_l in Hperm.
      * by rewrite Hperm.
    + simpl. apply Forall_forall. intros x Hx. left.
      rewrite Hperm in Hx. rewrite Forall_forall in Hl.
      destruct (Hl x Hx) as (-> & _). done.
Qed.

(** X9: RR never completes a process before it has had its burst and never
    starts one before its arrival: when a run on well-formed input with a
    positive quantum in which no [int] operation overflows returns, every
    process started at or after its arrival and completed at least one
    burst after its start, so its response time is not negative, its wait
    time is at least its response time and its turnaround time at least its
    burst. *)
Theorem RR_timeline_returned (quantum : Z) (S : ArrivalSort) (fuel : nat)
    (l : list Process) (r : run_result) :
  0 < quantum -> Forall well_formed l ->
  RR_Start_int quantum S fuel l = Returned r ->
  forall p, p ∈ final_processes r ->
    p_at p <= st p /\ st p + bt p <= ct p /\
    0 <= rt p <= wt p /\ bt p <= tt p.
Proof.
  intros Hquantum Hl Hr. apply RR_Start_int_returned in Hr.
  by apply (RR_Start_timeline quantum S fuel l).
Qed.

Lemma RR_timeline_returned_witness :
  0 < 2 /\ Forall well_formed readme_input /\
  exists r,
    RR_Start_int 2 libstdcxx_sort 44 readme_input = Returned r /\
    map ct (final_processes r) = [44; 34; 24; 32] /\
    forall p, p ∈ final_processes r ->
      p_at p <= st p /\ st p + bt p <= ct p /\
      0 <= rt p <= wt p /\ bt p <= tt p.
Proof.
  assert (0 < 2) as Hq by lia.
  split; [exact Hq|]. split; [exact readme_input_well_formed|].
  eexists.
  assert (RR_Start_int 2 libstdcxx_sort 44 readme_input = Returned _) as Hr
    by (vm_compute; reflexivity).
  split; [exact Hr|]. split; [reflexivity|].
  exact (RR_timeline_returned 2 libstdcxx_sort _ readme_input _ Hq
           readme_input_well_formed Hr).
Defined.

(** ** The metrics of a completed process *)

Lemma SJF_init_inv l :
  Forall well_formed l -> SJF_inv (length l) (max_arrival l) (SJF_init l).
Proof.
  intros Hl. repeat split; simpl.
  - symmetry. apply finished01_none.
    intros p Hp. by eapply well_formed_unfinished.
  - apply Forall_forall. intros p Hp.
    by rewrite (well_formed_unfinished l p).
  - apply Forall_forall. intros p Hp. by apply max_arrival_ge.
Qed.

Lemma FCFS_pass_identity l : forall prev,
  identity <$> FCFS_pass prev l = identity <$> l.
Proof.
  induction l as [|p l IH]; intros prev; [done|].
  cbn [FCFS_pass fmap list_fmap]. cbn zeta. by rewrite IH.
Qed.

(** What holds of the SJF loop after any number of turns. *)
Lemma SJF_turns_inv l n s :
  Forall well_formed l ->
  turns (unfinished_remain (length l)) SJF_body_int n (SJF_init l) =
    Some s ->
  SJF_inv (length l) (max_arrival l) s /\
  identity <$> processes_ s = identity <$> l.
Proof.
  intros Hl.
  apply (turns_inv _ _
           (fun s => SJF_inv (length l) (max_arrival l) s /\
                     identity <$> processes_ s = identity <$> l)).
  - intros s0 s' [Hinv Hid] _ Hb.
    apply SJF_body_int_Some in Hb as [-> _]. split.
    + by apply SJF_body_inv.
    + by rewrite SJF_body_identity.
  - split; [by apply SJF_init_inv|done].
Qed.

(** What holds of the RR loop after any number of turns. *)
Lemma RR_turns_inv quantum S l n s :
  0 < quantum -> Forall well_formed l -> l <> [] ->
  turns (unfinished_remain (length l)) (RR_body_int quantum) n
    (RR_init (std_sort S l)) = Some s ->
  RR_loop_inv (length l) s /\
  identity <$> processes_ s = identity <$> std_sort S l.
Proof.
  intros Hquantum Hl Hne.
  pose proof (std_sort_perm S l) as Hperm.
  apply (turns_inv _ _
           (fun s => RR_loop_inv (length l) s /\
                     identity <$> processes_ s = identity <$> std_sort S l)).
  - intros s0 s' [Hinv Hid] Hcond Hb.
    apply RR_body_int_Some in Hb as [Hb _]. split.
    + destruct (RR_loop_inv_step quantum _ s0 Hquantum Hinv Hcond)
        as (s'' & Hs'' & Hinv' & _).
      rewrite Hb in Hs''. by injection Hs'' as ->.
    + by rewrite (RR_body_identity _ _ _ Hb).
  - split; [|done]. split; [|simpl; by apply Permutation_length].
    apply RR_init_inv.
    + intros E. rewrite E in Hperm. by apply Permutation_nil_l in Hperm.
    + by rewrite Hperm.
Qed.

(** ** Inputs that fit in [int]: the runs overflow nowhere *)

Lemma sum_by_le f g l :
  (forall p, p ∈ l -> f p <= g p) -> sum_by f l <= sum_by g l.
Proof.
  induction l as [|x l IH]; intros H; simpl; [done|].
  assert (f x <= g x) by (apply H; left).
  assert (sum_by f l <= sum_by g l) by (apply IH; intros; apply H; by right).
  lia.
Qed.

Lemma max_arrival_perm l l' : l ≡ₚ l' -> max_arrival l = max_arrival l'.
Proof. induction 1; simpl; lia. Qed.

Lemma max_arrival_insert l c x y :
  l !! c = Some x -> p_at y = p_at x ->
  max_arrival (<[c := y]> l) = max_arrival l.
Proof.
  revert c. induction l as [|z l IH]; intros c Hc Hat; [done|].
  destruct c as [|c]; simpl in *.
  - injection Hc as ->. by rewrite Hat.
  - by rewrite (IH c).
Qed.

Lemma fits_int_perm l l' : l ≡ₚ l' -> fits_int l -> fits_int l'.
Proof.
  unfold fits_int. intros H.
  by rewrite (max_arrival_perm _ _ H), (sum_by_perm bt _ _ H).
Qed.

Lemma FCFS_pass_within_int l : forall prev,
  Forall well_formed l ->
  match prev with
  | Some c => 0 <= c /\ Z.max c (max_arrival l) + sum_by bt l <= INT_MAX
  | None => fits_int l
  end ->
  forallb int_process (FCFS_pass prev l) = true.
Proof.
  induction l as [|p l IH]; intros prev Hwf Hfit; [done|].
  apply Forall_cons in Hwf as [(Hnew & Hat & Hbt) Hwf].
  pose proof (max_arrival_nonneg l) as Hmax.
  assert (0 <= sum_by bt l) as Hsum.
  { apply sum_by_nonneg. intros q Hq. rewrite Forall_forall in Hwf.
    destruct (Hwf q Hq) as (_ & _ & ?). lia. }
  cbn [FCFS_pass forallb]. cbn zeta. apply andb_true_iff. split.
  - apply int_process_range. rewrite Hnew.
    unfold FCFS_process, INT_MIN, fits_int, INT_MAX in *.
    destruct prev as [c|]; simpl in *; lia.
  - apply IH; [done|]. rewrite Hnew.
    unfold FCFS_process, fits_int in *.
    destruct prev as [c|]; simpl in *; lia.
Qed.

Lemma FCFS_Start_int_fits S l :
  Forall well_formed l -> fits_int l ->
  FCFS_Start_int S l = Returned (FCFS_Start S l).
Proof.
  intros Hwf Hfit. rewrite FCFS_Start_int_spec.
  rewrite FCFS_Start_pass at 1. cbn zeta. cbn [final_processes].
  rewrite FCFS_pass_within_int; [done| |].
  - by rewrite (std_sort_perm S l).
  - eapply fits_int_perm; [|exact Hfit]. symmetry. apply std_sort_perm.
Qed.

Lemma SJF_fits_step n bound s :
  SJF_inv n bound s -> SJF_fits s -> unfinished_remain n s = true ->
  SJF_body_int s = Some (SJF_body s) /\ SJF_fits (SJF_body s).
Proof.
  intros (Hlen & Hcount & _ & _) (Htime & Hclock & Hfit & Hall) Hcond.
  unfold unfinished_remain in Hcond. apply Nat.ltb_lt in Hcond.
  pose proof (SJF_select_minimal (processes_ s) (time_passed s)) as Hsel.
  pose proof (max_arrival_nonneg (processes_ s)) as Hmax.
  assert (0 <= sum_by finished_bt (processes_ s) <=
          sum_by bt (processes_ s)) as Hdone.
  { rewrite Forall_forall in Hall. split.
    - apply sum_by_nonneg. intros p Hp. destruct (Hall p Hp) as (_ & ? & _).
      unfold finished_bt. destruct (finished p); lia.
    - apply sum_by_le. intros p Hp. destruct (Hall p Hp) as (_ & ? & _).
      unfold finished_bt. destruct (finished p); lia. }
  unfold SJF_body_int, SJF_body, SJF_fits, int_turn, fits_int in *.
  destruct (SJF_select (processes_ s) (time_passed s)) as [[i p]|];
    cbn [fmap option_fmap option_map fst processes_ time_passed].
  - destruct Hsel as (Hi & [Hf Harr] & _).
    assert (p ∈ processes_ s) as Hp by (by eapply list_elem_of_lookup_2).
    pose proof (max_arrival_ge _ _ Hp) as Hle.
    rewrite Forall_forall in Hall.
    destruct (Hall p Hp) as (Hat & Hbt & Hrbt).
    set (p' := set_finished true
                 (derive (set_ct (st (set_st (time_passed s) p) +
                                  bt (set_st (time_passed s) p))
                            (set_st (time_passed s) p)))).
    assert (p_at p' = p_at p /\ bt p' = bt p /\ rbt p' = rbt p /\
            finished p' = true /\ st p' = time_passed s /\
            ct p' = time_passed s + bt p /\
            tt p' = time_passed s + bt p - p_at p /\
            rt p' = time_passed s - p_at p /\
            wt p' = time_passed s + bt p - p_at p - bt p)
      as (Hat' & Hbt' & Hrbt' & Hf' & Hst' & Hct' & Htt' & Hrt' & Hwt')
      by (by destruct p).
    clearbody p'.
    assert (sum_by finished_bt (<[i := p']> (processes_ s)) <=
            sum_by bt (<[i := p']> (processes_ s))) as Hdone'.
    { apply sum_by_le. intros q Hq.
      assert (0 < bt q) as Hq'.
      { apply list_elem_of_lookup in Hq as [j Hj].
        apply list_lookup_insert_Some in Hj as [(_ & -> & _)|[_ Hj]];
          [lia|].
        by destruct (Hall q ltac:(by eapply list_elem_of_lookup_2))
          as (_ & [? _] & _). }
      unfold finished_bt. destruct (finished q); lia. }
    rewrite !(sum_by_insert _ _ _ p) in Hdone' by done.
    unfold finished_bt at 2 3 in Hdone'. rewrite Hf, Hf', Hbt' in Hdone'.
    rewrite list_lookup_insert_eq by (by eapply lookup_lt_Some).
    rewrite (max_arrival_insert _ _ p) by done.
    rewrite !(sum_by_insert _ _ _ p) by done.
    assert (finished_bt p = 0) as -> by (unfold finished_bt; by rewrite Hf).
    assert (finished_bt p' = bt p) as ->
      by (unfold finished_bt; by rewrite Hf', Hbt').
    rewrite Hct', Hbt'.
    assert (in_int (time_passed s + bt p) = true) as ->
      by (apply in_int_range; unfold INT_MIN, INT_MAX in *; lia).
    assert (int_process p' = true) as ->.
    { apply int_process_range. unfold INT_MIN, INT_MAX in *. lia. }
    split; [done|]. split_and!; try lia.
    apply Forall_insert; [by apply Forall_forall|]. lia.
  - destruct (finished01_some (processes_ s)) as (p & Hp & Hf); [lia|].
    rewrite Forall_forall in Hall.
    destruct (Hall p Hp) as (Hat & Hbt & Hrbt).
    pose proof (max_arrival_ge _ _ Hp) as Hle.
    assert (time_passed s < p_at p) as Hlater.
    { destruct (Z_le_gt_dec (p_at p) (time_passed s)) as [Harr|]; [|lia].
      assert (eligible (time_passed s) p) as He by done.
      specialize (Hsel p Hp He). lia. }
    assert (in_int (time_passed s + 1) = true) as ->
      by (apply in_int_range; unfold INT_MIN, INT_MAX in *; lia).
    split; [done|]. split_and!; try lia. by apply Forall_forall.
Qed.

(** On a well-formed input that fits in [int] and has no burst of
    [INT_MAX], the SJF run with the range of [int] returns. *)
Lemma SJF_Start_int_terminates l :
  Forall well_formed l -> fits_int l ->
  Forall (fun p => bt p < INT_MAX) l ->
  exists r,
    SJF_Start_int (length l + Z.to_nat (max_arrival l)) l = Returned r.
Proof.
  intros Hl Hfit Hbt. unfold SJF_Start_int.
  destruct (while_loop_terminates (unfinished_remain (length l))
              SJF_body_int
              (fun s => SJF_inv (length l) (max_arrival l) s /\
                        Forall (fun p => 0 <= bt p < INT_MAX) (processes_ s) /\
                        SJF_fits s)
              (SJF_measure (length l) (max_arrival l))
              (length l + Z.to_nat (max_arrival l)) (SJF_init l))
    as (s & Hs).
  - intros s (Hinv & Hb & Hf) Hcond.
    destruct (SJF_fits_step _ _ _ Hinv Hf Hcond) as [Hbody Hf'].
    exists (SJF_body s). split; [done|].
    destruct (SJF_body_decreases _ _ _ Hinv Hb Hcond) as [? ?].
    split; [|done]. split_and!; [by apply SJF_body_inv|done..].
  - rewrite Forall_forall in Hl, Hbt. split_and!.
    + by apply SJF_init_inv, Forall_forall.
    + simpl. apply Forall_forall.
      intros p Hp. destruct (Hl p Hp) as (_ & _ & ?).
      specialize (Hbt p Hp). lia.
    + unfold SJF_fits. simpl. split_and!; [done| |done|].
      * pose proof (max_arrival_nonneg l).
        assert (0 <= sum_by finished_bt l); [|lia].
        apply sum_by_nonneg. intros p Hp. unfold finished_bt.
        destruct (Hl p Hp) as (_ & _ & ?). destruct (finished p); lia.
      * apply Forall_forall. intros p Hp.
        destruct (Hl p Hp) as (Hnew & ? & ?). specialize (Hbt p Hp).
        split_and!; try lia. by rewrite Hnew.
  - unfold SJF_measure. simpl. lia.
  - rewrite Hs. simpl. eauto.
Qed.

Lemma sum_by_only_queued f l l' :
  (forall p p', only_queued p p' -> f p' = f p) ->
  Forall2 only_queued l l' -> sum_by f l' = sum_by f l.
Proof.
  intros Hf. induction 1 as [|p p' l l' Hp _ IH]; [done|].
  simpl. by rewrite (Hf _ _ Hp), IH.
Qed.

Lemma max_arrival_only_queued l l' :
  Forall2 only_queued l l' -> max_arrival l' = max_arrival l.
Proof.
  induction 1 as [|p p' l l' Hp _ IH]; [done|].
  simpl. rewrite IH. by destruct Hp as [->| ->].
Qed.

Lemma bt_le_sum_by l p :
  Forall (fun q => 0 <= bt q) l -> p ∈ l -> bt p <= sum_by bt l.
Proof.
  induction 1 as [|q l Hq Hl IH]; intros Hp; [by apply elem_of_nil in Hp|].
  simpl. assert (0 <= sum_by bt l).
  { apply sum_by_nonneg. intros x Hx. rewrite Forall_forall in Hl.
    by apply Hl. }
  apply elem_of_cons in Hp as [->|Hp]; [lia|]. specialize (IH Hp). lia.
Qed.

Lemma sum_by_le_at f g l c x :
  l !! c = Some x -> (forall p, p ∈ l -> f p <= g p) ->
  sum_by f l - f x + g x <= sum_by g l.
Proof.
  intros Hc Hle.
  assert (sum_by f (take c l) <= sum_by g (take c l)).
  { apply sum_by_le. intros p Hp. apply Hle.
    rewrite <- (take_drop c l). apply elem_of_app. by left. }
  assert (sum_by f (drop (S c) l) <= sum_by g (drop (S c) l)).
  { apply sum_by_le. intros p Hp. apply Hle.
    rewrite <- (take_drop (S c) l). apply elem_of_app. by right. }
  assert (sum_by f l = sum_by f (take c l) + (f x + sum_by f (drop (S c) l)))
    as ->.
  { rewrite <- (take_drop_middle l c x Hc) at 1. by rewrite sum_by_app. }
  assert (sum_by g l = sum_by g (take c l) + (g x + sum_by g (drop (S c) l)))
    as ->.
  { rewrite <- (take_drop_middle l c x Hc) at 1. by rewrite sum_by_app. }
  lia.
Qed.

(** The slice of [curr] on an input that fits in [int]. *)
Lemma RR_dispatch_fits quantum s c curr q :
  0 < quantum <= INT_MAX -> RR_fits s ->
  Forall proc_ok (processes_ s) ->
  processes_ s !! c = Some curr -> finished curr = false ->
  in_int (rbt curr - quantum) = true /\
  RR_fits (RR_dispatch quantum s c curr q).
Proof.
  intros Hquantum ([Htime _] & Hclock & Hfit & Hall) Hok Hc Hf.
  assert (curr ∈ processes_ s) as Hin by (by eapply list_elem_of_lookup_2).
  rewrite Forall_forall in Hall, Hok.
  destruct (Hall curr Hin) as (Hat & Hst & Hint).
  destruct (Hok curr Hin) as (Hbt & _ & Hrbt). specialize (Hrbt Hf).
  pose proof (max_arrival_ge _ _ Hin) as Hle.
  pose proof (max_arrival_nonneg (processes_ s)) as Hmax.
  assert (Forall (fun q => 0 <= bt q) (processes_ s)) as Hbts.
  { apply Forall_forall. intros x Hx. destruct (Hok x Hx) as (? & _). lia. }
  pose proof (bt_le_sum_by _ _ Hbts Hin) as Hbtsum.
  assert (0 <= sum_by served (processes_ s)) as Hserved.
  { apply sum_by_nonneg. intros x Hx. unfold served.
    destruct (Hok x Hx) as (? & Hfin & Hun).
    destruct (finished x); [destruct Hfin; [done|lia]|].
    specialize (Hun eq_refl). lia. }
  assert (sum_by served (processes_ s) - served curr + bt curr <=
          sum_by bt (processes_ s)) as Hroom.
  { apply (sum_by_le_at _ _ _ c); [done|]. intros x Hx. unfold served.
    destruct (Hok x Hx) as (? & Hfin & Hun).
    destruct (finished x); [destruct Hfin; [done|lia]|].
    specialize (Hun eq_refl). lia. }
  apply int_process_range in Hint.
  unfold fits_int in Hfit.
  split; [apply in_int_range; unfold INT_MIN, INT_MAX in *; lia|].
  assert (forall curr1,
    p_at curr1 = p_at curr -> bt curr1 = bt curr ->
    0 <= st curr1 <= INT_MAX -> int_process curr1 = true ->
    forall time1,
      0 <= time1 <= INT_MAX ->
      time1 <= max_arrival (processes_ s) + sum_by served (processes_ s) -
               served curr + served curr1 ->
      forall count1 metrics1,
        RR_fits (Build_state (<[c := curr1]> (processes_ s)) time1 q
                   count1 metrics1)) as Hbuild.
  { intros curr1 Hat1 Hbt1 Hst1 Hint1 time1 Ht1 Hclock1 count1 metrics1.
    unfold RR_fits, fits_int. cbn [processes_ time_passed].
    rewrite (max_arrival_insert _ _ curr) by done.
    rewrite !(sum_by_insert _ _ _ curr) by done.
    split_and!; try lia.
    apply Forall_insert; [by apply Forall_forall|]. split_and!; [lia..|done]. }
  destruct (Z.ltb_spec 0 (rbt curr - quantum)) as [Hpre|Hdone].
  - rewrite RR_dispatch_preempt by done.
    unfold preempted, first_dispatch, slice_start, served in *.
    destruct (rbt curr =? bt curr) eqn:Hfirst;
      apply Hbuild; try (by destruct curr);
      try (apply int_process_range; unfold INT_MIN, INT_MAX in *;
           destruct curr; simpl in *; lia);
      destruct curr; simpl in *; lia.
  - rewrite RR_dispatch_complete by done.
    unfold completed, completing, first_dispatch, slice_start, served in *.
    destruct (rbt curr =? bt curr) eqn:Hfirst;
      apply Hbuild; try (by destruct curr);
      try (apply int_process_range; unfold INT_MIN, INT_MAX in *;
           destruct curr; simpl in *; lia);
      destruct curr; simpl in *; lia.
Qed.

Lemma RR_fits_only_queued s s' :
  time_passed s' = time_passed s ->
  Forall2 only_queued (processes_ s) (processes_ s') ->
  RR_fits s -> RR_fits s'.
Proof.
  intros Ht Hshape (Htime & Hclock & Hfit & Hall).
  unfold RR_fits, fits_int in *.
  rewrite Ht, (max_arrival_only_queued _ _ Hshape).
  rewrite (sum_by_only_queued served _ _ ltac:(by intros p p' [->| ->])
             Hshape).
  rewrite (sum_by_only_queued bt _ _ ltac:(by intros p p' [->| ->]) Hshape).
  split_and!; try lia.
  eapply Forall_only_queued; [|exact Hshape|exact Hall].
  by intros p p' [->| ->].
Qed.

Lemma RR_fits_step quantum n s :
  0 < quantum <= INT_MAX -> RR_loop_inv n s -> RR_fits s ->
  unfinished_remain n s = true ->
  exists s',
    RR_body_int quantum s = Some s' /\ RR_loop_inv n s' /\ RR_fits s' /\
    (Z.to_nat (sum_by rbt (processes_ s')) <
     Z.to_nat (sum_by rbt (processes_ s)))%nat.
Proof.
  intros Hquantum Hinv Hfits Hcond.
  destruct (RR_loop_inv_step quantum n s ltac:(lia) Hinv Hcond)
    as (s' & Hbody & Hinv' & Hless).
  destruct Hinv as [[(_ & Hqueue & _ & _ & _ & Hok) _] _].
  pose proof (RR_body_shape _ _ _ Hbody)
    as (c & q & curr & Hq & Hc & Ht & _ & _ & Hshape).
  destruct (Hqueue c) as (curr' & Hc' & Hf & _); [rewrite Hq; left|].
  rewrite Hc in Hc'. injection Hc' as <-.
  destruct (RR_dispatch_fits quantum s c curr q Hquantum Hfits Hok Hc Hf)
    as (Htest & Hfits1).
  pose proof (RR_fits_only_queued _ _ Ht Hshape Hfits1) as Hfits'.
  exists s'. split_and!; try done.
  unfold RR_body_int. rewrite Hq, Hc. simpl. rewrite Htest, Hbody. simpl.
  destruct Hfits' as (Htime' & _ & _ & Hall').
  unfold int_turn.
  assert (in_int (time_passed s') = true) as ->
    by (apply in_int_range; unfold INT_MIN in *; lia).
  destruct (processes_ s' !! c) as [p|] eqn:Hp; [|done].
  rewrite Forall_forall in Hall'.
  by destruct (Hall' p ltac:(by eapply list_elem_of_lookup_2))
    as (_ & _ & ->).
Qed.

(** On a well-formed input that fits in [int], with a positive quantum, the
    RR run with the range of [int] returns. *)
Lemma RR_Start_int_terminates quantum S l :
  0 < quantum <= INT_MAX -> Forall well_formed l -> fits_int l ->
  exists r, RR_Start_int quantum S (Z.to_nat (sum_by bt l)) l = Returned r.
Proof.
  intros Hquantum Hl Hfit. unfold RR_Start_int.
  pose proof (std_sort_perm S l) as Hperm.
  destruct (decide (l = [])) as [->|Hne].
  { simpl. eauto. }
  destruct (while_loop_terminates (unfinished_remain (length l))
              (RR_body_int quantum)
              (fun s => RR_loop_inv (length l) s /\ RR_fits s)
              (fun s => Z.to_nat (sum_by rbt (processes_ s)))
              (Z.to_nat (sum_by bt l)) (RR_init (std_sort S l)))
    as (s & Hs).
  - intros s [Hinv Hfits] Hcond.
    destruct (RR_fits_step quantum _ s Hquantum Hinv Hfits Hcond)
      as (s' & ? & ? & ? & ?).
    by exists s'.
  - assert (Forall well_formed (std_sort S l)) as Hwf by (by rewrite Hperm).
    split; [split|].
    + apply RR_init_inv; [|done].
      intros E. rewrite E in Hperm. by apply Permutation_nil_l in Hperm.
    + simpl. by apply Permutation_length.
    + assert (fits_int (std_sort S l)) as Hfit'
        by (eapply fits_int_perm; [symmetry; exact Hperm|done]).
      unfold RR_fits. simpl. split_and!; [done|done| |done|].
      * pose proof (max_arrival_nonneg (std_sort S l)).
        assert (0 <= sum_by served (std_sort S l)); [|lia].
        apply sum_by_nonneg. intros p Hp. rewrite Forall_forall in Hwf.
        destruct (Hwf p Hp) as (-> & _). unfold served. simpl. lia.
      * apply Forall_forall. intros p Hp.
        pose proof (max_arrival_ge _ _ Hp) as Hle.
        assert (Forall (fun q => 0 <= bt q) (std_sort S l)) as Hbts.
        { eapply Forall_impl; [exact Hwf|]. intros x (_ & _ & ?). lia. }
        pose proof (bt_le_sum_by _ _ Hbts Hp) as Hsum.
        pose proof (max_arrival_nonneg (std_sort S l)).
        rewrite Forall_forall in Hwf.
        destruct (Hwf p Hp) as (Hnew & ? & ?).
        unfold fits_int in Hfit'. rewrite Hnew. simpl.
        split_and!; try done.
        apply int_process_range. unfold INT_MIN, INT_MAX in *. simpl. lia.
  - simpl. rewrite <- (sum_by_perm bt _ _ Hperm).
    rewrite sum_by_rbt_well_formed by (by rewrite Hperm). lia.
  - rewrite Hs. simpl. eauto.
Qed.

(** C5: on a run of the FCFS pass in which no [int] operation overflows,
    FCFS works on its vector in arrival order ([std_sort S l]); the process
    at index 0 starts at its arrival time, the process at a later index
    starts at the larger of its arrival time and the completion time of the
    process before it, every process completes [bt] after its start, with
    every member within the range of [int], and each average is the float
    sum of that metric over the vector divided by the process count.
    Arrival and burst times are not altered.  Such a run is what FCFS makes
    of every well-formed input whose latest arrival and bursts together are
    at most [INT_MAX]. *)
Theorem C5_FCFS_start_and_completion_times (S : ArrivalSort)
    (l : list Process) :
  (forall r, FCFS_Start_int S l = Returned r ->
     length (final_processes r) = length l /\
     (forall i p0, std_sort S l !! i = Some p0 ->
        exists p,
          final_processes r !! i = Some p /\
          p_at p = p_at p0 /\ bt p = bt p0 /\
          (i = 0%nat -> st p = p_at p) /\
          (forall j q, i = Datatypes.S j -> final_processes r !! j = Some q ->
             st p = Z.max (p_at p) (ct q)) /\
          ct p = st p + bt p /\
          tt p = ct p - p_at p /\ rt p = st p - p_at p /\ wt p = tt p - bt p /\
          int_process p = true) /\
     averages r =
       let n := Float32.of_Z (Z.of_nat (length l)) in
       Build_Metrics (Float32.div (float_sum tt (final_processes r)) n)
                     (Float32.div (float_sum rt (final_processes r)) n)
                     (Float32.div (float_sum wt (final_processes r)) n)) /\
  (Forall well_formed l -> fits_int l ->
   exists r, FCFS_Start_int S l = Returned r).
Proof.
  split.
  - intros r Hr. apply FCFS_Start_int_returned in Hr as [-> Hint].
    destruct (FCFS_Start_times S l) as (Hlen & Htimes & Havg).
    split; [done|]. split; [|done].
    intros i p0 Hi.
    destruct (Htimes i p0 Hi) as (p & Hp & ? & ? & ? & ? & ? & ? & ? & ?).
    exists p. split_and!; try done.
    rewrite Forall_forall in Hint. apply Hint.
    by eapply list_elem_of_lookup_2.
  - intros Hwf Hfit. exists (FCFS_Start S l). by apply FCFS_Start_int_fits.
Qed.

Lemma C5_FCFS_start_and_completion_times_witness :
  Forall well_formed readme_input /\ fits_int readme_input /\
  exists r,
    FCFS_Start_int libstdcxx_sort readme_input = Returned r /\
    length (final_processes r) = length readme_input /\
    schedule r = [(0, 20); (20, 30); (30, 36); (36, 44)].
Proof.
  assert (fits_int readme_input) as Hfit by (vm_compute; discriminate).
  split; [exact readme_input_well_formed|]. split; [exact Hfit|].
  destruct (proj2 (C5_FCFS_start_and_completion_times libstdcxx_sort
                     readme_input) readme_input_well_formed Hfit)
    as (r & Hr).
  exists r. split; [exact Hr|].
  split.
  - exact (proj1 (proj1 (C5_FCFS_start_and_completion_times libstdcxx_sort
                           readme_input) r Hr)).
  - assert (FCFS_Start_int libstdcxx_sort readme_input =
              Returned (FCFS_Start libstdcxx_sort readme_input)) as Hr'
      by (vm_compute; reflexivity).
    rewrite Hr in Hr'. injection Hr' as ->. reflexivity.
Defined.

(** C5, as the claim words it, does not hold of every input sorted by
    arrival: of the two processes [(0, INT_MAX)] and [(0, 1)], both read by
    [ParseFile], the one FCFS runs second starts at the completion time of
    the other, and its completion time [st + bt] is above [INT_MAX] in
    whichever order the sort leaves them; the addition of line 70 overflows
    and the run is undefined. *)
Lemma C5_FCFS_completion_time_overflows :
  let input := [new_Process 0 INT_MAX; new_Process 0 1] in
  Forall well_formed input /\ StronglySorted at_le input /\
  forall S,
    FCFS_Start_int S input = Undefined /\
    exists p, p ∈ final_processes (FCFS_Start S input) /\
              INT_MAX < st p + bt p.
Proof.
  cbn zeta. split; [repeat constructor; done|].
  split.
  { unfold at_le. repeat constructor; simpl; lia. }
  intros S. rewrite FCFS_Start_int_spec, FCFS_Start_pass. cbn zeta.
  cbn [final_processes].
  pose proof (std_sort_perm S [new_Process 0 INT_MAX; new_Process 0 1])
    as Hperm.
  symmetry in Hperm. apply Permutation_length_2_inv in Hperm as [-> | ->].
  - split; [reflexivity|]. eexists. split; [by right; left|]. done.
  - split; [reflexivity|]. eexists. split; [by right; left|]. done.
Qed.

(** C7: on well-formed input and on a run in which no [int] operation
    overflows, every process that an engine has brought to completion has
    [wt = tt - bt] and [rt = st - at] (and [tt = ct - at]), and the vector
    the engine works on holds the processes of the input, with their arrival
    and burst times.  FCFS completes every process in its single pass.  The
    SJF and the RR loops (the latter with a positive quantum) keep this after
    any number of turns; when they return, every process of the vector is
    finished, so the equations hold of all of them.  Such runs exist: when
    the latest arrival and all the bursts together are at most [INT_MAX],
    FCFS returns, RR returns for a quantum up to [INT_MAX], and SJF returns
    unless a burst is [INT_MAX]. *)
Theorem C7_metrics_exact_in_all_engines (quantum : Z) (S : ArrivalSort)
    (l : list Process) :
  Forall well_formed l -> 0 < quantum ->
  (forall r, FCFS_Start_int S l = Returned r ->
     identity <$> final_processes r = identity <$> std_sort S l /\
     forall p, p ∈ final_processes r ->
       metrics_exact p /\ int_process p = true) /\
  (forall n s,
     turns (unfinished_remain (length l)) SJF_body_int n (SJF_init l) =
       Some s ->
     identity <$> processes_ s = identity <$> l /\
     forall p, p ∈ processes_ s -> finished p = true -> metrics_exact p) /\
  (forall fuel r, SJF_Start_int fuel l = Returned r ->
     identity <$> final_processes r = identity <$> l /\
     forall p, p ∈ final_processes r ->
       finished p = true /\ metrics_exact p) /\
  (forall n s,
     turns (unfinished_remain (length l)) (RR_body_int quantum) n
       (RR_init (std_sort S l)) = Some s ->
     identity <$> processes_ s = identity <$> std_sort S l /\
     forall p, p ∈ processes_ s -> finished p = true -> metrics_exact p) /\
  (forall fuel r, RR_Start_int quantum S fuel l = Returned r ->
     identity <$> final_processes r = identity <$> std_sort S l /\
     forall p, p ∈ final_processes r ->
       finished p = true /\ metrics_exact p) /\
  (fits_int l ->
   (exists r, FCFS_Start_int S l = Returned r) /\
   (Forall (fun p => bt p < INT_MAX) l ->
    exists fuel r, SJF_Start_int fuel l = Returned r) /\
   (quantum <= INT_MAX ->
    exists fuel r, RR_Start_int quantum S fuel l = Returned r)).
Proof.
  intros Hl Hquantum. split_and!.
  - intros r Hr. apply FCFS_Start_int_returned in Hr as [-> Hint].
    rewrite Forall_forall in Hint. split.
    + rewrite FCFS_Start_pass. cbn zeta. cbn [final_processes].
      apply FCFS_pass_identity.
    + intros p Hp. split; [|by apply Hint].
      rewrite FCFS_Start_pass in Hp. simpl in Hp.
      by eapply FCFS_pass_exact.
  - intros n s Hs.
    destruct (SJF_turns_inv l n s Hl Hs) as [(_ & _ & Hexact & _) Hid].
    split; [done|]. intros p Hp Hf.
    rewrite Forall_forall in Hexact. by apply Hexact.
  - intros fuel r Hr. split.
    + unfold SJF_Start_int in Hr.
      apply map_outcome_returned in Hr as (s & Hs & ->).
      apply while_loop_turns in Hs as (n & Hn & _).
      by destruct (SJF_turns_inv l n s Hl Hn).
    + apply SJF_Start_int_returned in Hr.
      by apply (proj2 (SJF_Start_returned fuel l r Hl Hr)).
  - intros n s Hs.
    destruct (decide (l = [])) as [->|Hne].
    { pose proof (std_sort_perm S []) as Hperm.
      apply Permutation_nil_r in Hperm. rewrite Hperm in Hs.
      destruct n; simpl in Hs; [|done]. injection Hs as <-. simpl.
      rewrite Hperm. split; [done|]. by intros p ?%elem_of_nil. }
    destruct (RR_turns_inv quantum S l n s Hquantum Hl Hne Hs)
      as [[[(_ & _ & _ & _ & _ & Hok) _] _] Hid].
    split; [done|]. intros p Hp Hf. rewrite Forall_forall in Hok.
    destruct (Hok p Hp) as (_ & Hfin & _). by apply Hfin.
  - intros fuel r Hr. split.
    + unfold RR_Start_int in Hr.
      apply map_outcome_returned in Hr as (s & Hs & ->).
      apply while_loop_turns in Hs as (n & Hn & _).
      destruct (decide (l = [])) as [->|Hne].
      { pose proof (std_sort_perm S []) as Hperm.
        apply Permutation_nil_r in Hperm. rewrite Hperm in Hn.
        destruct n; simpl in Hn; [|done]. injection Hn as <-. simpl.
        by rewrite Hperm. }
      by destruct (RR_turns_inv quantum S l n s Hquantum Hl Hne Hn).
    + apply RR_Start_int_returned in Hr.
      by apply (proj2 (RR_Start_returned quantum S fuel l r Hquantum Hl Hr)).
  - intros Hfit. split_and!.
    + exists (FCFS_Start S l). by apply FCFS_Start_int_fits.
    + intros Hbt.
      destruct (SJF_Start_int_terminates l Hl Hfit Hbt) as (r & Hr). eauto.
    + intros Hmax.
      destruct (RR_Start_int_terminates quantum S l ltac:(lia) Hl Hfit)
        as (r & Hr).
      eauto.
Qed.

Lemma C7_metrics_exact_in_all_engines_witness :
  Forall well_formed readme_input /\ 0 < 2 /\
  (exists r,
     FCFS_Start_int libstdcxx_sort readme_input = Returned r /\
     forall p, p ∈ final_processes r ->
       metrics_exact p /\ int_process p = true) /\
  (exists r,
     SJF_Start_int 4 readme_input = Returned r /\
     forall p, p ∈ final_processes r ->
       finished p = true /\ metrics_exact p) /\
  (exists r,
     RR_Start_int 2 libstdcxx_sort 44 readme_input = Returned r /\
     forall p, p ∈ final_processes r ->
       finished p = true /\ metrics_exact p) /\
  (let input := [new_Process 0 5; new_Process 0 INT_MAX] in
   Forall well_formed input /\
   exists s,
     turns (unfinished_remain 2) SJF_body_int 3 (SJF_init input) = Some s /\
     finished <$> processes_ s = [true; false] /\
     forall p, p ∈ processes_ s -> finished p = true -> metrics_exact p).
Proof.
  assert (0 < 2) as Hq by lia.
  split; [exact readme_input_well_formed|]. split; [exact Hq|].
  pose proof (C7_metrics_exact_in_all_engines 2 libstdcxx_sort readme_input
                readme_input_well_formed Hq)
    as (Hfcfs & _ & Hsjf & _ & Hrr & _).
  split; [|split; [|split]].
  - eexists.
    assert (FCFS_Start_int libstdcxx_sort readme_input = Returned _) as Hr
      by (vm_compute; reflexivity).
    split; [exact Hr|]. exact (proj2 (Hfcfs _ Hr)).
  - eexists.
    assert (SJF_Start_int 4 readme_input = Returned _) as Hr
      by (vm_compute; reflexivity).
    split; [exact Hr|]. exact (proj2 (Hsjf _ _ Hr)).
  - eexists.
    assert (RR_Start_int 2 libstdcxx_sort 44 readme_input = Returned _) as Hr
      by (vm_compute; reflexivity).
    split; [exact Hr|]. exact (proj2 (Hrr _ _ Hr)).
  - cbn zeta.
    assert (Forall well_formed [new_Process 0 5; new_Process 0 INT_MAX])
      as Hwf by (repeat constructor; done).
    split; [exact Hwf|].
    pose proof (C7_metrics_exact_in_all_engines 2 libstdcxx_sort _ Hwf Hq)
      as (_ & Hturns & _).
    eexists.
    assert (turns (unfinished_remain 2) SJF_body_int 3
              (SJF_init [new_Process 0 5; new_Process 0 INT_MAX]) = Some _)
      as Hs by (vm_compute; reflexivity).
    split; [exact Hs|]. split; [reflexivity|].
    exact (proj2 (Hturns _ _ Hs)).
Defined.

(** C7, as the claim words it, does not hold of every valid input: of the
    two processes [(0, INT_MAX)] and [(0, 1)], both read by [ParseFile], the
    one that FCFS, or RR with a quantum of [INT_MAX], runs second would
    complete at [INT_MAX + 1] in whichever order the sort leaves them; the
    addition that computes its completion time overflows, the run is
    undefined, and no [int] value of [ct], [tt] and [wt] meets the
    equations. *)
Lemma C7_metrics_undefined_on_overflow :
  let input := [new_Process 0 INT_MAX; new_Process 0 1] in
  Forall well_formed input /\
  forall S,
    FCFS_Start_int S input = Undefined /\
    (forall fuel r, RR_Start_int INT_MAX S fuel input <> Returned r) /\
    exists p, p ∈ final_processes (FCFS_Start S input) /\
              metrics_exact p /\ INT_MAX < ct p.
Proof.
  cbn zeta. split; [repeat constructor; done|].
  intros S. unfold RR_Start_int.
  rewrite FCFS_Start_int_spec, FCFS_Start_pass. cbn zeta.
  cbn [final_processes].
  pose proof (std_sort_perm S [new_Process 0 INT_MAX; new_Process 0 1])
    as Hperm.
  symmetry in Hperm. apply Permutation_length_2_inv in Hperm as [-> | ->].
  - split; [reflexivity|]. split.
    + intros [|[|fuel]] r; vm_compute; discriminate.
    + eexists. split; [by right; left|]. done.
  - split; [reflexivity|]. split.
    + intros [|[|fuel]] r; vm_compute; discriminate.
    + eexists. split; [by right; left|]. done.
Qed.

(** ** [main] of the scheduling program *)


(** X10: [main] returns [EXIT_FAILURE] only when a path is given and no file
    is there, and it then writes nothing to [std::cout].  A file that exists
    but cannot be opened is not an error: [main] says that there is no
    process to schedule and returns [EXIT_SUCCESS], as for an empty file,
    without running an engine. *)
Theorem main_exit_status (path_filename : string -> string)
    (fixed1 : Float32.float -> string) (S : ArrivalSort)
    (file_system : string -> file_status) (fuel : nat) (argv : list string)
    (out : program_output) :
  main path_filename fixed1 S file_system fuel argv = Returned out ->
  (exit_status out = EXIT_FAILURE <->
   exists filepath,
     argv !! 1%nat = Some filepath /\ file_system filepath = Missing) /\
  (exit_status out = EXIT_FAILURE -> stdout out = []) /\
  (forall filepath,
     argv !! 1%nat = Some filepath -> file_system filepath = Unreadable ->
     out = Build_output ["No process to schedule."%string] [] EXIT_SUCCESS).
Proof.
  unfold main. destruct argv as [|program [|filepath rest]]; [done|..].
  - intros [= <-]. simpl. repeat split; try done.
    by intros (? & ? & _).
  - destruct (file_system filepath) as [| |contents] eqn:Hfs.
    + intros [= <-]. simpl. repeat split; try done.
      * eauto.
      * intros ? [= <-]. congruence.
    + simpl. intros [= <-]. simpl. repeat split; try done.
      intros (? & [= <-] & ?). congruence.
    + cbn [open_file].
      destruct (ParseFile (Some contents)) as [[|p processes] errors];
        cbv beta iota.
      * intros [= <-]. simpl. repeat split; try done.
        -- intros (? & [= <-] & ?). congruence.
        -- intros ? [= <-]. congruence.
      * destruct (SJF_Start fuel (p :: processes)); try done. simpl.
        destruct (RR_Start 2 S fuel (p :: processes)); try done. simpl.
        intros [= <-]. simpl. repeat split; try done.
        -- intros (? & [= <-] & ?). congruence.
        -- intros ? [= <-]. congruence.
Qed.

Lemma main_exit_status_witness :
  exists out,
    main (fun p => p) (fun _ => ""%string) stable_sort (fun _ => Unreadable)
      0 ["prog"%string; "input.txt"%string] = Returned out /\
    out = Build_output ["No process to schedule."%string] [] EXIT_SUCCESS.
Proof.
  eexists. split; [reflexivity|].
  refine (proj2 (proj2 (main_exit_status (fun p => p) (fun _ => ""%string)
                          stable_sort (fun _ => Unreadable) 0
                          ["prog"%string; "input.txt"%string] _ eq_refl))
            "input.txt"%string eq_refl eq_refl).
Defined.




(** ** SJF: what a turn of the loop does *)

(** A turn of the SJF loop on integers: it runs the preferred eligible
    process to completion, or moves the clock by one. *)
Lemma SJF_body_policy (s : loop_state) :
  (exists i q q',
     processes_ s !! i = Some q /\ eligible (time_passed s) q /\
     (forall p, p ∈ processes_ s -> eligible (time_passed s) p ->
        preferred q p) /\
     processes_ (SJF_body s) = <[i := q']> (processes_ s) /\
     p_at q' = p_at q /\ bt q' = bt q /\
     st q' = time_passed s /\ ct q' = time_passed s + bt q /\
     finished q' = true /\
     time_passed (SJF_body s) = ct q' /\
     finished_count (SJF_body s) = S (finished_count s)) \/
  ((forall p, p ∈ processes_ s -> eligible (time_passed s) p ->
      INT_MAX <= bt p) /\
   SJF_body s =
     Build_state (processes_ s) (time_passed s + 1) (ready_indexes_queue s)
       (finished_count s) (metrics s)).
Proof.
  pose proof (SJF_select_minimal (processes_ s) (time_passed s)) as Hsel.
  unfold SJF_body.
  destruct (SJF_select (processes_ s) (time_passed s)) as [[i q]|].
  - left. destruct Hsel as (Hi & Helig & Hbest).
    eexists i, q, _. split_and!; [done | done | done | reflexivity | ..];
      by destruct q.
  - by right.
Qed.

(** X24: a turn of the SJF loop in which no [int] operation overflows.
    Either it runs to completion, from the current time, a process that has
    arrived and is not finished, whose burst is the least among such
    processes and whose arrival is the earliest among those with that burst,
    and every member of that process is then within the range of [int]; or
    no such process has a burst below [INT_MAX], and the turn only moves the
    clock by one, to a time within the range of [int]. *)
Theorem SJF_dispatch_policy (s s' : loop_state) :
  SJF_body_int s = Some s' ->
  (exists i q q',
     processes_ s !! i = Some q /\ eligible (time_passed s) q /\
     (forall p, p ∈ processes_ s -> eligible (time_passed s) p ->
        preferred q p) /\
     processes_ s' = <[i := q']> (processes_ s) /\
     p_at q' = p_at q /\ bt q' = bt q /\
     st q' = time_passed s /\ ct q' = time_passed s + bt q /\
     finished q' = true /\ int_process q' = true /\
     time_passed s' = ct q' /\
     finished_count s' = S (finished_count s)) \/
  ((forall p, p ∈ processes_ s -> eligible (time_passed s) p ->
      INT_MAX <= bt p) /\
   time_passed s + 1 <= INT_MAX /\
   s' =
     Build_state (processes_ s) (time_passed s + 1) (ready_indexes_queue s)
       (finished_count s) (metrics s)).
Proof.
  intros Hs'. apply SJF_body_int_Some in Hs' as [-> Hint].
  pose proof (SJF_select_minimal (processes_ s) (time_passed s)) as Hsel.
  unfold SJF_body in *.
  destruct (SJF_select (processes_ s) (time_passed s)) as [[i q]|].
  - left. destruct Hsel as (Hi & Helig & Hbest).
    unfold int_turn in Hint. cbn [fmap option_fmap option_map fst] in Hint.
    apply andb_true_iff in Hint as [_ Hint]. cbn [processes_] in Hint.
    rewrite list_lookup_insert_eq in Hint by (by eapply lookup_lt_Some).
    eexists i, q, _.
    split_and!; [done | done | done | reflexivity | ..]; try exact Hint;
      by destruct q.
  - right. split; [done|]. split; [|done].
    unfold int_turn in Hint. apply andb_true_iff in Hint as [Hint _].
    apply in_int_range in Hint. simpl in Hint. lia.
Qed.

Lemma SJF_dispatch_policy_witness :
  exists s',
    SJF_body_int (SJF_init readme_input) = Some s' /\
    time_passed s' = 10 /\ finished_count s' = 1%nat.
Proof.
  eexists.
  assert (SJF_body_int (SJF_init readme_input) = Some _) as Hs'
    by (vm_compute; reflexivity).
  split; [exact Hs'|].
  destruct (SJF_dispatch_policy _ _ Hs')
    as [(i & q & q' & _ & _ & _ & _ & _ & _ & _ & _ & _ & _ & Ht & Hn)
       |(_ & _ & Hidle)].
  - split; [|exact Hn]. reflexivity.
  - discriminate Hidle.
Defined.

(** ** RR: the quantum has to be positive *)




Section NeverReturns.
Context {S : Type} (cond : S -> bool) (body : S -> option S).


End NeverReturns.






(** ** RR with a quantum that no burst exceeds is FCFS *)

Lemma sorted_lookup_le (l : list Process) (i i' : nat) (p p' : Process) :
  StronglySorted at_le l -> (i <= i')%nat ->
  l !! i = Some p -> l !! i' = Some p' -> p_at p <= p_at p'.
Proof.
  intros Hsorted. revert i i'.
  induction Hsorted as [|x l Hl IH Hx]; intros i i' Hle Hi Hi'; [done|].
  destruct i as [|i], i' as [|i']; simpl in *; try lia.
  - injection Hi as <-. injection Hi' as <-. lia.
  - injection Hi as <-. rewrite Forall_forall in Hx.
    apply Hx. by eapply list_elem_of_lookup_2.
  - apply (IH i i'); [lia | done..].
Qed.

(** A predicate that holds below whatever it holds at cuts an interval in
    two. *)
Lemma downward_closed_cut (P : nat -> bool) (lo d : nat) :
  (forall i i', (lo <= i <= i')%nat -> (i' < lo + d)%nat ->
     P i' = true -> P i = true) ->
  exists a, (a <= d)%nat /\
    forall i, (lo <= i < lo + d)%nat -> (P i = true <-> (i < lo + a)%nat).
Proof.
  induction d as [|d IH]; intros Hdown.
  { exists 0%nat. split; [lia|]. intros i Hi. lia. }
  destruct IH as (a & Ha & Hcut).
  { intros i i' Hi Hi'. apply Hdown; lia. }
  destruct (decide (a = d /\ P (lo + d)%nat = true)) as [[-> Hlast]|Hno].
  - exists (S d). split; [lia|]. intros i Hi.
    destruct (decide (i = lo + d)%nat) as [->|Hne].
    + split; [lia | done].
    + rewrite Hcut by lia. lia.
  - exists a. split; [lia|]. intros i Hi.
    destruct (decide (i = lo + d)%nat) as [->|Hne]; [|rewrite Hcut by lia; lia].
    split; [|lia]. intros Hlast.
    destruct (decide (a = d)) as [->|Hlt]; [by destruct Hno|].
    assert (P (lo + a)%nat = true) as Hmid.
    { apply (Hdown (lo + a)%nat (lo + d)%nat); [lia | lia | done]. }
    apply Hcut in Hmid; lia.
Qed.

Lemma filter_none (P : nat -> bool) (l : list nat) :
  (forall i, i ∈ l -> P i = false) -> List.filter P l = [].
Proof.
  induction l as [|x l IH]; intros H; [done|]. simpl.
  rewrite (H x) by left. apply IH. intros i Hi. apply H. by right.
Qed.

Lemma filter_all (P : nat -> bool) (l : list nat) :
  (forall i, i ∈ l -> P i = true) -> List.filter P l = l.
Proof.
  induction l as [|x l IH]; intros H; [done|]. simpl.
  rewrite (H x) by left. f_equal. apply IH. intros i Hi. apply H. by right.
Qed.

Lemma filter_seq_interval (P : nat -> bool) (s len lo a : nat) :
  (s <= lo)%nat -> (lo + a <= s + len)%nat ->
  (forall i, (s <= i < s + len)%nat ->
     (P i = true <-> (lo <= i < lo + a)%nat)) ->
  List.filter P (seq s len) = seq lo a.
Proof.
  intros Hlo Hhi HP.
  replace len with ((lo - s) + (a + (s + len - (lo + a))))%nat by lia.
  rewrite !seq_app, !List.filter_app.
  replace (s + (lo - s))%nat with lo by lia.
  rewrite (filter_none P (seq s (lo - s))), (filter_all P (seq lo a)),
    (filter_none P (seq (lo + a) _)).
  - by rewrite app_nil_r.
  - intros i Hi%elem_of_seq. apply not_true_is_false. rewrite HP; lia.
  - intros i Hi%elem_of_seq. apply HP; lia.
  - intros i Hi%elem_of_seq. apply not_true_is_false. rewrite HP; lia.
Qed.

Lemma completed_same_times (time : Z) (curr q : Process) :
  rbt curr = bt curr -> p_at curr = p_at q -> bt curr = bt q ->
  st q = Z.max time (p_at q) -> ct q = st q + bt q ->
  tt q = ct q - p_at q -> rt q = st q - p_at q -> wt q = tt q - bt q ->
  same_times q (completed time curr) /\
  same_times q (completing time curr) /\
  finished (completed time curr) = true /\
  slice_start time curr + rbt curr = ct q.
Proof.
  intros Hrbt Hat Hbt Hst Hct Htt Hrt Hwt.
  unfold same_times, completed, completing, first_dispatch, slice_start.
  rewrite Hrbt, Z.eqb_refl. destruct curr, q; simpl in *; subst.
  split_and!; try done; lia.
Qed.

Lemma metrics_add_same_times (m : ProcessAverageMetrics) (q p : Process) :
  same_times q p -> metrics_add m p = metrics_add m q.
Proof.
  intros (_ & _ & _ & _ & Htt & Hrt & Hwt). unfold metrics_add.
  by rewrite Htt, Hrt, Hwt.
Qed.

Section LargeQuantum.
Variable quantum : Z.
Variable sorted : list Process.
Hypothesis Hsorted : StronglySorted at_le sorted.
Hypothesis Hinput :
  Forall (fun p => 0 <= p_at p /\ bt p <= quantum) sorted.

(** After the time slice of process [k], before the sweep. *)
Lemma RR_in_order_dispatched (k j : nat) (s : loop_state)
    (curr q : Process) (i : nat) (p : Process) :
  (1 <= j)%nat ->
  (forall i p, processes_ s !! i = Some p ->
     RR_in_order_at sorted k j i p) ->
  FCFS_pass None sorted !! k = Some q ->
  same_times q (completed (time_passed s) curr) ->
  finished (completed (time_passed s) curr) = true ->
  <[k := completed (time_passed s) curr]> (processes_ s) !! i = Some p ->
  RR_in_order_at sorted (S k) (j - 1) i p.
Proof.
  intros Hj Hat Hq Hsame Hfin Hi.
  apply list_lookup_insert_Some in Hi as [(<- & <- & _)|[Hne Hi]].
  - unfold RR_in_order_at. rewrite (proj2 (Nat.ltb_lt k (S k))) by lia.
    eauto.
  - specialize (Hat i p Hi). unfold RR_in_order_at in *.
    destruct (Nat.ltb_spec i k).
    + by rewrite (proj2 (Nat.ltb_lt i (S k))) by lia.
    + rewrite (proj2 (Nat.ltb_ge i (S k))) by lia.
      by replace (S k + (j - 1))%nat with (k + j)%nat by lia.
Qed.

(** After the sweep at [time], which queues the indexes from [k + j] to
    [k + j + a]. *)
Lemma RR_in_order_swept (k j a : nat) (time : Z) (procs : list Process)
    (i : nat) (p : Process) :
  (forall i p, procs !! i = Some p -> RR_in_order_at sorted k j i p) ->
  (forall i p, (k + j <= i)%nat -> procs !! i = Some p ->
     (arrived time p = true <-> (i < k + j + a)%nat)) ->
  (1 <= k)%nat ->
  imap (sweep_at time) procs !! i = Some p ->
  RR_in_order_at sorted k (j + a) i p.
Proof.
  intros Hat Hcut Hk (p1 & Hi & ->)%list_lookup_imap_Some.
  specialize (Hat i p1 Hi). unfold RR_in_order_at in *.
  unfold sweep_at, sweep_process.
  destruct (Nat.ltb_spec i k).
  - destruct Hat as [Hfin Hq]. unfold arrived. rewrite Hfin, orb_true_r.
    cbn [negb andb]. destruct (1 <=? i)%nat; split; done.
  - destruct Hat as (Hp0 & Hrbt & Hfin & Hqueued).
    rewrite (proj2 (Nat.leb_le 1 i)) by lia.
    destruct (Nat.ltb_spec i (k + j)).
    + rewrite (proj2 (Nat.ltb_lt i (k + (j + a)))) by lia.
      unfold arrived. rewrite Hqueued by lia. simpl. done.
    + specialize (Hcut i p1 ltac:(lia) Hi).
      destruct (arrived time p1) eqn:Harrived.
      * pose proof (proj1 Hcut eq_refl).
        rewrite (proj2 (Nat.ltb_lt i (k + (j + a)))) by lia.
        by destruct p1.
      * rewrite (proj2 (Nat.ltb_ge i (k + (j + a)))); [done|].
        destruct (decide (i < k + j + a)%nat) as [Hlt|]; [|lia].
        by apply Hcut in Hlt.
Qed.

Lemma RR_in_order_step (k j : nat) (s : loop_state) :
  RR_in_order sorted k j s -> (k < length sorted)%nat ->
  exists j' s',
    RR_body quantum s = Some s' /\ RR_in_order sorted (S k) j' s'.
Proof.
  intros (Hlen & Hcount & Hqueue & Hkj & Hj & Hat & Htime & Hmetrics) Hk.
  specialize (Hj Hk).
  destruct (lookup_lt_is_Some_2 (processes_ s) k) as [curr Hcurr]; [lia|].
  pose proof (Hat k curr Hcurr) as Hcurr_at. unfold RR_in_order_at in Hcurr_at.
  rewrite Nat.ltb_irrefl in Hcurr_at.
  destruct Hcurr_at as ((p0 & Hp0 & Hat0 & Hbt0) & Hrbt & Hfin & _).
  pose proof (proj1 (Forall_lookup _ _) Hinput k p0 Hp0) as [Hat_pos Hbt_q].
  destruct (FCFS_pass_lookup sorted None k p0 Hp0)
    as (q & Hq & Hqat & Hqbt & Hqct & Hqtt & Hqrt & Hqwt & Hq0 & HqS).
  assert (Hqst : st q = Z.max (time_passed s) (p_at q)).
  { rewrite Htime. destruct k as [|k']; simpl.
    - rewrite (Hq0 eq_refl). lia.
    - destruct (lookup_lt_is_Some_2 (FCFS_pass None sorted) k')
        as [q' Hq']; [rewrite FCFS_pass_length; lia|].
      rewrite Hq'. simpl. rewrite (HqS k' q' eq_refl Hq'). lia. }
  destruct (completed_same_times (time_passed s) curr q)
    as (Hsame & Hsame' & Hfin1 & Hclock); [done | congruence.. | done | done
                                          | done | done | done |].
  assert (Hq1 : ready_indexes_queue s = k :: seq (S k) (j - 1)).
  { rewrite Hqueue. destruct j; [lia|]. simpl. by rewrite Nat.sub_0_r. }
  pose proof (RR_dispatch_complete quantum s k curr (seq (S k) (j - 1)))
    as Hdispatch.
  rewrite Hclock in Hdispatch.
  rewrite (metrics_add_same_times _ _ _ Hsame') in Hdispatch.
  specialize (Hdispatch ltac:(lia)).
  set (curr1 := completed (time_passed s) curr) in *.
  set (procs1 := <[k := curr1]> (processes_ s)) in *.
  assert (Hlen1 : length procs1 = length sorted).
  { unfold procs1. by rewrite length_insert. }
  rewrite (RR_body_step quantum s k (seq (S k) (j - 1)) curr curr1 Hq1 Hcurr);
    [|rewrite Hdispatch; simpl; apply list_lookup_insert_eq; lia].
  rewrite Hdispatch. unfold RR_before_recover.
  cbn [processes_ time_passed ready_indexes_queue finished_count metrics].
  rewrite Hfin1, app_nil_r.
  assert (Hat1 : forall i p, procs1 !! i = Some p ->
                   RR_in_order_at sorted (S k) (j - 1) i p).
  { intros i p Hi.
    by apply (RR_in_order_dispatched k j s curr q i p). }
  (* the arrivals *)
  set (P := fun i => match procs1 !! i with
                     | Some p => arrived (ct q) p
                     | None => false
                     end).
  assert (Hpending : forall i p, (k + j <= i)%nat -> procs1 !! i = Some p ->
            arrived (ct q) p = (p_at p <=? ct q) /\
            exists p0, sorted !! i = Some p0 /\ p_at p = p_at p0).
  { intros i p Hi Hp. specialize (Hat1 i p Hp). unfold RR_in_order_at in Hat1.
    rewrite (proj2 (Nat.ltb_ge i (S k))) in Hat1 by lia.
    rewrite (proj2 (Nat.ltb_ge i (S k + (j - 1)))) in Hat1 by lia.
    destruct Hat1 as ((x & Hx & Hxat & _) & _ & Hf & Hqd).
    unfold arrived. rewrite Hf, Hqd. simpl. eauto. }
  destruct (downward_closed_cut P (k + j) (length sorted - (k + j)))
    as (a & Ha & Hcut).
  { intros i i' Hi Hi'. unfold P.
    destruct (lookup_lt_is_Some_2 procs1 i) as [p Hp]; [lia|].
    destruct (lookup_lt_is_Some_2 procs1 i') as [p' Hp']; [lia|].
    rewrite Hp, Hp'.
    destruct (Hpending i p ltac:(lia) Hp) as (-> & x & Hx & ->).
    destruct (Hpending i' p' ltac:(lia) Hp') as (-> & x' & Hx' & ->).
    pose proof (sorted_lookup_le sorted i i' x x' Hsorted ltac:(lia) Hx Hx').
    rewrite !Z.leb_le. lia. }
  assert (Harrivals : arrival_indexes (ct q) procs1 = seq (k + j) a).
  { unfold arrival_indexes. fold P. rewrite Hlen1.
    apply filter_seq_interval; [lia | lia|].
    intros i Hi. destruct (decide (k + j <= i)%nat) as [Hge|Hlt].
    - rewrite Hcut by lia. lia.
    - split; [|lia]. unfold P.
      destruct (lookup_lt_is_Some_2 procs1 i) as [p Hp]; [lia|].
      rewrite Hp. specialize (Hat1 i p Hp). unfold RR_in_order_at in Hat1.
      unfold arrived. destruct (Nat.ltb_spec i (S k)).
      + destruct Hat1 as [-> _]. by rewrite orb_true_r.
      + rewrite (proj2 (Nat.ltb_lt i (S k + (j - 1)))) in Hat1 by lia.
        destruct Hat1 as (_ & _ & _ & Hqd). rewrite Hqd by lia. done. }
  rewrite Harrivals.
  replace (seq (S k) (j - 1) ++ seq (k + j) a)
    with (seq (S k) (j - 1 + a)).
  2:{ rewrite seq_app. by replace (S k + (j - 1))%nat with (k + j)%nat by lia. }
  set (procs2 := imap (sweep_at (ct q)) procs1).
  assert (Hlen2 : length procs2 = length sorted).
  { unfold procs2. by rewrite length_imap. }
  assert (Hat2 : forall i p, procs2 !! i = Some p ->
                   RR_in_order_at sorted (S k) (j - 1 + a) i p).
  { intros i p Hi.
    apply (RR_in_order_swept (S k) (j - 1) a (ct q) procs1 i p);
      [done | | lia | done].
    intros x px Hx Hpx. pose proof (lookup_lt_Some _ _ _ Hpx).
    specialize (Hcut x ltac:(lia)). unfold P in Hcut.
    rewrite Hpx in Hcut. rewrite Hcut. lia. }
  assert (Hclock2 : ct q = clock_after (FCFS_pass None sorted) (S k)).
  { simpl. by rewrite Hq. }
  assert (Hmetrics2 :
            metrics_add (metrics s) q =
              foldl metrics_add metrics_zero
                (take (S k) (FCFS_pass None sorted))).
  { rewrite (take_S_r _ _ _ Hq), foldl_app. simpl. by rewrite Hmetrics. }
  destruct (decide (j - 1 + a = 0)%nat) as [Hempty|Hnonempty].
  - rewrite Hempty. simpl.
    destruct (decide (S k < length sorted)%nat) as [Hmore|Hlast].
    + destruct (lookup_lt_is_Some_2 procs2 (S k)) as [next Hnext]; [lia|].
      pose proof (Hat2 _ _ Hnext) as Hnext_at.
      unfold RR_in_order_at in Hnext_at.
      rewrite Nat.ltb_irrefl in Hnext_at.
      destruct Hnext_at as (Hnext0 & Hnext_rbt & Hnext_fin & _).
      exists 1%nat. eexists. split.
      * apply (RR_after_recover_found _ (S k) next);
          [done | lia | done | done|].
        intros x px Hx Hpx. simpl in Hpx. specialize (Hat2 x px Hpx).
        unfold RR_in_order_at in Hat2.
        rewrite (proj2 (Nat.ltb_lt x (S k))) in Hat2 by lia. tauto.
      * split_and!; simpl; [by rewrite length_insert | by rewrite Hcount
                           | done | lia | lia | | done | done].
        intros i p Hi.
        apply list_lookup_insert_Some in Hi as [(<- & <- & _)|[Hne Hi]].
        -- unfold RR_in_order_at. rewrite Nat.ltb_irrefl.
           rewrite (proj2 (Nat.ltb_lt (S k) (S k + 1))) by lia.
           split_and!; [by destruct next.. |done].
        -- specialize (Hat2 i p Hi). rewrite Hempty in Hat2.
           unfold RR_in_order_at in *.
           destruct (Nat.ltb_spec i (S k)); [done|].
           rewrite (proj2 (Nat.ltb_ge i (S k + 0))) in Hat2 by lia.
           by rewrite (proj2 (Nat.ltb_ge i (S k + 1))) by lia.
    + exists 0%nat. eexists. split.
      * apply RR_after_recover_none; [done | |].
        { simpl. intros Heq. apply (f_equal length) in Heq.
          simpl in Heq. lia. }
        intros x px Hx Hpx. simpl in Hpx. specialize (Hat2 x px Hpx).
        pose proof (lookup_lt_Some _ _ _ Hpx).
        unfold RR_in_order_at in Hat2.
        rewrite (proj2 (Nat.ltb_lt x (S k))) in Hat2 by lia. tauto.
      * split_and!; simpl; [done | by rewrite Hcount | done | lia | lia
                           | | done | done].
        intros i p Hi. specialize (Hat2 i p Hi). by rewrite Hempty in Hat2.
  - exists (j - 1 + a)%nat. eexists. split.
    + apply RR_after_recover_nonempty. simpl.
      destruct (j - 1 + a)%nat; [done|]. done.
    + split_and!; simpl; [done | by rewrite Hcount | done | lia | lia
                         | done | done | done].
Qed.
End LargeQuantum.

Lemma RR_init_in_order (sorted : list Process) :
  sorted <> [] -> Forall well_formed sorted ->
  RR_in_order sorted 0 1 (RR_init sorted).
Proof.
  intros Hne Hwf. unfold RR_in_order, RR_init. simpl.
  split_and!; [done | done | done | destruct sorted; simpl; [done|lia]
              | done | | done | done].
  intros i p Hi. unfold RR_in_order_at. simpl.
  pose proof (proj1 (Forall_lookup _ _) Hwf i p Hi) as (Hp & _ & _).
  split_and!; [by exists p | by rewrite Hp | by rewrite Hp |].
  destruct i as [|i]; simpl; [lia | by rewrite Hp].
Qed.

(** X23: when no burst exceeds the quantum, RR is FCFS: on well-formed input
    a run of RR that returns leaves every process with the start,
    completion, turnaround, response and wait times that FCFS gives it, and
    returns the same averages. *)
Theorem RR_large_quantum_is_FCFS (quantum : Z) (S : ArrivalSort) (fuel : nat)
    (l : list Process) (r : run_result) :
  Forall well_formed l -> Forall (fun p => bt p <= quantum) l ->
  RR_Start quantum S fuel l = Returned r ->
  averages r = averages (FCFS_Start S l) /\
  Forall2 same_times (final_processes (FCFS_Start S l)) (final_processes r).
Proof.
  intros Hwf Hbt Hrun.
  pose proof (std_sort_perm S l) as Hperm.
  pose proof (Permutation_length Hperm) as Hlen.
  rewrite FCFS_Start_pass. cbn [averages final_processes].
  unfold RR_Start in Hrun.
  apply map_outcome_returned in Hrun as (s & Hloop & ->).
  cbn [averages final_processes finish].
  destruct (decide (l = [])) as [->|Hne].
  { apply Permutation_nil_r in Hperm. rewrite Hperm in *.
    destruct fuel; simpl in Hloop; injection Hloop as <-; done. }
  assert (Hsorted_ne : std_sort S l <> []).
  { intros Heq. rewrite Heq in Hperm. by apply Permutation_nil_l in Hperm. }
  apply (while_loop_returned_inv _ _
           (fun s => exists k j, RR_in_order (std_sort S l) k j s))
    in Hloop as [(k & j & Hinv) Hcond].
  - destruct Hinv as (Hlen' & Hcount & _ & Hkj & _ & Hat & _ & Hmetrics).
    unfold unfinished_remain in Hcond. apply Nat.ltb_ge in Hcond.
    assert (k = length (std_sort S l)) as Hk by lia.
    rewrite Hmetrics, Hk, take_ge by (by rewrite FCFS_pass_length).
    split; [done|].
    apply Forall2_same_length_lookup. split.
    + by rewrite FCFS_pass_length.
    + intros i q p Hq Hp. specialize (Hat i p Hp).
      unfold RR_in_order_at in Hat.
      pose proof (lookup_lt_Some _ _ _ Hp).
      rewrite (proj2 (Nat.ltb_lt i k)) in Hat by lia.
      destruct Hat as (_ & q' & Hq' & Hsame). congruence.
  - intros s1 s2 (k & j & Hinv) Hcond Hbody.
    unfold unfinished_remain in Hcond. apply Nat.ltb_lt in Hcond.
    destruct (RR_in_order_step quantum (std_sort S l)) with (k := k) (j := j)
      (s := s1) as (j' & s' & Hbody' & Hinv').
    + apply std_sort_sorted.
    + rewrite Hperm. apply Forall_and. split; [|done].
      eapply Forall_impl; [exact Hwf|]. by intros p (_ & ? & _).
    + done.
    + destruct Hinv as (_ & Hcount & _). lia.
    + exists (Datatypes.S k), j'. congruence.
  - exists 0%nat, 1%nat. apply RR_init_in_order; [done|].
    by rewrite Hperm.
Qed.

Lemma RR_large_quantum_is_FCFS_witness :
  exists r,
    RR_Start 20 stable_sort 4 readme_input = Returned r /\
    averages r = averages (FCFS_Start stable_sort readme_input) /\
    Forall2 same_times
      (final_processes (FCFS_Start stable_sort readme_input))
      (final_processes r).
Proof.
  assert (Hbt : Forall (fun p => bt p <= 20) readme_input).
  { repeat constructor; simpl; lia. }
  destruct (RR_Start 20 stable_sort 4 readme_input) as [r| |] eqn:Hrun;
    [|vm_compute in Hrun; discriminate..].
  exists r. split; [done|].
  exact (RR_large_quantum_is_FCFS 20 stable_sort 4 readme_input r
           readme_input_well_formed Hbt Hrun).
Defined.

(** * Further properties: the page replacement program *)

(* [set_solver] clears hypotheses by names that need not exist. *)
#[local] Set Warnings "-clear-no-such-hyp".

(** ** Page replacement: the three algorithms are demand pagers *)

Import page_replacement paging.
Local Open Scope nat_scope.

Lemma find_None (x : page) (l : list page) : find x l = None <-> x ∉ l.
Proof.
  induction l as [|y l IH]; simpl.
  - split; [intros _; apply not_elem_of_nil | done].
  - destruct (N.eqb_spec y x) as [->|Hne].
    + split; [done | intros H; destruct H; left].
    + rewrite fmap_None, IH, not_elem_of_cons. split; [|tauto].
      intros H. split; [congruence | done].
Qed.

Lemma find_Some (x : page) (l : list page) (i : nat) :
  find x l = Some i -> l !! i = Some x /\ forall j, j < i -> l !! j <> Some x.
Proof.
  revert i. induction l as [|y l IH]; intros i; simpl; [done|].
  destruct (N.eqb_spec y x) as [->|Hne].
  - intros [= <-]. split; [done | lia].
  - intros (k & Hk & ->)%fmap_Some. destruct (IH k Hk) as [Hl Hfirst].
    split; [done|]. intros [|j] Hj; simpl; [congruence | apply Hfirst; lia].
Qed.

Lemma find_elem_of (x : page) (l : list page) :
  x ∈ l -> exists i, find x l = Some i.
Proof.
  intros Hx. destruct (find x l) as [i|] eqn:Hfind; [by exists i|].
  by apply find_None in Hfind.
Qed.

Lemma incr_wrapped (m : nat) : incr (wrapped m) = wrapped (S m).
Proof.
  unfold incr, wrapped. rewrite Nat2N.inj_succ, <- N.add_1_r.
  by rewrite N.Div0.add_mod_idemp_l.
Qed.

Lemma wrapped_small (m : nat) :
  (N.of_nat m < 2 ^ 32)%N -> wrapped m = N.of_nat m.
Proof. intros H. unfold wrapped. by apply N.mod_small. Qed.

Lemma pages_snoc (l : list page) (r : page) :
  pages (l ++ [r]) = pages l ∪ {[r]}.
Proof. unfold pages. rewrite list_to_set_app_L. set_solver. Qed.

Lemma pages_perm (l k : list page) : l ≡ₚ k -> pages l = pages k.
Proof.
  intros H. unfold pages. apply set_eq. intros x.
  by rewrite !elem_of_list_to_set, H.
Qed.

Lemma elem_of_pages (x : page) (l : list page) : x ∈ pages l <-> x ∈ l.
Proof. unfold pages. by rewrite elem_of_list_to_set. Qed.

Lemma distinct_snoc_old (l : list page) (r : page) :
  r ∈ l -> distinct (l ++ [r]) = distinct l.
Proof.
  intros Hr. unfold distinct. rewrite pages_snoc. f_equal.
  apply elem_of_pages in Hr. set_solver.
Qed.

Lemma distinct_snoc_new (l : list page) (r : page) :
  r ∉ l -> distinct (l ++ [r]) = S (distinct l).
Proof.
  intros Hr. unfold distinct. rewrite pages_snoc, size_union, size_singleton.
  - lia.
  - rewrite <- elem_of_pages in Hr. set_solver.
Qed.

Lemma distinct_snoc_le (l : list page) (r : page) :
  distinct l <= distinct (l ++ [r]) <= S (distinct l).
Proof.
  destruct (decide (r ∈ l)) as [Hr|Hr].
  - rewrite distinct_snoc_old by done. lia.
  - rewrite distinct_snoc_new by done. lia.
Qed.

Lemma distinct_NoDup (l : list page) : NoDup l -> distinct l = length l.
Proof. apply size_list_to_set. Qed.

Lemma distinct_le_length (l : list page) : distinct l <= length l.
Proof.
  induction l as [|x l IH] using rev_ind; [done|].
  pose proof (distinct_snoc_le l x). rewrite length_app. simpl. lia.
Qed.

(** A frame as large as the number of distinct pages seen holds them all. *)
Lemma resident_all (seen frame : list page) :
  NoDup frame -> pages frame ⊆ pages seen -> distinct seen <= length frame ->
  pages frame = pages seen.
Proof.
  intros Hnd Hsub Hlen. apply set_subseteq_size_eq; [done|].
  change (distinct seen <= distinct frame). by rewrite (distinct_NoDup frame).
Qed.

Lemma demand_step_inv (capacity : nat) (seen frame frame' : list page)
    (r : page) (fault : bool) (m : nat) :
  resident_ok capacity seen frame -> count_ok capacity seen m ->
  demand_step capacity r frame fault frame' ->
  resident_ok capacity (seen ++ [r]) frame' /\
  count_ok capacity (seen ++ [r]) (if fault then S m else m).
Proof.
  intros (Hnd & Hsub & Hlen & Hlast) [Hm Hfew] Hstep.
  unfold resident_ok, count_ok.
  pose proof (distinct_snoc_le seen r) as Hd.
  assert (Hlast' : forall x, last (seen ++ [r]) = Some x -> x = r).
  { intros x. rewrite last_snoc. congruence. }
  destruct Hstep as [frame' Hr Hperm | frame' Hr Hroom Hperm
                    | victim kept frame' Hr Hfull Hframe Hperm].
  - assert (Hseen : r ∈ seen).
    { apply elem_of_pages, Hsub, elem_of_pages, Hr. }
    rewrite distinct_snoc_old in * by done.
    split; [split_and!|split].
    + by rewrite Hperm.
    + rewrite (pages_perm _ _ Hperm), pages_snoc. set_solver.
    + by rewrite Hperm.
    + intros x ->%Hlast'. by rewrite Hperm.
    + rewrite length_app. simpl. lia.
    + done.
  - assert (Hall : pages frame = pages seen).
    { apply resident_all; [done..|lia]. }
    assert (Hnew : r ∉ seen).
    { rewrite <- elem_of_pages, <- Hall, elem_of_pages. done. }
    rewrite distinct_snoc_new in * by done.
    split; [split_and!|split].
    + rewrite Hperm. by apply NoDup_cons.
    + rewrite (pages_perm _ _ Hperm), pages_snoc. unfold pages in *.
      set_solver.
    + rewrite Hperm. simpl. lia.
    + intros x ->%Hlast'. rewrite Hperm. left.
    + rewrite length_app. simpl. lia.
    + intros _. f_equal. apply Hfew. lia.
  - assert (Hkept : NoDup kept /\ (r ∉ kept) /\
                    length frame = S (length kept)).
    { rewrite Hframe in Hnd, Hr. apply NoDup_cons in Hnd as [_ Hnd].
      apply not_elem_of_cons in Hr as [_ Hr]. rewrite Hframe. done. }
    destruct Hkept as (Hndk & Hrk & Hlenk).
    split; [split_and!|split].
    + rewrite Hperm. by apply NoDup_cons.
    + rewrite (pages_perm _ _ Hperm), pages_snoc.
      rewrite (pages_perm _ _ Hframe) in Hsub. unfold pages in *. set_solver.
    + rewrite Hperm. simpl. lia.
    + intros x ->%Hlast'. rewrite Hperm. left.
    + rewrite length_app. simpl. lia.
    + intros Hle. exfalso. apply Hr.
      assert (Hall : pages frame = pages seen).
      { apply resident_all; [done..|lia]. }
      destruct (decide (r ∈ seen)) as [Hin|Hnew].
      * by rewrite <- elem_of_pages, Hall, elem_of_pages.
      * rewrite distinct_snoc_new in * by done. lia.
Qed.

Lemma resident_ok_bound (capacity : nat) (seen frame : list page) :
  resident_ok capacity seen frame -> NoDup frame /\ length frame <= capacity.
Proof. intros (Hnd & _ & Hlen & _). split; [done | lia]. Qed.

Lemma demand_pager_run (capacity : nat) body (refs seen frame : list page)
    (m : nat) :
  demand_pager capacity body ->
  resident_ok capacity seen frame -> count_ok capacity seen m ->
  exists m' frame',
    for_each_reference body refs (wrapped m, frame) =
      Some (wrapped m', frame') /\
    resident_ok capacity (seen ++ refs) frame' /\
    count_ok capacity (seen ++ refs) m'.
Proof.
  intros Hbody. revert seen frame m.
  induction refs as [|r refs IH]; intros seen frame m Hres Hcount.
  - exists m, frame. by rewrite app_nil_r.
  - destruct (resident_ok_bound _ _ _ Hres) as [Hnd Hlen].
    destruct (Hbody r refs m frame Hnd Hlen) as (fault & frame1 & Hrun & Hstep).
    destruct (demand_step_inv _ _ _ _ _ _ _ Hres Hcount Hstep)
      as [Hres1 Hcount1].
    destruct (IH _ _ _ Hres1 Hcount1)
      as (m' & frame' & Hrest & Hres' & Hcount').
    exists m', frame'. rewrite <- app_assoc in Hres', Hcount'.
    split_and!; [|done..]. simpl. rewrite Hrun. simpl. done.
Qed.

Lemma distinct_nil : distinct [] = 0.
Proof. exact (size_empty (C := gset page)). Qed.

Lemma resident_ok_nil (capacity : nat) : resident_ok capacity [] [].
Proof.
  split_and!; [constructor | done | | done].
  rewrite distinct_nil. simpl. lia.
Qed.

Lemma count_ok_nil (capacity : nat) : count_ok capacity [] 0.
Proof. unfold count_ok. rewrite distinct_nil. simpl. lia. Qed.

Lemma load_demand_step (capacity : nat) (r : page) (frame : list page)
    (m : nat) :
  1 <= capacity -> r ∉ frame -> length frame <= capacity ->
  exists frame',
    load capacity r (wrapped m, frame) = Some (wrapped (S m), frame') /\
    demand_step capacity r frame true frame'.
Proof.
  intros Hcap Hr Hlen. unfold load.
  destruct (Nat.leb_spec capacity (length frame)) as [Hfull|Hroom].
  - destruct frame as [|v kept]; [simpl in *; lia|]. simpl.
    exists (kept ++ [r]). rewrite incr_wrapped. split; [done|].
    eapply step_evict; [done.. | reflexivity |].
    by rewrite Permutation_app_comm.
  - exists (frame ++ [r]). simpl. rewrite incr_wrapped. split; [done|].
    apply step_fill; [done..|]. by rewrite Permutation_app_comm.
Qed.

Lemma fifo_demand_pager (capacity : nat) :
  1 <= capacity -> demand_pager capacity (fifo_body capacity).
Proof.
  intros Hcap r rest m frame Hnd Hlen. unfold fifo_body. simpl.
  destruct (find r frame) as [i|] eqn:Hfind.
  - exists false, frame. split; [done|]. apply find_Some in Hfind as [Hi _].
    apply step_hit; [by eapply list_elem_of_lookup_2 | done].
  - apply find_None in Hfind.
    destruct (load_demand_step capacity r frame m) as (frame' & ? & ?);
      [done..|].
    by exists true, frame'.
Qed.

Lemma lru_demand_pager (capacity : nat) :
  1 <= capacity -> demand_pager capacity (lru_body capacity).
Proof.
  intros Hcap r rest m frame Hnd Hlen. unfold lru_body. simpl.
  destruct (find r frame) as [i|] eqn:Hfind.
  - exists false, (delete i frame ++ [r]). split; [done|].
    apply find_Some in Hfind as [Hi _].
    apply step_hit; [by eapply list_elem_of_lookup_2|].
    rewrite Permutation_app_comm. simpl. symmetry.
    by apply delete_Permutation.
  - apply find_None in Hfind.
    destruct (load_demand_step capacity r frame m) as (frame' & ? & ?);
      [done..|].
    by exists true, frame'.
Qed.

Lemma page_distances_lookup (f : page -> page_distance) (frame : list page)
    (m0 : gmap page page_distance) (p : page) :
  foldl (fun m page => <[page := f page]> m) m0 frame !! p =
    if decide (p ∈ frame) then Some (f p) else m0 !! p.
Proof.
  revert m0. induction frame as [|x frame IH]; intros m0.
  - destruct (decide (p ∈ [])) as [H|_]; [by apply elem_of_nil in H | done].
  - cbn [foldl]. rewrite IH.
    destruct (decide (p ∈ frame)) as [Hin|Hout],
             (decide (p ∈ x :: frame)) as [Hin'|Hout']; [done | | |].
    + destruct Hout'. by right.
    + apply elem_of_cons in Hin' as [->|Hin']; [|done].
      by rewrite lookup_insert_eq.
    + apply not_elem_of_cons in Hout' as [Hne _].
      by rewrite lookup_insert_ne.
Qed.

Lemma elem_of_iteration (O : MapOrder) (m : gmap page page_distance)
    (p : page) (d : page_distance) :
  (p, d) ∈ iteration O m <-> m !! p = Some d.
Proof. by rewrite (iteration_perm O m), elem_of_map_to_list. Qed.

Lemma elem_of_page_distances (O : MapOrder) (f : page -> page_distance)
    (frame : list page) (x : page * page_distance) :
  x ∈ iteration O (foldl (fun m page => <[page := f page]> m) ∅ frame) <->
  x.1 ∈ frame /\ x.2 = f x.1.
Proof.
  destruct x as [p d]. rewrite elem_of_iteration, page_distances_lookup. simpl.
  destruct (decide (p ∈ frame)) as [Hin|Hout].
  - split; [intros [= <-]; done | intros [_ ->]; done].
  - rewrite lookup_empty. split; [done | tauto].
Qed.

Lemma foldl_largest (first : page * page_distance)
    (l : list (page * page_distance)) :
  let v :=
    foldl (fun largest it =>
             if kPageDistanceComparer largest it then it else largest)
      first l in
  v ∈ first :: l /\ forall x, x ∈ first :: l -> (x.2 <= v.2)%N.
Proof.
  revert first. induction l as [|y l IH]; intros first; simpl.
  - split; [left|]. by intros x ->%list_elem_of_singleton.
  - destruct (IH (if kPageDistanceComparer first y then y else first))
      as [Hin Hmax].
    split.
    + apply elem_of_cons in Hin as [->|Hin]; [|by do 2 right].
      destruct (kPageDistanceComparer first y); [right; left | left].
    + assert ((first.2 <= (if kPageDistanceComparer first y
                           then y else first).2)%N /\
              (y.2 <= (if kPageDistanceComparer first y
                       then y else first).2)%N) as [Hfirst Hy].
      { unfold kPageDistanceComparer.
        destruct (N.ltb_spec first.2 y.2); lia. }
      intros x Hx. apply elem_of_cons in Hx as [->|Hx].
      * etrans; [exact Hfirst|]. apply Hmax. left.
      * apply elem_of_cons in Hx as [->|Hx].
        -- etrans; [exact Hy|]. apply Hmax. left.
        -- apply Hmax. by right.
Qed.

Lemma max_element_Some (l : list (page * page_distance))
    (v : page * page_distance) :
  max_element kPageDistanceComparer l = Some v ->
  v ∈ l /\ forall x, x ∈ l -> (x.2 <= v.2)%N.
Proof.
  destruct l as [|first l]; [done|]. intros [= <-]. apply foldl_largest.
Qed.

Lemma max_element_None (l : list (page * page_distance)) :
  max_element kPageDistanceComparer l = None -> l = [].
Proof. by destruct l. Qed.

Lemma insert_Permutation_delete (l : list page) (i : nat) (x y : page) :
  l !! i = Some x -> <[i:=y]> l ≡ₚ y :: delete i l.
Proof.
  revert i. induction l as [|z l IH]; intros [|i] Hi; simpl in *; try done.
  rewrite (IH i Hi). apply perm_swap.
Qed.

(** The page that [otm] replaces: resident, and none of the resident pages
    is used later. *)
Lemma otm_victim (O : MapOrder) (upcoming frame : list page) :
  frame <> [] ->
  exists victim page_index,
    max_element kPageDistanceComparer
      (iteration O
         (foldl (fun m page => <[page := next_use upcoming page]> m) ∅ frame))
      = Some victim /\
    find victim.1 frame = Some page_index /\
    frame !! page_index = Some victim.1 /\
    victim.2 = next_use upcoming victim.1 /\
    forall p, p ∈ frame -> (next_use upcoming p <= victim.2)%N.
Proof.
  intros Hne.
  destruct (max_element _ _) as [victim|] eqn:Hmax.
  - apply max_element_Some in Hmax as [Hin Hlargest].
    apply elem_of_page_distances in Hin as [Hin Hd].
    destruct (find_elem_of _ _ Hin) as [page_index Hfind].
    exists victim, page_index.
    split_and!; [done | done | by apply find_Some in Hfind as [? _] | done |].
    intros p Hp.
    apply (Hlargest (p, next_use upcoming p)), elem_of_page_distances. done.
  - apply max_element_None in Hmax. destruct frame as [|p frame]; [done|].
    assert ((p, next_use upcoming p) ∈ @nil (page * page_distance)) as Hin.
    { rewrite <- Hmax. apply elem_of_page_distances. split; [left | done]. }
    by apply elem_of_nil in Hin.
Qed.

Lemma otm_demand_pager (O : MapOrder) (capacity : nat) :
  1 <= capacity -> demand_pager capacity (otm_body O capacity).
Proof.
  intros Hcap r rest m frame Hnd Hlen. unfold otm_body.
  destruct (find r frame) as [i|] eqn:Hfind.
  - exists false, frame. split; [done|]. apply find_Some in Hfind as [Hi _].
    apply step_hit; [by eapply list_elem_of_lookup_2 | done].
  - apply find_None in Hfind.
    destruct (Nat.ltb_spec (length frame) capacity) as [Hroom|Hfull].
    + exists true, (frame ++ [r]). rewrite incr_wrapped. split; [done|].
      apply step_fill; [done..|]. by rewrite Permutation_app_comm.
    + destruct (otm_victim O (r :: rest) frame)
        as (victim & page_index & Hmax & Hindex & Hi & _).
      { intros ->. simpl in *. lia. }
      exists true, (<[page_index:=r]> frame). cbv zeta. rewrite Hmax.
      cbn [mbind option_bind]. rewrite Hindex. cbn [mbind option_bind].
      rewrite incr_wrapped. split; [done|].
      eapply step_evict; [done.. | by apply delete_Permutation
                         | by eapply insert_Permutation_delete].
Qed.

(** ** Page replacement: fault counts and frames *)

Lemma demand_pager_from_empty (capacity : nat) body (refs : list page) :
  demand_pager capacity body ->
  exists m frame,
    for_each_reference body refs (0%N, []) = Some (wrapped m, frame) /\
    resident_ok capacity refs frame /\ count_ok capacity refs m.
Proof.
  intros Hbody.
  apply (demand_pager_run capacity body refs [] [] 0 Hbody);
    [apply resident_ok_nil | apply count_ok_nil].
Qed.

Lemma for_each_reference_counted (capacity : nat) body (refs : list page) :
  demand_pager capacity body ->
  counted capacity refs (fst <$> for_each_reference body refs (0%N, [])).
Proof.
  intros Hbody.
  destruct (demand_pager_from_empty capacity body refs Hbody)
    as (m & frame & -> & _ & Hcount).
  by exists m.
Qed.

Lemma for_each_reference_holding (capacity : nat) body (refs : list page) :
  demand_pager capacity body ->
  holding capacity refs (for_each_reference body refs (0%N, [])).
Proof.
  intros Hbody.
  destruct (demand_pager_from_empty capacity body refs Hbody)
    as (m & frame & -> & Hres & _).
  by exists (wrapped m), frame.
Qed.

(** X12: With at least one frame, each of [fifo], [otm] and [lru] returns a
    fault count: the count of some number [m] of faults, as an
    [unsigned int], where [m] is at least the number of distinct pages
    referenced and at most the number of references, and is the number of
    distinct pages when they all fit in the frame. *)
Theorem paging_fault_counts (O : MapOrder) (capacity : nat)
    (refs : list page) :
  1 <= capacity ->
  counted capacity refs (fifo capacity refs) /\
  counted capacity refs (otm O capacity refs) /\
  counted capacity refs (lru capacity refs).
Proof.
  intros Hcap. split_and!; apply for_each_reference_counted.
  - by apply fifo_demand_pager.
  - by apply otm_demand_pager.
  - by apply lru_demand_pager.
Qed.

Lemma paging_fault_counts_witness :
  1 <= 4 /\
  (counted 4 readme_references (fifo 4 readme_references) /\
   counted 4 readme_references (otm key_order 4 readme_references) /\
   counted 4 readme_references (lru 4 readme_references)).
Proof.
  assert (H : 1 <= 4) by lia.
  split; [exact H|].
  exact (paging_fault_counts key_order 4 readme_references H).
Defined.

(** X13: With at least one frame, the frame that [fifo], [otm] and [lru]
    end with has no page twice, holds only referenced pages, among them the
    last one referenced, and as many as the capacity or the number of
    distinct pages referenced, whichever is less. *)
Theorem paging_final_frames (O : MapOrder) (capacity : nat)
    (refs : list page) :
  1 <= capacity ->
  holding capacity refs (fifo_run capacity refs) /\
  holding capacity refs (otm_run O capacity refs) /\
  holding capacity refs (lru_run capacity refs).
Proof.
  intros Hcap. split_and!; apply for_each_reference_holding.
  - by apply fifo_demand_pager.
  - by apply otm_demand_pager.
  - by apply lru_demand_pager.
Qed.

Lemma paging_final_frames_witness :
  1 <= 3 /\
  (holding 3 readme_references (fifo_run 3 readme_references) /\
   holding 3 readme_references
     (otm_run reverse_key_order 3 readme_references) /\
   holding 3 readme_references (lru_run 3 readme_references)).
Proof.
  assert (H : 1 <= 3) by lia.
  split; [exact H|].
  exact (paging_final_frames reverse_key_order 3 readme_references H).
Defined.

Lemma iteration_empty (O : MapOrder) : iteration O ∅ = [].
Proof.
  apply Permutation_nil_r. rewrite (iteration_perm O ∅).
  by rewrite map_to_list_empty.
Qed.

Lemma counted_Some (capacity : nat) (refs : list page)
    (result : option page_fault) :
  counted capacity refs result -> result <> None.
Proof. by intros (m & -> & _). Qed.

(** X14: [fifo], [otm] and [lru] have undefined behaviour exactly when the
    capacity is 0 and there is at least one reference: [fifo] and [lru]
    then pop the front of an empty deque, and [otm] reads through the end
    iterator of an empty map. *)
Theorem paging_undefined_iff (O : MapOrder) (capacity : nat)
    (refs : list page) :
  (fifo capacity refs = None <-> capacity = 0 /\ refs <> []) /\
  (otm O capacity refs = None <-> capacity = 0 /\ refs <> []) /\
  (lru capacity refs = None <-> capacity = 0 /\ refs <> []).
Proof.
  destruct capacity as [|capacity].
  - destruct refs as [|r refs].
    + split_and!; (split; [done | by intros [_ ?]]).
    + split_and!; (split; [done | intros _]).
      * done.
      * unfold otm, otm_run. simpl. by rewrite iteration_empty.
      * done.
  - assert (Hcap : 1 <= S capacity) by lia.
    split_and!; (split; [intros H | intros [? _]; lia]).
    + destruct (counted_Some (S capacity) refs _
                  (for_each_reference_counted _ _ refs
                     (fifo_demand_pager _ Hcap)) H).
    + destruct (counted_Some (S capacity) refs _
                  (for_each_reference_counted _ _ refs
                     (otm_demand_pager O _ Hcap)) H).
    + destruct (counted_Some (S capacity) refs _
                  (for_each_reference_counted _ _ refs
                     (lru_demand_pager _ Hcap)) H).
Qed.

(** ** [lru]: more frames never cost a fault *)

Lemma drop_delete_lt (l : list page) (j k : nat) :
  j < k -> j < length l -> drop k (delete j l) = drop (S k) l.
Proof.
  revert j k. induction l as [|x l IH]; intros j k Hjk Hj; simpl in *; [lia|].
  destruct j as [|j], k as [|k]; simpl; try lia; [done|].
  apply IH; lia.
Qed.

Lemma drop_delete_ge (l : list page) (j k : nat) :
  k <= j -> drop k (delete j l) = delete (j - k) (drop k l).
Proof.
  revert j k. induction l as [|x l IH]; intros j k Hkj.
  - assert (Hd : forall i, delete i (@nil page) = []) by (by intros [|?]).
    rewrite (drop_nil k), !Hd. apply drop_nil.
  - destruct k as [|k]; [by rewrite Nat.sub_0_r|].
    destruct j as [|j]; [lia|]. simpl. apply IH. lia.
Qed.

Lemma find_NoDup (l : list page) (x : page) (j : nat) :
  NoDup l -> l !! j = Some x -> find x l = Some j.
Proof.
  intros Hnd Hj. destruct (find_elem_of x l) as [i Hi].
  { by eapply list_elem_of_lookup_2. }
  rewrite Hi. f_equal. apply find_Some in Hi as [Hi _].
  by eapply NoDup_lookup.
Qed.

Lemma find_drop (l : list page) (x : page) (j k : nat) :
  NoDup l -> l !! j = Some x ->
  find x (drop k l) = if decide (k <= j) then Some (j - k) else None.
Proof.
  intros Hnd Hj. destruct (decide (k <= j)) as [Hle|Hlt].
  - apply find_NoDup.
    + rewrite <- (take_drop k l) in Hnd. by apply NoDup_app in Hnd as (_&_&?).
    + rewrite lookup_drop. by replace (k + (j - k)) with j by lia.
  - apply find_None. intros (i & Hi)%list_elem_of_lookup.
    rewrite lookup_drop in Hi.
    pose proof (NoDup_lookup _ _ _ _ Hnd Hi Hj). lia.
Qed.

Lemma lru_body_hit (capacity : nat) (r : page) (rest frame : list page)
    (faults : page_fault) (j : nat) :
  find r frame = Some j ->
  lru_body capacity r rest (faults, frame) =
    Some (faults, delete j frame ++ [r]).
Proof. intros H. unfold lru_body. simpl. by rewrite H. Qed.

Lemma lru_body_full (capacity : nat) (r : page) (rest frame : list page)
    (faults : page_fault) :
  find r frame = None -> 1 <= capacity <= length frame ->
  lru_body capacity r rest (faults, frame) =
    Some (incr faults, drop 1 frame ++ [r]).
Proof.
  intros H Hlen. unfold lru_body, load. simpl. rewrite H.
  destruct (Nat.leb_spec capacity (length frame)); [|lia].
  destruct frame; simpl in *; [lia | done].
Qed.

Lemma lru_body_room (capacity : nat) (r : page) (rest frame : list page)
    (faults : page_fault) :
  find r frame = None -> length frame < capacity ->
  lru_body capacity r rest (faults, frame) =
    Some (incr faults, frame ++ [r]).
Proof.
  intros H Hlen. unfold lru_body, load. simpl. rewrite H.
  by destruct (Nat.leb_spec capacity (length frame)); [lia|].
Qed.

Lemma lru_inclusion_run (c c' : nat) (refs frame' : list page) (m m' : nat) :
  1 <= c <= c' -> NoDup frame' -> length frame' <= c' -> m' <= m ->
  exists n n' final',
    for_each_reference (lru_body c) refs
      (wrapped m, drop (length frame' - c) frame') =
      Some (wrapped n, drop (length final' - c) final') /\
    for_each_reference (lru_body c') refs (wrapped m', frame') =
      Some (wrapped n', final') /\
    n' <= n <= m + length refs.
Proof.
  intros Hc. revert frame' m m'.
  induction refs as [|r refs IH]; intros frame' m m' Hnd Hlen Hm.
  { exists m, m', frame'. split_and!; [done..|simpl; lia]. }
  cbn [for_each_reference].
  set (k := length frame' - c).
  assert (Hsmall : length (drop k frame') = length frame' `min` c).
  { rewrite length_drop. lia. }
  destruct (find r frame') as [j|] eqn:Hfind.
  - (* resident with [c'] frames *)
    pose proof (find_Some _ _ _ Hfind) as [Hj _].
    pose proof (lookup_lt_Some _ _ _ Hj) as Hjlen.
    rewrite (lru_body_hit c' _ _ _ _ _ Hfind). cbn [mbind option_bind].
    assert (Hnd1 : NoDup (delete j frame' ++ [r])).
    { rewrite Permutation_app_comm. simpl.
      by rewrite <- (delete_Permutation _ _ _ Hj). }
    assert (Hlen1 : length (delete j frame' ++ [r]) = length frame').
    { rewrite length_app, length_delete by eauto. simpl. lia. }
    pose proof (find_drop _ _ _ k Hnd Hj) as Hsmall_find.
    destruct (decide (k <= j)) as [Hkj|Hkj].
    + rewrite (lru_body_hit c _ _ _ _ _ Hsmall_find). cbn [mbind option_bind].
      destruct (IH (delete j frame' ++ [r]) m m')
        as (n & n' & final' & H1 & H2 & Hn);
        [done | lia | done |].
      exists n, n', final'. split_and!; [|done|simpl in *; lia..].
      rewrite <- H1. do 2 f_equal. rewrite Hlen1. fold k.
      rewrite drop_app_le by (rewrite length_delete by eauto; lia).
      by rewrite drop_delete_ge.
    + rewrite (lru_body_full c _ _ _ _ Hsmall_find) by lia.
      cbn [mbind option_bind]. rewrite incr_wrapped.
      destruct (IH (delete j frame' ++ [r]) (S m) m')
        as (n & n' & final' & H1 & H2 & Hn); [done | lia | lia |].
      exists n, n', final'. split_and!; [|done|simpl in *; lia..].
      rewrite <- H1. do 2 f_equal. rewrite Hlen1. fold k.
      rewrite drop_app_le by (rewrite length_delete by eauto; lia).
      rewrite drop_delete_lt by lia. by rewrite drop_drop, Nat.add_1_r.
  - (* not resident with [c'] frames, nor with [c] *)
    assert (Hmiss : find r (drop k frame') = None).
    { apply find_None. apply find_None in Hfind. intros Hin. apply Hfind.
      rewrite <- (take_drop k frame'). apply elem_of_app. by right. }
    destruct (decide (c' <= length frame')) as [Hfull'|Hroom'].
    + rewrite (lru_body_full c' _ _ _ _ Hfind) by lia.
      rewrite (lru_body_full c _ _ _ _ Hmiss) by lia.
      cbn [mbind option_bind]. rewrite !incr_wrapped.
      destruct (IH (drop 1 frame' ++ [r]) (S m) (S m'))
        as (n & n' & final' & H1 & H2 & Hn).
      { apply NoDup_app. split_and!.
        - rewrite <- (take_drop 1 frame') in Hnd.
          by apply NoDup_app in Hnd as (_&_&?).
        - intros x Hx ->%list_elem_of_singleton. apply find_None in Hfind.
          apply Hfind. rewrite <- (take_drop 1 frame'). apply elem_of_app.
          by right.
        - apply NoDup_singleton. }
      { rewrite length_app, length_drop. simpl. lia. }
      { lia. }
      exists n, n', final'. split_and!; [|done|simpl in *; lia..].
      rewrite <- H1. do 2 f_equal.
      rewrite length_app, length_drop. simpl.
      replace (length frame' - 1 + 1 - c) with k by lia.
      rewrite drop_app_le by (rewrite length_drop; lia).
      by rewrite !drop_drop, Nat.add_comm.
    + rewrite (lru_body_room c' _ _ _ _ Hfind) by lia.
      cbn [mbind option_bind]. rewrite incr_wrapped.
      assert (Hnd1 : NoDup (frame' ++ [r])).
      { apply NoDup_app. split_and!; [done | | apply NoDup_singleton].
        intros x Hx ->%list_elem_of_singleton. by apply find_None in Hfind. }
      destruct (decide (c <= length frame')) as [Hfull|Hroom].
      * rewrite (lru_body_full c _ _ _ _ Hmiss) by lia.
        cbn [mbind option_bind]. rewrite incr_wrapped.
        destruct (IH (frame' ++ [r]) (S m) (S m'))
          as (n & n' & final' & H1 & H2 & Hn);
          [done | rewrite length_app; simpl; lia | lia |].
        exists n, n', final'. split_and!; [|done|simpl in *; lia..].
        rewrite <- H1. do 2 f_equal. rewrite length_app. simpl.
        replace (length frame' + 1 - c) with (S k) by lia.
        rewrite drop_app_le by lia. by rewrite drop_drop, Nat.add_1_r.
      * rewrite (lru_body_room c _ _ _ _ Hmiss) by lia.
        cbn [mbind option_bind]. rewrite incr_wrapped.
        destruct (IH (frame' ++ [r]) (S m) (S m'))
          as (n & n' & final' & H1 & H2 & Hn);
          [done | rewrite length_app; simpl; lia | lia |].
        exists n, n', final'. split_and!; [|done|simpl in *; lia..].
        rewrite <- H1. do 2 f_equal. rewrite length_app. simpl.
        replace (length frame' + 1 - c) with 0 by lia.
        replace k with 0 by lia. done.
Qed.

(** X15: [lru] has the inclusion property: with [c] frames it ends with the
    [c] most recently used pages of the frame it ends with when given more
    frames, and more frames never cost a fault: on fewer than [2 ^ 32]
    references, where the counts cannot wrap, the count with [c'] frames is
    at most the count with [c] frames. *)
Theorem lru_more_frames (c c' : nat) (refs : list page) :
  1 <= c <= c' ->
  exists (faults faults' : page_fault) (frame' : list page),
    lru_run c refs = Some (faults, drop (length frame' - c) frame') /\
    lru_run c' refs = Some (faults', frame') /\
    ((N.of_nat (length refs) < 2 ^ 32)%N -> (faults' <= faults)%N).
Proof.
  intros Hc.
  destruct (lru_inclusion_run c c' refs [] 0 0 Hc)
    as (n & n' & final' & H1 & H2 & Hn); [constructor | simpl; lia | lia |].
  exists (wrapped n), (wrapped n'), final'. split_and!; [done..|].
  intros Hlen. rewrite !wrapped_small by lia. lia.
Qed.

Lemma lru_more_frames_witness :
  1 <= 3 <= 4 /\
  (N.of_nat (length readme_references) < 2 ^ 32)%N /\
  lru 3 readme_references = Some 10%N /\
  lru 4 readme_references = Some 8%N /\
  exists (faults faults' : page_fault) (frame' : list page),
    lru_run 3 readme_references =
      Some (faults, drop (length frame' - 3) frame') /\
    lru_run 4 readme_references = Some (faults', frame') /\
    (faults' <= faults)%N.
Proof.
  assert (H : 1 <= 3 <= 4) by lia.
  assert (Hlen : (N.of_nat (length readme_references) < 2 ^ 32)%N)
    by (vm_compute; reflexivity).
  split; [exact H|]. split; [exact Hlen|].
  split; [reflexivity|]. split; [reflexivity|].
  destruct (lru_more_frames 3 4 readme_references H)
    as (faults & faults' & frame' & H1 & H2 & Hle).
  exists faults, faults', frame'.
  split; [exact H1|]. split; [exact H2|exact (Hle Hlen)].
Defined.

(** ** [otm]: the order of the map does not matter *)

Lemma otm_body_hit (O : MapOrder) (capacity : nat) (r : page)
    (rest frame : list page) (faults : page_fault) :
  r ∈ frame ->
  otm_body O capacity r rest (faults, frame) = Some (faults, frame).
Proof.
  intros Hr. unfold otm_body.
  destruct (find r frame) eqn:Hfind; [done|]. by apply find_None in Hfind.
Qed.

Lemma otm_body_room (O : MapOrder) (capacity : nat) (r : page)
    (rest frame : list page) (faults : page_fault) :
  r ∉ frame -> length frame < capacity ->
  otm_body O capacity r rest (faults, frame) =
    Some (incr faults, frame ++ [r]).
Proof.
  intros Hr Hlen. unfold otm_body. apply find_None in Hr. rewrite Hr.
  by destruct (Nat.ltb_spec (length frame) capacity); [|lia].
Qed.

Lemma otm_body_full (O : MapOrder) (capacity : nat) (r : page)
    (rest frame : list page) (faults : page_fault) :
  r ∉ frame -> capacity <= length frame -> frame <> [] ->
  exists victim page_index,
    otm_body O capacity r rest (faults, frame) =
      Some (incr faults, <[page_index:=r]> frame) /\
    frame !! page_index = Some victim /\
    forall p, p ∈ frame ->
      (next_use (r :: rest) p <= next_use (r :: rest) victim)%N.
Proof.
  intros Hr Hlen Hne. unfold otm_body. apply find_None in Hr. rewrite Hr.
  destruct (Nat.ltb_spec (length frame) capacity); [lia|].
  destruct (otm_victim O (r :: rest) frame Hne)
    as (victim & page_index & Hmax & Hindex & Hi & Hd & Hlargest).
  exists victim.1, page_index. cbv zeta. rewrite Hmax.
  cbn [mbind option_bind]. rewrite Hindex. cbn [mbind option_bind].
  split_and!; [done..|]. intros p Hp. rewrite <- Hd. by apply Hlargest.
Qed.

Lemma otm_body_no_frame (O : MapOrder) (r : page) (rest : list page)
    (faults : page_fault) :
  otm_body O 0 r rest (faults, []) = None.
Proof. unfold otm_body. simpl. by rewrite iteration_empty. Qed.

Lemma next_use_unused (upcoming : list page) (p : page) :
  p ∉ upcoming -> next_use upcoming p = SIZE_MAX.
Proof. intros H. unfold next_use. apply find_None in H. by rewrite H. Qed.

Lemma next_use_used (upcoming : list page) (p : page) :
  p ∈ upcoming -> (N.of_nat (length upcoming) <= SIZE_MAX)%N ->
  exists i, find p upcoming = Some i /\ upcoming !! i = Some p /\
            next_use upcoming p = N.of_nat i /\
            (next_use upcoming p < SIZE_MAX)%N.
Proof.
  intros Hp Hlen. destruct (find_elem_of _ _ Hp) as [i Hi].
  exists i. unfold next_use. rewrite Hi.
  pose proof (find_Some _ _ _ Hi) as [Hl _].
  pose proof (lookup_lt_Some _ _ _ Hl). split_and!; [done..|lia].
Qed.

Lemma next_use_finite (upcoming : list page) (p : page) :
  (next_use upcoming p < SIZE_MAX)%N -> p ∈ upcoming.
Proof.
  intros H. destruct (decide (p ∈ upcoming)) as [|Hout]; [done|].
  rewrite (next_use_unused _ _ Hout) in H. lia.
Qed.

Lemma NoDup_same_length_subset (l k : list page) :
  NoDup l -> length k <= length l -> (forall x, x ∈ l -> x ∈ k) -> l ≡ₚ k.
Proof.
  intros Hnd Hlen Hsub. apply submseteq_length_Permutation; [|done].
  by apply NoDup_submseteq.
Qed.

(** Two victims chosen from frames with the same needed pages are the same
    page, unless neither is needed again. *)
Lemma otm_victims_agree (upcoming F1 F2 : list page) (v1 v2 : page) :
  (N.of_nat (length upcoming) <= SIZE_MAX)%N ->
  same_needed upcoming F1 F2 ->
  v1 ∈ F1 -> v2 ∈ F2 ->
  (forall p, p ∈ F1 -> (next_use upcoming p <= next_use upcoming v1)%N) ->
  (forall p, p ∈ F2 -> (next_use upcoming p <= next_use upcoming v2)%N) ->
  v1 ∈ upcoming -> v1 = v2.
Proof.
  intros Hlen (Hnd1 & Hnd2 & Hsize & Hsame) Hv1 Hv2 Hmax1 Hmax2 Hneeded.
  destruct (next_use_used _ _ Hneeded Hlen) as (i & _ & Hi & Hnext & Hfin).
  assert (Hperm : F1 ≡ₚ F2).
  { apply NoDup_same_length_subset; [done | lia|].
    intros p Hp. apply Hsame; [|done].
    apply next_use_finite. specialize (Hmax1 p Hp). lia. }
  assert (Heq : next_use upcoming v2 = next_use upcoming v1).
  { apply N.le_antisymm.
    - apply Hmax1. by rewrite Hperm.
    - apply Hmax2. by rewrite <- Hperm. }
  assert (Hneeded2 : v2 ∈ upcoming).
  { apply next_use_finite. lia. }
  destruct (next_use_used _ _ Hneeded2 Hlen) as (i2 & _ & Hi2 & Hnext2 & _).
  assert (i2 = i) by lia. subst i2. congruence.
Qed.

Lemma elem_of_replaced (frame : list page) (i : nat) (v r p : page) :
  NoDup frame -> frame !! i = Some v ->
  p ∈ <[i:=r]> frame <-> p = r \/ (p ∈ frame /\ p <> v).
Proof.
  intros Hnd Hi.
  pose proof (insert_Permutation_delete _ _ _ r Hi) as Hnew.
  pose proof (delete_Permutation _ _ _ Hi) as Hold.
  set (kept := delete i frame) in *.
  rewrite Hold in Hnd. apply NoDup_cons in Hnd as [Hv _].
  rewrite Hnew, Hold, !elem_of_cons.
  split; (intros [?|H]; [by left | right]).
  - split; [by right | intros ->; done].
  - destruct H as [[?|?] ?]; done.
Qed.

Lemma NoDup_replaced (frame : list page) (i : nat) (v r : page) :
  NoDup frame -> frame !! i = Some v -> r ∉ frame ->
  NoDup (<[i:=r]> frame).
Proof.
  intros Hnd Hi Hr.
  pose proof (insert_Permutation_delete _ _ _ r Hi) as Hnew.
  pose proof (delete_Permutation _ _ _ Hi) as Hold.
  set (kept := delete i frame) in *.
  rewrite Hnew. rewrite Hold in Hnd, Hr.
  apply NoDup_cons in Hnd as [_ Hnd]. apply not_elem_of_cons in Hr as [_ Hr].
  by apply NoDup_cons.
Qed.

Lemma NoDup_snoc_new (frame : list page) (r : page) :
  NoDup frame -> r ∉ frame -> NoDup (frame ++ [r]).
Proof.
  intros Hnd Hr. rewrite Permutation_app_comm. by apply NoDup_cons.
Qed.

Lemma otm_order_run (O1 O2 : MapOrder) (capacity : nat) (refs F1 F2 : list page)
    (faults : page_fault) :
  (N.of_nat (length refs) <= SIZE_MAX)%N -> same_needed refs F1 F2 ->
  fst <$> for_each_reference (otm_body O1 capacity) refs (faults, F1) =
  fst <$> for_each_reference (otm_body O2 capacity) refs (faults, F2).
Proof.
  revert F1 F2 faults.
  induction refs as [|r rest IH]; intros F1 F2 faults Hlen Hsame; [done|].
  assert (Hlen' : (N.of_nat (length rest) <= SIZE_MAX)%N).
  { simpl in Hlen. lia. }
  pose proof Hsame as (Hnd1 & Hnd2 & Hsize & Hiff).
  cbn [for_each_reference].
  destruct (decide (r ∈ F1)) as [Hr1|Hr1].
  - assert (Hr2 : r ∈ F2) by (apply Hiff; [left | done]).
    rewrite !otm_body_hit by done. cbn [mbind option_bind].
    apply IH; [done|]. split_and!; [done..|].
    intros p Hp. apply Hiff. by right.
  - assert (Hr2 : r ∉ F2).
    { intros H. apply Hr1, Hiff; [left | done]. }
    destruct (decide (length F1 < capacity)) as [Hroom|Hfull].
    + rewrite !otm_body_room by (done || lia). cbn [mbind option_bind].
      apply IH; [done|].
      split_and!; [by apply NoDup_snoc_new.. | by rewrite !length_app, Hsize|].
      intros p Hp. rewrite !elem_of_app.
      assert (p ∈ F1 <-> p ∈ F2) by (apply Hiff; by right). tauto.
    + destruct (decide (F1 = [])) as [->|Hne1].
      { destruct F2; [|done]. simpl in Hfull.
        assert (capacity = 0) as -> by lia.
        by rewrite !otm_body_no_frame. }
      assert (Hne2 : F2 <> []).
      { intros ->. by destruct F1. }
      destruct (otm_body_full O1 capacity r rest F1 faults)
        as (v1 & i1 & -> & Hi1 & Hmax1); [done | lia | done |].
      destruct (otm_body_full O2 capacity r rest F2 faults)
        as (v2 & i2 & -> & Hi2 & Hmax2); [done | lia | done |].
      cbn [mbind option_bind]. apply IH; [done|].
      pose proof (list_elem_of_lookup_2 _ _ _ Hi1) as Hv1.
      pose proof (list_elem_of_lookup_2 _ _ _ Hi2) as Hv2.
      split_and!; [by eapply NoDup_replaced.. | by rewrite !length_insert|].
      intros p Hp.
      rewrite (elem_of_replaced F1 i1 v1 r p Hnd1 Hi1).
      rewrite (elem_of_replaced F2 i2 v2 r p Hnd2 Hi2).
      assert (Hp' : p ∈ r :: rest) by by right.
      assert (Hsame' : same_needed (r :: rest) F2 F1).
      { split_and!; [done.. | ]. intros q Hq. symmetry. by apply Hiff. }
      split; (intros [->|[Hin Hne]]; [by left | right]).
      * split; [by apply Hiff|]. intros ->. apply Hne.
        by apply (otm_victims_agree (r :: rest) F2 F1 v2 v1).
      * split; [by apply Hiff|]. intros ->. apply Hne.
        by apply (otm_victims_agree (r :: rest) F1 F2 v1 v2).
Qed.

(** X16: The fault count of [otm] does not depend on the order in which the
    [std::unordered_map] of page distances is gone through, as long as the
    number of references stays below the largest [std::size_t]. *)
Theorem otm_order_irrelevant (O1 O2 : MapOrder) (capacity : nat)
    (refs : list page) :
  (N.of_nat (length refs) <= SIZE_MAX)%N ->
  otm O1 capacity refs = otm O2 capacity refs.
Proof.
  intros Hlen. apply otm_order_run; [done|].
  split_and!; [constructor.. | done | done].
Qed.

Lemma otm_order_irrelevant_witness :
  (N.of_nat (length readme_references) <= SIZE_MAX)%N /\
  otm key_order 3 readme_references =
    otm reverse_key_order 3 readme_references.
Proof.
  assert (H : (N.of_nat (length readme_references) <= SIZE_MAX)%N).
  { vm_compute. discriminate. }
  split; [exact H|].
  exact (otm_order_irrelevant key_order reverse_key_order 3
           readme_references H).
Defined.

(** ** [otm] takes the fewest faults *)

Lemma costs_le_length (capacity : nat) (F : gset page) (refs : list page)
    (n : nat) :
  costs capacity F refs n -> n <= length refs.
Proof. induction 1; simpl; lia. Qed.

Lemma costs_eq (capacity : nat) (F G : gset page) (refs : list page)
    (n : nat) :
  F = G -> costs capacity F refs n -> costs capacity G refs n.
Proof. by intros ->. Qed.

Lemma size_swap (C : gset page) (r v : page) :
  r ∉ C -> v ∈ C -> size ({[r]} ∪ C ∖ {[v]}) = size C.
Proof.
  intros Hr Hv. rewrite size_union by set_solver.
  rewrite size_singleton, size_difference by set_solver.
  rewrite size_singleton.
  assert (size C <> 0); [|lia].
  intros HC%size_empty_inv. set_solver.
Qed.

Lemma size_add (C : gset page) (x : page) :
  x ∉ C -> size (C ∪ {[x]}) = S (size C).
Proof.
  intros Hx. rewrite size_union by set_solver. rewrite size_singleton. lia.
Qed.

(** Two full frames that differ in one page: what one can do, the other can
    do with at most one more fault. *)
Lemma costs_one_page (capacity : nat) (refs : list page) :
  forall (D : gset page) (n : nat) (x y : page),
    x ∉ D -> y ∉ D -> S (size D) = capacity ->
    costs capacity (D ∪ {[y]}) refs n ->
    exists n', n' <= S n /\ costs capacity (D ∪ {[x]}) refs n'.
Proof.
  induction refs as [|r rest IH]; intros D n x y Hx Hy Hfull Hcosts.
  { exists 0. split; [lia | constructor]. }
  destruct (decide (x = y)) as [->|Hxy]; [exists n; split; [lia | done]|].
  assert (Hsize : forall z, z ∉ D -> size (D ∪ {[z]}) = capacity).
  { intros z Hz. rewrite size_add by done. lia. }
  assert (Hcap : S (size D) <= capacity <= S (size D)) by lia. clear Hfull.
  inversion Hcosts as [| ? ? ? ? Hr Hrest | ? ? ? ? Hr Hroom Hrest
                       | ? ? ? n0 v Hr _ Hv Hrest]; subst.
  - (* resident on the right *)
    destruct (decide (r = y)) as [->|Hry].
    + exists (S n). split; [lia|].
      apply (costs_evict _ _ _ _ _ x); [set_solver | by rewrite Hsize
                                        | set_solver |].
      eapply costs_eq; [|exact Hrest]. set_solver.
    + destruct (IH D n x y) as (n' & Hn' & Hleft); [done | done | lia | done |].
      exists n'. split; [done|]. apply costs_hit; [set_solver | done].
  - rewrite Hsize in Hroom by done. lia.
  - destruct (decide (r = x)) as [->|Hrx].
    + (* resident on the left only *)
      destruct (decide (v = y)) as [->|Hvy].
      * exists n0. split; [lia|]. apply costs_hit; [set_solver|].
        eapply costs_eq; [|exact Hrest]. set_solver.
      * assert (Hv' : v ∈ D) by set_solver.
        destruct (IH (D ∖ {[v]} ∪ {[x]}) n0 v y) as (n' & Hn' & Hleft).
        { set_solver. }
        { set_solver. }
        { rewrite union_comm_L, size_swap by done. lia. }
        { eapply costs_eq; [|exact Hrest]. set_solver. }
        exists n'. split; [lia|]. apply costs_hit; [set_solver|].
        eapply costs_eq; [|exact Hleft].
        apply set_eq. intros z. destruct (decide (z = v)); set_solver.
    + destruct (decide (v = y)) as [->|Hvy].
      * exists (S n0). split; [lia|].
        apply (costs_evict _ _ _ _ _ x); [set_solver | by rewrite Hsize
                                          | set_solver |].
        eapply costs_eq; [|exact Hrest]. set_solver.
      * assert (Hv' : v ∈ D) by set_solver.
        destruct (IH ({[r]} ∪ D ∖ {[v]}) n0 x y) as (n' & Hn' & Hleft).
        { set_solver. }
        { set_solver. }
        { rewrite size_swap by set_solver. lia. }
        { eapply costs_eq; [|exact Hrest]. set_solver. }
        exists (S n'). split; [lia|].
        apply (costs_evict _ _ _ _ _ v); [set_solver | by rewrite Hsize
                                          | set_solver |].
        eapply costs_eq; [|exact Hleft]. set_solver.
Qed.

Lemma sooner_tail (r a b : page) (rest : list page) :
  sooner (r :: rest) a b -> r <> a -> sooner rest a b.
Proof.
  intros Hsooner Hra i Hi. destruct (Hsooner (S i) Hi) as (j & Hj & Ha).
  destruct j as [|j]; simpl in Ha; [congruence|]. exists j. split; [lia|done].
Qed.

(** Of two full frames that differ in one page, the one that holds the page
    referenced sooner does at least as well. *)
Lemma costs_exchange (capacity : nat) (a b : page) (refs : list page) :
  forall (C : gset page) (n : nat),
    a ∉ C -> b ∉ C -> S (size C) = capacity -> sooner refs a b ->
    costs capacity (C ∪ {[b]}) refs n ->
    exists n', n' <= n /\ costs capacity (C ∪ {[a]}) refs n'.
Proof.
  induction refs as [|r rest IH]; intros C n Ha Hb Hfull Hsooner Hcosts.
  { exists 0. split; [lia | constructor]. }
  destruct (decide (a = b)) as [->|Hab]; [exists n; split; [lia | done]|].
  assert (Hsize : forall z, z ∉ C -> size (C ∪ {[z]}) = capacity).
  { intros z Hz. rewrite size_add by done. lia. }
  assert (Hcap : S (size C) <= capacity <= S (size C)) by lia. clear Hfull.
  assert (Hrb : r <> b).
  { intros ->. destruct (Hsooner 0 eq_refl) as (j & Hj & Hlook).
    assert (j = 0) as -> by lia. simpl in Hlook. congruence. }
  inversion Hcosts as [| ? ? ? ? Hr Hrest | ? ? ? ? Hr Hroom Hrest
                       | ? ? ? n0 v Hr _ Hv Hrest]; subst.
  - assert (Hra : r <> a) by set_solver.
    destruct (IH C n) as (n' & Hn' & Hleft);
      [done | done | lia | by eapply sooner_tail | done |].
    exists n'. split; [done|]. apply costs_hit; [set_solver | done].
  - rewrite Hsize in Hroom by done. lia.
  - destruct (decide (r = a)) as [->|Hra].
    + destruct (decide (v = b)) as [->|Hvb].
      * exists n0. split; [lia|]. apply costs_hit; [set_solver|].
        eapply costs_eq; [|exact Hrest]. set_solver.
      * assert (Hv' : v ∈ C) by set_solver.
        destruct (costs_one_page capacity rest (C ∖ {[v]} ∪ {[a]}) n0 v b)
          as (n' & Hn' & Hleft).
        { set_solver. }
        { set_solver. }
        { rewrite union_comm_L, size_swap by done. lia. }
        { eapply costs_eq; [|exact Hrest]. set_solver. }
        exists n'. split; [lia|]. apply costs_hit; [set_solver|].
        eapply costs_eq; [|exact Hleft].
        apply set_eq. intros z. destruct (decide (z = v)); set_solver.
    + destruct (decide (v = b)) as [->|Hvb].
      * exists (S n0). split; [lia|].
        apply (costs_evict _ _ _ _ _ a); [set_solver | by rewrite Hsize
                                          | set_solver |].
        eapply costs_eq; [|exact Hrest]. set_solver.
      * assert (Hv' : v ∈ C) by set_solver.
        destruct (IH ({[r]} ∪ C ∖ {[v]}) n0) as (n' & Hn' & Hleft).
        { set_solver. }
        { set_solver. }
        { rewrite size_swap by set_solver. lia. }
        { by eapply sooner_tail. }
        { eapply costs_eq; [|exact Hrest]. set_solver. }
        exists (S n'). split; [lia|].
        apply (costs_evict _ _ _ _ _ v); [set_solver | by rewrite Hsize
                                          | set_solver |].
        eapply costs_eq; [|exact Hleft]. set_solver.
Qed.

Lemma pages_cons (r : page) (l : list page) :
  pages (r :: l) = {[r]} ∪ pages l.
Proof. done. Qed.

Lemma size_pages (frame : list page) :
  NoDup frame -> size (pages frame) = length frame.
Proof. apply distinct_NoDup. Qed.

(** What a demand pager does is one of the ways of [costs]. *)
Lemma demand_pager_costs (capacity : nat) body (refs : list page) :
  demand_pager capacity body ->
  forall (frame : list page) (m : nat),
    NoDup frame -> length frame <= capacity ->
    exists n frame',
      for_each_reference body refs (wrapped m, frame) =
        Some (wrapped (m + n), frame') /\
      costs capacity (pages frame) refs n.
Proof.
  intros Hbody. induction refs as [|r rest IH]; intros frame m Hnd Hlen.
  { exists 0, frame. rewrite Nat.add_0_r. split; [done | constructor]. }
  destruct (Hbody r rest m frame Hnd Hlen) as (fault & frame1 & Hrun & Hstep).
  cbn [for_each_reference]. rewrite Hrun. cbn [mbind option_bind].
  destruct Hstep as [frame1 Hr Hperm | frame1 Hr Hroom Hperm
                    | victim kept frame1 Hr Hfull Hframe Hperm].
  - destruct (IH frame1 m) as (n & frame' & Hrest & Hcosts);
      [by rewrite Hperm.. |].
    exists n, frame'. split; [done|].
    apply costs_hit; [by apply elem_of_pages|].
    by rewrite <- (pages_perm _ _ Hperm).
  - destruct (IH frame1 (S m)) as (n & frame' & Hrest & Hcosts).
    { rewrite Hperm. by apply NoDup_cons. }
    { rewrite Hperm. simpl. lia. }
    exists (S n), frame'. rewrite <- Nat.add_succ_comm. split; [done|].
    apply costs_fill; [by rewrite elem_of_pages | by rewrite size_pages|].
    by rewrite <- pages_cons, <- (pages_perm _ _ Hperm).
  - assert (Hkept : NoDup kept /\ (r ∉ kept) /\ (victim ∉ kept) /\
                    length frame = S (length kept)).
    { rewrite Hframe in Hnd, Hr. apply NoDup_cons in Hnd as [? Hnd].
      apply not_elem_of_cons in Hr as [_ Hr]. rewrite Hframe. done. }
    destruct Hkept as (Hndk & Hrk & Hvk & Hlenk).
    destruct (IH frame1 (S m)) as (n & frame' & Hrest & Hcosts).
    { rewrite Hperm. by apply NoDup_cons. }
    { rewrite Hperm. simpl. lia. }
    exists (S n), frame'. rewrite <- Nat.add_succ_comm. split; [done|].
    apply (costs_evict _ _ _ _ _ victim);
      [by rewrite elem_of_pages | by rewrite size_pages | |].
    + rewrite elem_of_pages, Hframe. left.
    + eapply costs_eq; [|exact Hcosts].
      rewrite (pages_perm _ _ Hperm), (pages_perm _ _ Hframe), !pages_cons.
      rewrite <- elem_of_pages in Hvk. set_solver.
Qed.

Lemma next_use_sooner (r a b : page) (rest : list page) :
  (N.of_nat (length (r :: rest)) <= SIZE_MAX)%N -> r <> a -> r <> b ->
  (next_use (r :: rest) a <= next_use (r :: rest) b)%N ->
  sooner rest a b.
Proof.
  intros Hlen Hra Hrb Hle i Hi.
  assert (Hb : b ∈ r :: rest) by (right; by eapply list_elem_of_lookup_2).
  destruct (next_use_used _ _ Hb Hlen) as (ib & Hfindb & Hib & Hnb & Hfin).
  assert (Ha : a ∈ r :: rest) by (apply next_use_finite; lia).
  destruct (next_use_used _ _ Ha Hlen) as (ia & Hfinda & Hia & Hna & _).
  apply find_Some in Hfindb as [_ Hfirst].
  assert (ib <= S i).
  { destruct (decide (ib <= S i)) as [|Hgt]; [done|].
    destruct (Hfirst (S i)); [lia | done]. }
  destruct ia as [|j]; simpl in Hia; [congruence|].
  exists j. split; [lia | done].
Qed.

Lemma pages_replaced (frame : list page) (i : nat) (v r : page) :
  NoDup frame -> frame !! i = Some v ->
  pages (<[i:=r]> frame) = {[r]} ∪ pages frame ∖ {[v]}.
Proof.
  intros Hnd Hi. apply set_eq. intros p.
  rewrite elem_of_pages, (elem_of_replaced _ _ _ _ _ Hnd Hi).
  rewrite elem_of_union, elem_of_difference, elem_of_pages, !elem_of_singleton.
  done.
Qed.

(** What [otm] does costs no more than any of the ways of [costs]. *)
Lemma otm_optimal_run (O : MapOrder) (capacity : nat) (refs : list page) :
  1 <= capacity ->
  forall (frame : list page) (m n : nat),
    (N.of_nat (length refs) <= SIZE_MAX)%N ->
    NoDup frame -> length frame <= capacity ->
    costs capacity (pages frame) refs n ->
    exists k frame',
      for_each_reference (otm_body O capacity) refs (wrapped m, frame) =
        Some (wrapped (m + k), frame') /\
      k <= n.
Proof.
  intros Hcap.
  induction refs as [|r rest IH]; intros frame m n Hlen Hnd Hsize Hcosts.
  { exists 0, frame. rewrite Nat.add_0_r. split; [done | lia]. }
  assert (Hlen' : (N.of_nat (length rest) <= SIZE_MAX)%N).
  { simpl in Hlen. lia. }
  cbn [for_each_reference].
  inversion Hcosts as [| ? ? ? ? Hr Hrest | ? ? ? n0 Hr Hroom Hrest
                       | ? ? ? n0 v Hr Hfull Hv Hrest]; subst.
  - apply elem_of_pages in Hr.
    rewrite otm_body_hit by done. cbn [mbind option_bind].
    by apply IH.
  - rewrite elem_of_pages in Hr. rewrite size_pages in Hroom by done.
    rewrite otm_body_room by done. cbn [mbind option_bind].
    rewrite incr_wrapped.
    destruct (IH (frame ++ [r]) (S m) n0) as (k & frame' & Hrun & Hk).
    { done. }
    { by apply NoDup_snoc_new. }
    { rewrite length_app. simpl. lia. }
    { eapply costs_eq; [|exact Hrest]. rewrite pages_snoc. set_solver. }
    exists (S k), frame'. rewrite <- Nat.add_succ_comm. split; [done | lia].
  - rewrite elem_of_pages in Hr, Hv. rewrite size_pages in Hfull by done.
    destruct (otm_body_full O capacity r rest frame (wrapped m))
      as (best & i & -> & Hi & Hmax);
      [done | done | intros ->; by apply elem_of_nil in Hv |].
    cbn [mbind option_bind]. rewrite incr_wrapped.
    pose proof (list_elem_of_lookup_2 _ _ _ Hi) as Hbest.
    assert (exists n', n' <= n0 /\
              costs capacity (pages (<[i:=r]> frame)) rest n')
      as (n' & Hn' & Hcosts').
    { rewrite (pages_replaced _ _ _ _ Hnd Hi).
      destruct (decide (v = best)) as [->|Hne]; [by exists n0|].
      destruct (costs_exchange capacity v best rest
                  ({[r]} ∪ pages frame ∖ {[v]} ∖ {[best]}) n0)
        as (n' & Hn' & Hleft).
      { set_solver. }
      { set_solver. }
      { rewrite size_union, size_singleton by set_solver.
        rewrite !size_difference, !size_singleton, size_pages
          by (rewrite <- ?elem_of_pages in *; set_solver).
        assert (2 <= length frame); [|lia].
        rewrite <- size_pages by done.
        rewrite <- elem_of_pages in Hv, Hbest.
        transitivity (size ({[v; best]} : gset page)).
        - rewrite size_union, !size_singleton by set_solver. done.
        - apply subseteq_size. set_solver. }
      { apply (next_use_sooner r); [done | | |].
        - intros ->. done.
        - intros ->. done.
        - by apply Hmax. }
      { eapply costs_eq; [|exact Hrest].
        apply set_eq. intros z. rewrite <- elem_of_pages in Hbest.
        destruct (decide (z = best)); set_solver. }
      exists n'. split; [done|]. eapply costs_eq; [|exact Hleft].
      apply set_eq. intros z. rewrite <- elem_of_pages in Hv.
      destruct (decide (z = v)); set_solver. }
    destruct (IH (<[i:=r]> frame) (S m) n') as (k & frame' & Hrun & Hk).
    { done. }
    { by eapply NoDup_replaced. }
    { by rewrite length_insert. }
    { done. }
    exists (S k), frame'. rewrite <- Nat.add_succ_comm. split; [done | lia].
Qed.

Lemma otm_beats_demand_pager (O : MapOrder) (capacity : nat) body
    (refs : list page) :
  1 <= capacity -> (N.of_nat (length refs) < 2 ^ 32)%N ->
  demand_pager capacity body ->
  exists a b,
    otm O capacity refs = Some a /\
    fst <$> for_each_reference body refs (0%N, []) = Some b /\
    (a <= b)%N.
Proof.
  intros Hcap Hlen Hbody.
  destruct (demand_pager_costs capacity body refs Hbody [] 0)
    as (n & frame' & Hrun & Hcosts); [constructor | simpl; lia |].
  pose proof (costs_le_length _ _ _ _ Hcosts) as Hn.
  destruct (otm_optimal_run O capacity refs Hcap [] 0 n)
    as (k & final & Hotm & Hk); [| constructor | simpl; lia | done |].
  { unfold SIZE_MAX. lia. }
  exists (wrapped k), (wrapped n). unfold otm, otm_run.
  change (0%N, @nil page) with (wrapped 0, @nil page).
  rewrite Hotm, Hrun. simpl. split_and!; [done..|].
  rewrite !wrapped_small by lia. lia.
Qed.

(** X17: With at least one frame and fewer than 2^32 references, the count
    that [otm] returns is at most the count that [fifo] returns and at most
    the count that [lru] returns. *)
Theorem otm_fewest_faults (O : MapOrder) (capacity : nat) (refs : list page) :
  1 <= capacity -> (N.of_nat (length refs) < 2 ^ 32)%N ->
  exists a b c,
    otm O capacity refs = Some a /\ fifo capacity refs = Some b /\
    lru capacity refs = Some c /\ (a <= b)%N /\ (a <= c)%N.
Proof.
  intros Hcap Hlen.
  destruct (otm_beats_demand_pager O capacity (fifo_body capacity) refs)
    as (a & b & Ha & Hb & Hab); [done.. | by apply fifo_demand_pager |].
  destruct (otm_beats_demand_pager O capacity (lru_body capacity) refs)
    as (a' & c & Ha' & Hc & Hac); [done.. | by apply lru_demand_pager |].
  assert (a' = a) as -> by congruence.
  by exists a, b, c.
Qed.

Lemma otm_fewest_faults_witness :
  1 <= 3 /\ (N.of_nat (length readme_references) < 2 ^ 32)%N /\
  exists a b c,
    otm key_order 3 readme_references = Some a /\
    fifo 3 readme_references = Some b /\
    lru 3 readme_references = Some c /\ (a <= b)%N /\ (a <= c)%N.
Proof.
  assert (H1 : 1 <= 3) by lia.
  assert (H2 : (N.of_nat (length readme_references) < 2 ^ 32)%N).
  { vm_compute. reflexivity. }
  split; [exact H1|]. split; [exact H2|].
  exact (otm_fewest_faults key_order 3 readme_references H1 H2).
Defined.

(** ** [parse_input] *)

Lemma numbers_snoc (read_unsigned : string -> option N) (lines : list string)
    (line : string) :
  numbers read_unsigned (lines ++ [line]) =
    numbers read_unsigned lines ++
    match read_unsigned line with Some v => [v] | None => [] end.
Proof.
  unfold numbers. rewrite omap_app. simpl. by destruct (read_unsigned line).
Qed.

Lemma reported_line_snoc (read_unsigned : string -> option N)
    (lines : list string) (line x : string) :
  reported_line read_unsigned (lines ++ [line]) x <->
  reported_line read_unsigned lines x \/
  (read_unsigned line = None /\
   x = not_a_number (length (numbers read_unsigned lines)) line).
Proof.
  split.
  - intros (i & l & Hi & Hread & ->).
    apply lookup_app_Some in Hi as [Hi|[Hlen Hi]].
    + left. exists i, l. split_and!; [done..|].
      pose proof (lookup_lt_Some _ _ _ Hi).
      by rewrite take_app_le by lia.
    + right. apply list_lookup_singleton_Some in Hi as [Hi ->].
      split; [done|]. assert (i = length lines) as -> by lia.
      by rewrite take_app_length.
  - intros [(i & l & Hi & Hread & ->)|[Hread ->]].
    + exists i, l. pose proof (lookup_lt_Some _ _ _ Hi).
      split_and!; [by apply lookup_app_l_Some | done |].
      by rewrite take_app_le by lia.
    + exists (length lines), line.
      split_and!; [by rewrite list_lookup_middle | done |].
      by rewrite take_app_length.
Qed.

Lemma parse_input_line_parsed (read_unsigned : string -> option N)
    (lines : list string) (line : string) (s : input_state) :
  parsed read_unsigned lines s ->
  parsed read_unsigned (lines ++ [line])
    (parse_input_line read_unsigned s line).
Proof.
  intros (Hcap & Hrefs & Hcount & Hcerr). unfold parsed, parse_input_line.
  rewrite numbers_snoc. destruct (read_unsigned line) as [v|] eqn:Hread.
  - destruct (Nat.eqb_spec (line_count s) 0) as [Hzero|Hpos]; simpl.
    + rewrite Hzero in Hcount. symmetry in Hcount.
      apply nil_length_inv in Hcount. rewrite Hcount in *. simpl.
      split_and!; [done | done | lia |].
      intros x. rewrite Hcerr, reported_line_snoc, Hread. naive_solver.
    + destruct (numbers read_unsigned lines) as [|c values] eqn:Hvalues;
        [simpl in *; lia|].
      simpl in *. rewrite length_app. simpl.
      split_and!; [done | by rewrite Hrefs | lia |].
      intros x. rewrite Hcerr, reported_line_snoc, Hread. naive_solver.
  - rewrite app_nil_r. simpl. split_and!; [done..|].
    intros x. rewrite elem_of_app, list_elem_of_singleton, Hcerr.
    rewrite reported_line_snoc, Hcount. naive_solver.
Qed.

Lemma parse_input_lines_parsed (read_unsigned : string -> option N)
    (lines : list string) :
  parsed read_unsigned lines
    (foldl (parse_input_line read_unsigned)
       (Build_input_state 0 [] 0 []) lines).
Proof.
  induction lines as [|line lines IH] using rev_ind.
  - split_and!; [done..|]. intros x. split.
    + by intros ?%elem_of_nil.
    + by intros (i & l & Hi & _).
  - rewrite foldl_app. simpl. by apply parse_input_line_parsed.
Qed.

(** X18: From a file that can be read, [parse_input] takes the numbers read
    from the lines, in order: the first is the capacity (0 when there is
    none) and the others are the references.  A line that is not read as a
    number is skipped and reported, and the number in its message is the
    number of lines read as numbers before it, not its place in the
    file. *)
Theorem parse_input_readable (read_unsigned : string -> option N)
    (filepath contents : string) :
  let lines := getlines newline contents in
  let result := parse_input read_unsigned filepath (Readable contents) in
  result.1 =
    Some (N.to_nat (hd 0%N (numbers read_unsigned lines)),
          tail (numbers read_unsigned lines)) /\
  forall x, x ∈ result.2 <-> reported_line read_unsigned lines x.
Proof.
  intros lines result.
  destruct (parse_input_lines_parsed read_unsigned lines)
    as (Hcap & Hrefs & _ & Hcerr).
  subst result. unfold parse_input. fold lines. simpl.
  by rewrite Hcap, Hrefs.
Qed.

(** ** [main] *)

Lemma parse_input_Readable (read_unsigned : string -> option N)
    (filepath contents : string) :
  exists errors,
    parse_input read_unsigned filepath (Readable contents) =
      (Some (N.to_nat
               (hd 0%N (numbers read_unsigned (getlines newline contents))),
             tail (numbers read_unsigned (getlines newline contents))),
       errors) /\
    forall x, x ∈ errors <->
              reported_line read_unsigned (getlines newline contents) x.
Proof.
  destruct (parse_input_lines_parsed read_unsigned (getlines newline contents))
    as (Hcap & Hrefs & _ & Hcerr).
  eexists. split; [|exact Hcerr]. unfold parse_input. by rewrite Hcap, Hrefs.
Qed.

Lemma algorithms_defined (O : MapOrder) (capacity : nat) (refs : list page) :
  1 <= capacity ->
  exists a b c,
    fifo capacity refs = Some a /\ otm O capacity refs = Some b /\
    lru capacity refs = Some c.
Proof.
  intros Hcap.
  destruct (for_each_reference_counted capacity _ refs
              (fifo_demand_pager capacity Hcap)) as (a & Ha & _).
  destruct (for_each_reference_counted capacity _ refs
              (otm_demand_pager O capacity Hcap)) as (b & Hb & _).
  destruct (for_each_reference_counted capacity _ refs
              (lru_demand_pager capacity Hcap)) as (c & Hc & _).
  by exists (wrapped a), (wrapped b), (wrapped c).
Qed.

(** X19: The behaviour of the program is undefined exactly when it is given
    no [argv[0]], or a readable file in which the first number read is 0
    and at least one more number is read. *)
Theorem page_main_undefined_iff (read_unsigned : string -> option N)
    (O : MapOrder) (file_system : string -> file_status)
    (argv : list string) :
  main read_unsigned O file_system argv = None <->
  argv = [] \/
  exists filepath contents r refs,
    argv !! 1 = Some filepath /\
    file_system filepath = Readable contents /\
    numbers read_unsigned (getlines newline contents) = 0%N :: r :: refs.
Proof.
  destruct argv as [|program [|filepath more]].
  - split; [by left | done].
  - split; [done|]. by intros [?|(?&?&?&?&?&_)].
  - cbn [main]. split.
    + intros Hmain. right.
      destruct (file_system filepath) as [| |contents] eqn:Hfs; [done..|].
      destruct (parse_input_Readable read_unsigned filepath contents)
        as (errors & Hparse & _).
      rewrite Hparse in Hmain.
      destruct (numbers read_unsigned (getlines newline contents))
        as [|c [|r refs]] eqn:Hnumbers; simpl in Hmain; [done | |].
      { by destruct (N.to_nat c). }
      destruct (N.to_nat c) as [|capacity] eqn:Hc.
      * exists filepath, contents, r, refs. split_and!; [done..|].
        rewrite ?Hnumbers. f_equal. lia.
      * destruct (algorithms_defined O (S capacity) (r :: refs))
          as (a & b & d & Ha & Hb & Hd); [lia|].
        by rewrite Ha, Hb, Hd in Hmain.
    + intros [?|(f & contents & r & refs & Hf & Hfs & Hnumbers)]; [done|].
      simpl in Hf. injection Hf as <-. rewrite Hfs.
      destruct (parse_input_Readable read_unsigned filepath contents)
        as (errors & Hparse & _).
      by rewrite Hparse, Hnumbers.
Qed.

(** X20: When the program returns, it fails exactly when it is given no file
    name, or the name of a file that is missing or cannot be read; it then
    writes nothing to the standard output and something to the standard
    error.  When it succeeds it writes three lines. *)
Theorem page_main_exit_status (read_unsigned : string -> option N)
    (O : MapOrder) (file_system : string -> file_status)
    (argv : list string) (out : program_output) :
  main read_unsigned O file_system argv = Some out ->
  (exit_status out = EXIT_FAILURE <->
   length argv = 1 \/
   exists filepath,
     argv !! 1 = Some filepath /\
     (file_system filepath = Missing \/ file_system filepath = Unreadable)) /\
  (exit_status out = EXIT_FAILURE -> stdout out = [] /\ stderr out <> []) /\
  (exit_status out = EXIT_SUCCESS -> length (stdout out) = 3).
Proof.
  destruct argv as [|program [|filepath more]]; [done | |].
  - intros [= <-]. simpl. split_and!; [|split; done | done].
    split; [by left | done].
  - cbn [main].
    destruct (file_system filepath) as [| |contents] eqn:Hfs.
    + intros [= <-]. simpl. split_and!; [|split; done | done].
      split; [|done]. intros _. right. exists filepath.
      split; [done | by left].
    + intros [= <-]. simpl. split_and!; [|split; done | done].
      split; [|done]. intros _. right. exists filepath.
      split; [done | by right].
    + destruct (parse_input_Readable read_unsigned filepath contents)
        as (errors & -> & _).
      destruct (fifo _ _); [|done]. destruct (otm _ _ _); [|done].
      destruct (lru _ _); [|done]. intros [= <-]. simpl.
      split_and!; [| done | done].
      split; [done|]. intros [?|(f & Hf & Hstatus)]; [done|].
      simpl in Hf. injection Hf as <-. rewrite Hfs in Hstatus.
      by destruct Hstatus.
Qed.

Lemma page_main_exit_status_witness :
  main read_nonnegative key_order (fun _ => Missing)
    ["pager"; "pages.txt"]%string =
    Some (Build_output []
            [("[FILE NOT FOUND] " ++ quote ++ "pages.txt" ++ quote)%string;
             ("Parsing failed!" ++ String newline EmptyString)%string]
            EXIT_FAILURE) /\
  (EXIT_FAILURE = EXIT_FAILURE <->
   length ["pager"; "pages.txt"]%string = 1 \/
   exists filepath,
     ["pager"; "pages.txt"]%string !! 1 = Some filepath /\
     (Missing = Missing \/ Missing = Unreadable)).
Proof.
  assert (H : main read_nonnegative key_order (fun _ => Missing)
                ["pager"; "pages.txt"]%string =
              Some (Build_output []
                      [("[FILE NOT FOUND] " ++ quote ++ "pages.txt" ++
                        quote)%string;
                       ("Parsing failed!" ++
                        String newline EmptyString)%string]
                      EXIT_FAILURE)) by reflexivity.
  split; [exact H|].
  exact (proj1 (page_main_exit_status read_nonnegative key_order
                  (fun _ => Missing) _ _ H)).
Defined.

(** X21: Given a readable file in which the first number read is a capacity
    of at least 1 and fewer than 2^32 numbers follow, the program succeeds
    and writes the counts of [fifo], [otm] and [lru], in this order, the
    count of [otm] being the least; the standard error holds the reports of
    the lines that were not read as numbers. *)
Theorem page_main_prints_counts (read_unsigned : string -> option N)
    (O : MapOrder) (file_system : string -> file_status)
    (program filepath contents : string) (more : list string)
    (c : N) (refs : list page) :
  file_system filepath = Readable contents ->
  numbers read_unsigned (getlines newline contents) = c :: refs ->
  (0 < c)%N -> (N.of_nat (length refs) < 2 ^ 32)%N ->
  exists a b d errors,
    main read_unsigned O file_system (program :: filepath :: more) =
      Some (Build_output
              [("FIFO " ++ show a)%string; ("OTM " ++ show b)%string;
               ("LRU " ++ show d)%string]
              errors EXIT_SUCCESS) /\
    fifo (N.to_nat c) refs = Some a /\ otm O (N.to_nat c) refs = Some b /\
    lru (N.to_nat c) refs = Some d /\ (b <= a)%N /\ (b <= d)%N /\
    forall x, x ∈ errors <->
              reported_line read_unsigned (getlines newline contents) x.
Proof.
  intros Hfs Hnumbers Hc Hlen.
  assert (Hcap : 1 <= N.to_nat c) by lia.
  destruct (otm_beats_demand_pager O _ (fifo_body (N.to_nat c)) refs Hcap Hlen)
    as (b & a & Hb & Ha & Hba); [by apply fifo_demand_pager|].
  destruct (otm_beats_demand_pager O _ (lru_body (N.to_nat c)) refs Hcap Hlen)
    as (b' & d & Hb' & Hd & Hbd); [by apply lru_demand_pager|].
  assert (b' = b) as -> by congruence.
  destruct (parse_input_Readable read_unsigned filepath contents)
    as (errors & Hparse & Herrors).
  exists a, b, d, errors.
  change (fifo (N.to_nat c) refs = Some a) in Ha.
  change (lru (N.to_nat c) refs = Some d) in Hd.
  split_and!; [|done..].
  cbn [main]. rewrite Hfs, Hparse, Hnumbers. cbn [hd tail].
  by rewrite Ha, Hb, Hd.
Qed.

Lemma page_main_prints_counts_witness :
  exists a b d errors,
    main read_nonnegative key_order (fun _ => Readable readme_file)
      ["pager"; "pages.txt"]%string =
      Some (Build_output
              [("FIFO " ++ show a)%string; ("OTM " ++ show b)%string;
               ("LRU " ++ show d)%string]
              errors EXIT_SUCCESS) /\
    fifo 4 readme_references = Some a /\
    otm key_order 4 readme_references = Some b /\
    lru 4 readme_references = Some d /\ (b <= a)%N /\ (b <= d)%N /\
    forall x, x ∈ errors <->
              reported_line read_nonnegative (getlines newline readme_file) x.
Proof.
  assert (H1 : (fun _ : string => Readable readme_file) "pages.txt"%string =
               Readable readme_file) by reflexivity.
  assert (H2 : numbers read_nonnegative (getlines newline readme_file) =
               4%N :: readme_references) by (vm_compute; reflexivity).
  assert (H3 : (0 < 4)%N) by lia.
  assert (H4 : (N.of_nat (length readme_references) < 2 ^ 32)%N).
  { vm_compute. reflexivity. }
  exact (page_main_prints_counts read_nonnegative key_order
           (fun _ => Readable readme_file) "pager" "pages.txt" readme_file []
           4%N readme_references H1 H2 H3 H4).
Defined.

(** ** [lru] holds the most recently used pages; [fifo] the last loaded *)

Lemma remove_dups_snoc (l : list page) (r : page) :
  remove_dups (l ++ [r]) = filter (fun x => x <> r) (remove_dups l) ++ [r].
Proof.
  induction l as [|x l IH]; [done|]. simpl. rewrite IH.
  destruct (decide_rel elem_of x (l ++ [r])) as [Hin|Hout],
           (decide_rel elem_of x l) as [Hin'|Hout']; [done | | |].
  - apply elem_of_app in Hin as [?|Hr]; [done|].
    apply list_elem_of_singleton in Hr as ->.
    by rewrite filter_cons_False by (by intros ?).
  - destruct Hout. apply elem_of_app. by left.
  - rewrite filter_cons_True; [done|].
    intros ->. apply Hout, elem_of_app. right. left.
Qed.

Lemma filter_ne_absent (f : list page) (r : page) :
  r ∉ f -> filter (fun x => x <> r) f = f.
Proof.
  induction f as [|x f IH]; intros Hr; [done|].
  apply not_elem_of_cons in Hr as [Hne Hr].
  rewrite filter_cons_True by done. by rewrite IH.
Qed.

Lemma filter_ne_delete (f : list page) (j : nat) (r : page) :
  NoDup f -> f !! j = Some r -> filter (fun x => x <> r) f = delete j f.
Proof.
  revert j. induction f as [|x f IH]; intros j Hnd Hj; [done|].
  apply NoDup_cons in Hnd as [Hx Hnd]. destruct j as [|j]; simpl in *.
  - injection Hj as ->. rewrite filter_cons_False by (by intros ?).
    by apply filter_ne_absent.
  - rewrite filter_cons_True.
    + by rewrite (IH j).
    + intros ->. apply Hx. by eapply list_elem_of_lookup_2.
Qed.

Lemma remove_dups_length_le (l : list page) :
  length (remove_dups l) <= length l.
Proof.
  induction l as [|x l IH]; [done|]. simpl.
  destruct (decide_rel elem_of x l); simpl; lia.
Qed.

(** With room for every page, the frame of [lru] is the list of the pages
    seen, each at the place of its last reference. *)
Lemma lru_unbounded_run (capacity : nat) (refs seen : list page) (m : nat) :
  length (seen ++ refs) <= capacity ->
  exists m',
    for_each_reference (lru_body capacity) refs (wrapped m, remove_dups seen) =
      Some (wrapped m', remove_dups (seen ++ refs)).
Proof.
  revert seen m. induction refs as [|r refs IH]; intros seen m Hlen.
  { exists m. by rewrite app_nil_r. }
  pose proof (remove_dups_length_le seen) as Hseen.
  rewrite length_app in Hlen. simpl in Hlen.
  cbn [for_each_reference].
  destruct (find r (remove_dups seen)) as [j|] eqn:Hfind.
  - rewrite (lru_body_hit _ _ _ _ _ _ Hfind). cbn [mbind option_bind].
    apply find_Some in Hfind as [Hj _].
    assert (remove_dups (seen ++ [r]) = delete j (remove_dups seen) ++ [r])
      as <-.
    { rewrite remove_dups_snoc.
      by rewrite (filter_ne_delete _ j _ (NoDup_remove_dups seen) Hj). }
    destruct (IH (seen ++ [r]) m) as [m' Hrun].
    { rewrite !length_app. simpl. lia. }
    exists m'. by rewrite <- app_assoc in Hrun.
  - rewrite (lru_body_room _ _ _ _ _ Hfind) by lia.
    cbn [mbind option_bind]. rewrite incr_wrapped.
    apply find_None in Hfind.
    assert (remove_dups (seen ++ [r]) = remove_dups seen ++ [r]) as <-.
    { by rewrite remove_dups_snoc, filter_ne_absent. }
    destruct (IH (seen ++ [r]) (S m)) as [m' Hrun].
    { rewrite !length_app. simpl. lia. }
    exists m'. by rewrite <- app_assoc in Hrun.
Qed.

(** X25: the frame [lru] ends with holds the most recently used pages: the
    distinct pages referenced, in the order of their last reference, less
    the first ones when they are more than the capacity. *)
Theorem lru_holds_most_recent (capacity : nat) (refs : list page) :
  1 <= capacity ->
  exists m,
    lru_run capacity refs =
      Some (wrapped m,
            drop (length (remove_dups refs) - capacity) (remove_dups refs)).
Proof.
  intros Hcap.
  destruct (lru_inclusion_run capacity (capacity `max` length refs) refs [] 0 0)
    as (n & n' & final' & Hrun & Hrun' & _); [lia | constructor | simpl; lia
                                             | lia |].
  destruct (lru_unbounded_run (capacity `max` length refs) refs [] 0)
    as [m' Hall]; [simpl; lia|].
  change (remove_dups []) with (@nil page) in Hall. simpl in Hall.
  rewrite Hall in Hrun'. injection Hrun' as _ <-.
  exists n. exact Hrun.
Qed.

Lemma lru_holds_most_recent_witness :
  1 <= 3 /\
  exists m,
    lru_run 3 readme_references =
      Some (wrapped m,
            drop (length (remove_dups readme_references) - 3)
              (remove_dups readme_references)).
Proof.
  assert (H : 1 <= 3) by lia.
  split; [exact H | exact (lru_holds_most_recent 3 readme_references H)].
Defined.

Lemma fifo_body_hit (capacity : nat) (r : page) (rest frame : list page)
    (faults : page_fault) (j : nat) :
  find r frame = Some j ->
  fifo_body capacity r rest (faults, frame) = Some (faults, frame).
Proof. intros H. unfold fifo_body. simpl. by rewrite H. Qed.

Lemma fifo_body_full (capacity : nat) (r : page) (rest frame : list page)
    (faults : page_fault) :
  find r frame = None -> 1 <= capacity <= length frame ->
  fifo_body capacity r rest (faults, frame) =
    Some (incr faults, drop 1 frame ++ [r]).
Proof.
  intros H Hlen. unfold fifo_body, load. simpl. rewrite H.
  destruct (Nat.leb_spec capacity (length frame)); [|lia].
  destruct frame; simpl in *; [lia | done].
Qed.

Lemma fifo_body_room (capacity : nat) (r : page) (rest frame : list page)
    (faults : page_fault) :
  find r frame = None -> length frame < capacity ->
  fifo_body capacity r rest (faults, frame) =
    Some (incr faults, frame ++ [r]).
Proof.
  intros H Hlen. unfold fifo_body, load. simpl. rewrite H.
  by destruct (Nat.leb_spec capacity (length frame)); [lia|].
Qed.

Lemma fifo_loads_run (capacity : nat) (refs : list page) :
  1 <= capacity -> forall loads,
  for_each_reference (fifo_body capacity) refs
    (wrapped (length loads), drop (length loads - capacity) loads) =
    let all :=
      foldl (fun loads r =>
               if bool_decide (r ∈ drop (length loads - capacity) loads)
               then loads else loads ++ [r])
        loads refs in
    Some (wrapped (length all), drop (length all - capacity) all).
Proof.
  intros Hcap. induction refs as [|r refs IH]; intros loads; [done|].
  cbn [for_each_reference foldl]. cbn zeta.
  assert (Hframe : length (drop (length loads - capacity) loads) =
                   length loads `min` capacity).
  { rewrite length_drop. lia. }
  destruct (find r (drop (length loads - capacity) loads)) as [j|] eqn:Hfind.
  - rewrite (fifo_body_hit _ _ _ _ _ _ Hfind). cbn [mbind option_bind].
    apply find_Some in Hfind as [Hj _].
    rewrite bool_decide_eq_true_2 by (by eapply list_elem_of_lookup_2).
    apply IH.
  - rewrite bool_decide_eq_false_2 by (by apply find_None).
    specialize (IH (loads ++ [r])). cbn zeta in IH. rewrite <- IH.
    rewrite length_app. simpl.
    destruct (decide (capacity <= length loads)) as [Hfull|Hroom].
    + rewrite (fifo_body_full _ _ _ _ _ Hfind) by lia.
      cbn [mbind option_bind]. rewrite incr_wrapped.
      replace (length loads + 1 - capacity) with (S (length loads - capacity))
        by lia.
      rewrite drop_app_le by lia.
      rewrite drop_drop, Nat.add_1_r.
      by replace (length loads + 1) with (S (length loads)) by lia.
    + rewrite (fifo_body_room _ _ _ _ _ Hfind) by lia.
      cbn [mbind option_bind]. rewrite incr_wrapped.
      replace (length loads - capacity) with 0 by lia.
      replace (length loads + 1 - capacity) with 0 by lia.
      simpl. by replace (length loads + 1) with (S (length loads)) by lia.
Qed.

Lemma fifo_loads_sublist (capacity : nat) (refs : list page) :
  forall loads,
  exists new,
    sublist new refs /\
    foldl (fun loads r =>
             if bool_decide (r ∈ drop (length loads - capacity) loads)
             then loads else loads ++ [r])
      loads refs = loads ++ new.
Proof.
  induction refs as [|r refs IH]; intros loads.
  { exists []. by rewrite app_nil_r. }
  cbn [foldl]. case_bool_decide.
  - destruct (IH loads) as (new & Hsub & ->).
    exists new. split; [by apply sublist_cons|done].
  - destruct (IH (loads ++ [r])) as (new & Hsub & ->).
    exists (r :: new). split; [by apply sublist_skip|].
    by rewrite <- app_assoc.
Qed.

(** X26: [fifo] keeps the pages in the order in which it loaded them.  The
    references that cause a load are those whose page is not among the last
    [capacity] pages loaded before them ([fifo_loads], a subsequence of the
    references); the count [fifo] returns is their number, and the frame it
    ends with holds the last [capacity] of them, oldest first, so the page
    it replaces is always the one loaded longest ago. *)
Theorem fifo_holds_last_loaded (capacity : nat) (refs : list page) :
  1 <= capacity ->
  let loads := fifo_loads capacity refs in
  sublist loads refs /\
  fifo_run capacity refs =
    Some (wrapped (length loads), drop (length loads - capacity) loads).
Proof.
  intros Hcap loads. split.
  - destruct (fifo_loads_sublist capacity refs []) as (new & Hsub & Hnew).
    unfold loads, fifo_loads. by rewrite Hnew.
  - exact (fifo_loads_run capacity refs Hcap []).
Qed.

Lemma fifo_holds_last_loaded_witness :
  1 <= 3 /\
  fifo_loads 3 readme_references = [1; 2; 3; 4; 1; 2; 5; 3; 4]%N /\
  fifo_run 3 readme_references = Some (9%N, [5; 3; 4]%N).
Proof.
  assert (H : 1 <= 3) by lia.
  split; [exact H|]. split; [reflexivity|].
  exact (proj2 (fifo_holds_last_loaded 3 readme_references H)).
Defined.
